(** * Query wrapper and structural comparator of the mount wrapper

    A shallow embedding of

    - [wrapper/contains/RSTTraversal.js]  ([treeForEach], [treeFilter]),
    - [wrapper/contains/index.js]         ([nodeEqual], [nodeMatches],
                                           [childrenToSimplifiedArray]),
    - [wrapper/common/index.js]           ([propsOfNode]),
    - the [ReactMountWrapper] class       (query methods, single-node
                                           accessors, root-only mutators),
    - the adapter's mount renderer        ([createMountRenderer]).

    JavaScript values are a tree-shaped inductive type; objects, arrays and
    functions carry the address they were allocated at, so that [===] on
    them is reference identity.  Thrown exceptions are the [Throw] branch of
    a result type. *)

From Stdlib Require Import List String Ascii ZArith Bool Lia Arith DecimalString
  DecimalNat FinFun.
Import ListNotations.

#[local] Set Warnings "-register-all".
#[local] Open Scope string_scope.

(** ** JavaScript values *)

Definition loc := nat.

(** Numbers: the doubles whose value is an integer ([Int z]: [z] has a
    significand of at most 53 bits and lies below [2^1024]), the two
    infinities, and [NaN], the one number that is not [===] to itself.
    Fractions and the negative zero are not part of the model. *)
Inductive number : Type :=
| Int (z : Z)
| Inf (negative : bool)
| NaN.

Inductive value : Type :=
| VUndefined
| VNull
| VBool (b : bool)
| VNum (n : number)
| VStr (s : string)
| VFun (l : loc) (fields : list (string * value))
| VArr (l : loc) (items : list value)
| VObj (l : loc) (fields : list (string * value)).

(** Induction principle that reaches the values stored in arrays and in
    object members. *)
Section ValueInd.
Variable P : value -> Prop.
Hypothesis Hundef : P VUndefined.
Hypothesis Hnull : P VNull.
Hypothesis Hbool : forall b, P (VBool b).
Hypothesis Hnum : forall n, P (VNum n).
Hypothesis Hstr : forall s, P (VStr s).
Hypothesis Hfun : forall l fs, Forall (fun kv => P (snd kv)) fs -> P (VFun l fs).
Hypothesis Harr : forall l xs, Forall P xs -> P (VArr l xs).
Hypothesis Hobj : forall l fs, Forall (fun kv => P (snd kv)) fs -> P (VObj l fs).

Fixpoint value_deep_ind (v : value) : P v :=
  let members :=
    fix members (fs : list (string * value)) : Forall (fun kv => P (snd kv)) fs :=
      match fs with
      | [] => Forall_nil _
      | kv :: fs' => Forall_cons kv (value_deep_ind (snd kv)) (members fs')
      end in
  match v with
  | VUndefined => Hundef
  | VNull => Hnull
  | VBool b => Hbool b
  | VNum n => Hnum n
  | VStr s => Hstr s
  | VFun l fs => Hfun l fs (members fs)
  | VArr l xs =>
      Harr l xs
        ((fix items (xs : list value) : Forall P xs :=
            match xs with
            | [] => Forall_nil _
            | x :: xs' => Forall_cons x (value_deep_ind x) (items xs')
            end) xs)
  | VObj l fs => Hobj l fs (members fs)
  end.
End ValueInd.

(** Nesting depth; the comparator recurses at most this deep. *)
Fixpoint height (v : value) : nat :=
  match v with
  | VFun _ fs => S (list_max (map (fun kv => height (snd kv)) fs))
  | VArr _ xs => S (list_max (map height xs))
  | VObj _ fs => S (list_max (map (fun kv => height (snd kv)) fs))
  | _ => 0
  end.

(** [typeof v] *)
Inductive jstype : Type :=
| TUndefined | TObject | TBoolean | TNumber | TString | TFunction.

Definition jstype_eqb (s t : jstype) : bool :=
  match s, t with
  | TUndefined, TUndefined | TObject, TObject | TBoolean, TBoolean
  | TNumber, TNumber | TString, TString | TFunction, TFunction => true
  | _, _ => false
  end.

Definition typeof (v : value) : jstype :=
  match v with
  | VUndefined => TUndefined
  | VNull => TObject
  | VBool _ => TBoolean
  | VNum _ => TNumber
  | VStr _ => TString
  | VFun _ _ => TFunction
  | VArr _ _ => TObject
  | VObj _ _ => TObject
  end.

(** ToBoolean *)
Definition truthy (v : value) : bool :=
  match v with
  | VUndefined | VNull => false
  | VBool b => b
  | VNum (Int z) => negb (z =? 0)%Z
  | VNum (Inf _) => true
  | VNum NaN => false
  | VStr s => negb (s =? "")
  | VFun _ _ | VArr _ _ | VObj _ _ => true
  end.

Definition number_eqb (m n : number) : bool :=
  match m, n with
  | Int x, Int y => (x =? y)%Z
  | Inf s, Inf t => Bool.eqb s t
  | _, _ => false
  end.

(** [a === b]: primitives by value, everything allocated by address. *)
Definition strict_eq (a b : value) : bool :=
  match a, b with
  | VUndefined, VUndefined => true
  | VNull, VNull => true
  | VBool x, VBool y => Bool.eqb x y
  | VNum m, VNum n => number_eqb m n
  | VStr s, VStr t => (s =? t)
  | VFun l _, VFun l' _ => (l =? l')%nat
  | VArr l _, VArr l' _ => (l =? l')%nat
  | VObj l _, VObj l' _ => (l =? l')%nat
  | _, _ => false
  end.

(** [Array.isArray] *)
Definition isArray (v : value) : bool :=
  match v with VArr _ _ => true | _ => false end.

(** Own-member lookup in the member list of an object. *)
Fixpoint lookup (k : string) (fs : list (string * value)) : option value :=
  match fs with
  | [] => None
  | (k', v) :: fs' => if k' =? k then Some v else lookup k fs'
  end.

Definition has_key (k : string) (fs : list (string * value)) : bool :=
  match lookup k fs with Some _ => true | None => false end.

Definition keys (fs : list (string * value)) : list string := map fst fs.

(** [v.k] for a [v] that is neither [null] nor [undefined].  Only the members
    the wrapper reads ([type], [props], [children], [parent], [instance], ...)
    are looked up; primitives and arrays have none of them. *)
Definition get (v : value) (k : string) : value :=
  match v with
  | VObj _ fs | VFun _ fs =>
      match lookup k fs with Some x => x | None => VUndefined end
  | _ => VUndefined
  end.

(** ** Exceptions *)

(** The exceptions the modelled code raises.  The first three are the kinds
    of the error taxonomy; [message] gives the text the source builds.  The
    text of a [RuntimeTypeError] is the engine's own and only tells the
    failing reads apart. *)
Inductive exn : Type :=
| SingleNodeRequiredError (fnName : string) (found : nat)
    (* single: new Error(`Method “fnName” is only meant ...`) *)
| RootRequiredError (method : string)
    (* new Error('ReactWrapper::method() can only be called on the root') *)
| InvalidArgumentError (msg : string)
    (* an explicit  throw new TypeError(msg)  on a bad argument *)
| PlainError (msg : string)
    (* any other explicit  throw new Error(msg) *)
| InvalidSelectorError (msg : string)
    (* raised by the selector compiler *)
| RuntimeTypeError (msg : string)
    (* raised by the engine: member read on null/undefined, call of a
       non-function *)
| ForeignCall (callee : value).
    (* no exception of the program: it calls [callee] here, a method that
       a data value brought along and whose body is not in the sources;
       what the call does is not modelled, the model ends with it *)

Definition string_of_nat (n : nat) : string :=
  NilZero.string_of_uint (Nat.to_uint n).

Definition message (e : exn) : string :=
  match e with
  | SingleNodeRequiredError fnName found =>
      "Method “" ++ fnName ++ "” is only meant to be run on a single node. "
        ++ string_of_nat found ++ " found instead."
  | RootRequiredError method =>
      "ReactWrapper::" ++ method ++ "() can only be called on the root"
  | InvalidArgumentError msg => msg
  | PlainError msg => msg
  | InvalidSelectorError msg => msg
  | RuntimeTypeError msg => msg
  | ForeignCall _ => ""
  end.

Inductive result (A : Type) : Type :=
| Ok (a : A)
| Throw (e : exn).
Arguments Ok {A} a.
Arguments Throw {A} e.

Definition bind {A B : Type} (r : result A) (k : A -> result B) : result B :=
  match r with
  | Ok a => k a
  | Throw e => Throw e
  end.

Notation "x <- r ;; k" := (bind r (fun x => k))
  (at level 61, r at next level, right associativity).

(** [v.k] in general: reading a member of [null] or [undefined] throws. *)
Definition getprop (v : value) (k : string) : result value :=
  match v with
  | VUndefined => Throw (RuntimeTypeError ("Cannot read property '" ++ k ++ "' of undefined"))
  | VNull => Throw (RuntimeTypeError ("Cannot read property '" ++ k ++ "' of null"))
  | _ => Ok (get v k)
  end.

(** ** Traversal (RSTTraversal.js) *)

(** A visitor acts on the caller's state and may throw. *)
Definition callback (St : Type) : Type := value -> St -> St * result unit.

(** [xs.forEach(f)]: the elements in order, up to the first exception.  The
    outer [option] is [None] when the recursion budget of [f] ran out. *)
Fixpoint forEach {St : Type} (f : value -> St -> option (St * result unit))
    (xs : list value) (s : St) : option (St * result unit) :=
  match xs with
  | [] => Some (s, Ok tt)
  | x :: xs' =>
      match f x s with
      | Some (s', Ok _) => forEach f xs' s'
      | r => r
      end
  end.

(** The test that guards the visit in [treeForEach]. *)
Definition visitable (tree : value) : bool :=
  negb (strict_eq tree VNull) && negb (strict_eq tree (VBool false))
    && negb (jstype_eqb (typeof tree) TUndefined).

(** [treeForEach(tree, fn)].  The visit is guarded; the read of
    [tree.children] and the call of its [forEach] are not.  On an array
    [forEach] is the built-in one; any other value has a [forEach] only if
    it carries one itself. *)
Fixpoint treeForEach_fuel {St : Type} (fuel : nat) (tree : value)
    (fn : callback St) (s : St) : option (St * result unit) :=
  match fuel with
  | O => None
  | S fuel' =>
      match (if visitable tree then fn tree s else (s, Ok tt)) with
      | (s1, Throw e) => Some (s1, Throw e)
      | (s1, Ok _) =>
          match getprop tree "children" with
          | Throw e => Some (s1, Throw e)
          | Ok (VArr _ xs) =>
              forEach (fun node s' => treeForEach_fuel fuel' node fn s') xs s1
          | Ok VUndefined =>
              Some (s1, Throw (RuntimeTypeError "Cannot read property 'forEach' of undefined"))
          | Ok VNull =>
              Some (s1, Throw (RuntimeTypeError "Cannot read property 'forEach' of null"))
          | Ok children =>
              let forEach := get children "forEach" in
              if jstype_eqb (typeof forEach) TFunction
              then Some (s1, Throw (ForeignCall forEach))
              else Some (s1, Throw (RuntimeTypeError
                                      "tree.children.forEach is not a function"))
          end
      end
  end.

(** The recursion follows [children], so [height tree] levels are enough
    ([treeForEach_fuel_enough] below). *)
Definition treeForEach {St : Type} (tree : value) (fn : callback St) (s : St)
  : St * result unit :=
  match treeForEach_fuel (S (height tree)) tree fn s with
  | Some r => r
  | None => (s, Ok tt)
  end.

(** [treeFilter(tree, fn)]: the visitor pushes the nodes [fn] accepts. *)
Definition collect (fn : value -> result bool) : callback (list value) :=
  fun node results =>
    match fn node with
    | Ok true => ((results ++ [node])%list, Ok tt)
    | Ok false => (results, Ok tt)
    | Throw e => (results, Throw e)
    end.

Definition treeFilter (tree : value) (fn : value -> result bool)
  : result (list value) :=
  match treeForEach tree (collect fn) [] with
  | (results, Ok _) => Ok results
  | (_, Throw e) => Throw e
  end.

(** ** Structural comparator (contains/index.js, common/index.js) *)

(** The members of [Object.prototype], which every plain object inherits,
    each at an address of its own; [__proto__] reads as the prototype
    object itself. *)
Definition object_prototype : list (string * value) :=
  [("constructor", VFun 900 []); ("__defineGetter__", VFun 901 []);
   ("__defineSetter__", VFun 902 []); ("hasOwnProperty", VFun 903 []);
   ("__lookupGetter__", VFun 904 []); ("__lookupSetter__", VFun 905 []);
   ("isPrototypeOf", VFun 906 []); ("propertyIsEnumerable", VFun 907 []);
   ("toString", VFun 908 []); ("valueOf", VFun 909 []);
   ("__proto__", VObj 910 []); ("toLocaleString", VFun 911 [])].

(** A member name that a plain object has only if it holds it itself. *)
Definition own_name (k : string) : bool := negb (has_key k object_prototype).

(** [k in o] and [o[k]] for a plain object [o] with the own members [fs]. *)
Definition has_member (k : string) (fs : list (string * value)) : bool :=
  has_key k fs || has_key k object_prototype.

Definition member (k : string) (fs : list (string * value)) : value :=
  match lookup k fs with
  | Some x => x
  | None =>
      match lookup k object_prototype with
      | Some x => x
      | None => VUndefined
      end
  end.

(** The elements of an array or the characters of a string under their
    indices. *)
Definition indexed_entries (xs : list value) : list (string * value) :=
  combine (map string_of_nat (seq 0 (List.length xs))) xs.

(** [Object.entries]: the own enumerable members.  Of a function these are
    the members it was given, not its [length], [name] and [prototype]. *)
Definition entries (o : value) : list (string * value) :=
  match o with
  | VObj _ fs => fs
  | VFun _ fs =>
      filter (fun kv => negb ((fst kv =? "length") || (fst kv =? "name")
                              || (fst kv =? "prototype"))) fs
  | VArr _ xs => indexed_entries xs
  | VStr s =>
      indexed_entries (map (fun c => VStr (String c "")) (list_ascii_of_string s))
  | _ => []
  end.

Definition is_undefined (v : value) : bool := jstype_eqb (typeof v) TUndefined.

(** [v == null] *)
Definition is_nullish (v : value) : bool :=
  match v with VUndefined | VNull => true | _ => false end.

(** [propsOfNode(node)]: the members of [(node && node.props) || {}] whose
    value is not [undefined], assigned one by one to a fresh plain object.
    An entry named [__proto__] is assigned through the setter every object
    inherits and leaves no member; the change of prototype it can cause is
    not followed. *)
Definition propsOfNode (node : value) : list (string * value) :=
  let p := if truthy node then get node "props" else node in
  let o := if truthy p then entries p else [] in
  filter (fun kv => negb (is_undefined (snd kv)) && negb (fst kv =? "__proto__")) o.

(** [entries(props).reduce(removeNullaryReducer, {})] *)
Definition removeNullary (props : list (string * value)) : list (string * value) :=
  filter (fun kv => negb (is_nullish (snd kv))) props.

Definition number_sameValueZero (m n : number) : bool :=
  match m, n with
  | Int x, Int y => (x =? y)%Z
  | Inf s, Inf t => Bool.eqb s t
  | NaN, NaN => true
  | _, _ => false
  end.

(** lodash [isEqual]: deep equality of plain data; functions by identity. *)
Fixpoint isEqual (a b : value) : bool :=
  match a, b with
  | VUndefined, VUndefined => true
  | VNull, VNull => true
  | VBool x, VBool y => Bool.eqb x y
  | VNum m, VNum n => number_sameValueZero m n
  | VStr s, VStr t => (s =? t)
  | VFun l _, VFun l' _ => (l =? l')%nat
  | VArr l xs, VArr l' ys =>
      (l =? l')%nat ||
      (fix items (xs ys : list value) : bool :=
         match xs, ys with
         | [], [] => true
         | x :: xs', y :: ys' => isEqual x y && items xs' ys'
         | _, _ => false
         end) xs ys
  | VObj l fs, VObj l' gs =>
      (l =? l')%nat ||
      ((List.length fs =? List.length gs)%nat &&
       (fix members (fs : list (string * value)) : bool :=
          match fs with
          | [] => true
          | kv :: fs' =>
              match lookup (fst kv) gs with
              | Some w => isEqual (snd kv) w
              | None => false
              end && members fs'
          end) fs)
  | _, _ => false
  end.

Definition isTextualNode (node : value) : bool :=
  match node with
  | VStr _ | VNum _ => true
  | _ => false
  end.

(** The elements [push] drops in [childrenToArray]. *)
Definition is_nothing (el : value) : bool :=
  strict_eq el VNull || strict_eq el (VBool false) || is_undefined el.

Definition childrenToArray (children : value) : list value :=
  match children with
  | VArr _ xs => filter (fun el => negb (is_nothing el)) xs
  | _ => if is_nothing children then [] else [children]
  end.

(** Rounding of an integer to the nearest double, ties to the even
    significand: the bits below the 53 leading ones are dropped. *)
Definition round_double (z : Z) : Z :=
  let a := Z.abs z in
  let e := (Z.log2 a - 52)%Z in
  if (e <=? 0)%Z then z
  else
    let q := Z.shiftr a e in
    let r := Z.land a (Z.ones e) in
    let half := Z.shiftl 1 (e - 1) in
    let q' := if (half <? r)%Z || ((r =? half)%Z && Z.odd q) then (q + 1)%Z else q in
    (Z.sgn z * Z.shiftl q' e)%Z.

(** The double nearest to an integer; from [2^1024] on, after rounding, it
    is an infinity. *)
Definition number_of_Z (z : Z) : number :=
  let r := round_double z in
  if (2 ^ 1024 <=? Z.abs r)%Z then Inf (r <? 0)%Z else Int r.

(** [m + n] on numbers. *)
Definition number_add (m n : number) : number :=
  match m, n with
  | Int x, Int y => number_of_Z (x + y)
  | Inf s, Inf t => if Bool.eqb s t then Inf s else NaN
  | Inf s, Int _ | Int _, Inf s => Inf s
  | _, _ => NaN
  end.

Definition decimal (z : Z) : string := NilZero.string_of_int (Z.to_int z).

(** The decimal with the fewest significant digits that still rounds to
    the double [v]: tried with [j] trailing zeros, then with fewer; of two
    candidates the one nearer to [v]. *)
Fixpoint shortest_decimal (j : nat) (v : Z) : Z :=
  let p := (10 ^ Z.of_nat j)%Z in
  let below := (v / p * p)%Z in
  let above := (below + p)%Z in
  let rounds_to_v c := (round_double c =? v)%Z in
  if rounds_to_v below && rounds_to_v above
  then (if (v - below <=? above - v)%Z then below else above)
  else if rounds_to_v below then below
  else if rounds_to_v above then above
  else match j with
       | O => v
       | S j' => shortest_decimal j' v
       end.

Fixpoint strip_zeros (digits : string) : string :=
  match digits with
  | EmptyString => EmptyString
  | String c rest =>
      match strip_zeros rest with
      | EmptyString => if Ascii.eqb c "0" then EmptyString else String c EmptyString
      | kept => String c kept
      end
  end.

(** [d.ddde+x], the form from [1e21] on. *)
Definition exponential (digits : string) : string :=
  match strip_zeros digits with
  | EmptyString => "0"
  | String d EmptyString =>
      String d ("e+" ++ string_of_nat (String.length digits - 1))
  | String d rest =>
      String d ("." ++ rest ++ "e+" ++ string_of_nat (String.length digits - 1))
  end.

(** [String(n)]: the shortest digits that identify the double, written
    out in full below [1e21]. *)
Definition number_to_string (n : number) : string :=
  match n with
  | Int z =>
      let a := Z.abs z in
      let c := if (a <=? 2 ^ 53)%Z then a
               else shortest_decimal (String.length (decimal a) - 1) a in
      let body := if (c <? 10 ^ 21)%Z then decimal c else exponential (decimal c) in
      if (z <? 0)%Z then "-" ++ body else body
  | Inf negative => if negative then "-Infinity" else "Infinity"
  | NaN => "NaN"
  end.

(** [previousChild + child] on textual operands: numbers add, anything
    with a string concatenates. *)
Definition js_add (a b : value) : value :=
  match a, b with
  | VNum m, VNum n => VNum (number_add m n)
  | VStr s, VStr t => VStr (s ++ t)
  | VStr s, VNum n => VStr (s ++ number_to_string n)
  | VNum m, VStr t => VStr (number_to_string m ++ t)
  | _, _ => VUndefined
  end.

(** [arr.pop()] returns the last element, [undefined] on an empty array. *)
Definition pop (arr : list value) : value * list value :=
  match rev arr with
  | [] => (VUndefined, [])
  | x :: r => (x, rev r)
  end.

Definition push (arr : list value) (x : value) : list value := (arr ++ [x])%list.

(** One turn of the loop of [childrenToSimplifiedArray]. *)
Definition simplify_step (simplifiedArray : list value) (child : value)
  : list value :=
  let (previousChild, arr) := pop simplifiedArray in
  if is_undefined previousChild then push arr child
  else if isTextualNode child && isTextualNode previousChild
       then push arr (js_add previousChild child)
       else push (push arr previousChild) child.

Definition childrenToSimplifiedArray (nodeChildren : value) : list value :=
  fold_left simplify_step (childrenToArray nodeChildren) [].

(** [Object.is] on the key counts it is applied to. *)
Definition object_is (m n : Z) : bool := (m =? n)%Z.

(** The length comparator the wrapper passes for loose matching,
    [(a, b) => a <= b]. *)
Definition leq (m n : Z) : bool := (m <=? n)%Z.

(** The test on one prop inside the loop over [leftKeys]: identical
    values, or two objects that are deeply equal. *)
Definition valuesAgree (l r : value) : bool :=
  if strict_eq r l then true
  else if jstype_eqb (typeof r) (typeof l) && jstype_eqb (typeof l) TObject
       then isEqual l r
       else false.

(** The loop over [leftKeys] in [internalNodeCompare]; [left] and [right]
    are fresh plain objects, so [prop in right] and [right[prop]] also see
    what [right] inherits. *)
Definition propsCompare (left right : list (string * value)) : bool :=
  forallb
    (fun prop =>
       if prop =? "children" then true
       else if negb (has_member prop right) then false
       else valuesAgree (member prop left) (member prop right))
    (keys left).

(** The loop of [internalChildrenCompare]: element-wise, first failure
    ends it; an index past the end of [b] reads [undefined]. *)
Fixpoint everyPair (nodeCompare : value -> value -> option bool)
    (a b : list value) : option bool :=
  match a with
  | [] => Some true
  | x :: a' =>
      match nodeCompare x (hd VUndefined b) with
      | Some true => everyPair nodeCompare a' (tl b)
      | r => r
      end
  end.

(** [internalChildrenCompare(a, b, lenComp, isLoose)] at its only call
    site, where [a] and [b] are the two arrays just built by
    [childrenToSimplifiedArray]: distinct, both arrays, both truthy. *)
Definition internalChildrenCompare (nodeCompare : value -> value -> option bool)
    (a b : list value) : option bool :=
  if negb (List.length a =? List.length b)%nat then Some false
  else if (List.length a =? 0)%nat && (List.length b =? 0)%nat then Some true
  else everyPair nodeCompare a b.

Definition bool_to_Z (b : bool) : Z := if b then 1%Z else 0%Z.

(** [internalNodeCompare(a, b, lenComp, isLoose)]. *)
Fixpoint internalNodeCompare (fuel : nat) (a b : value)
    (lenComp : Z -> Z -> bool) (isLoose : bool) : option bool :=
  match fuel with
  | O => None
  | S fuel' =>
      if strict_eq a b then Some true
      else if negb (truthy a) || negb (truthy b) then Some false
      else if negb (strict_eq (get a "type") (get b "type")) then Some false
      else
        let left := propsOfNode a in
        let right := propsOfNode b in
        let left := if isLoose then removeNullary left else left in
        let right := if isLoose then removeNullary right else right in
        let leftKeys := keys left in
        if negb (propsCompare left right) then Some false
        else
          let leftHasChildren := has_key "children" left in
          let rightHasChildren := has_key "children" right in
          let children_of fs :=
            match lookup "children" fs with Some c => c | None => VUndefined end in
          match
            (if leftHasChildren || rightHasChildren
             then internalChildrenCompare
                    (fun x y => internalNodeCompare fuel' x y lenComp isLoose)
                    (childrenToSimplifiedArray (children_of left))
                    (childrenToSimplifiedArray (children_of right))
             else Some true)
          with
          | None => None
          | Some false => Some false
          | Some true =>
              if negb (isTextualNode a) then
                let rightKeys := keys right in
                Some (lenComp
                        (Z.of_nat (List.length leftKeys) - bool_to_Z leftHasChildren)%Z
                        (Z.of_nat (List.length rightKeys) - bool_to_Z rightHasChildren)%Z)
              else Some false
          end
  end.

(** Every recursive call is on an element of the simplified children of
    [a], so [height a] levels are enough ([internalNodeCompare_enough]). *)
Definition nodeCompare (a b : value) (lenComp : Z -> Z -> bool) (isLoose : bool)
  : bool :=
  match internalNodeCompare (S (height a)) a b lenComp isLoose with
  | Some r => r
  | None => false
  end.

Definition nodeEqual (a b : value) (lenComp : Z -> Z -> bool) : bool :=
  nodeCompare a b lenComp false.

Definition nodeMatches (a b : value) (lenComp : Z -> Z -> bool) : bool :=
  nodeCompare a b lenComp true.

(** ** The wrapper (ReactMountWrapper) *)

(** What the class imports from modules outside this development: the
    selector compiler ([./selectors]) and the test renderer that turns an
    element into an instance tree.  A compiled predicate is a function of
    one node whose result is read for truthiness. *)
Class Collaborators : Type := {
  buildPredicate : value -> result (value -> result bool);
  reduceTreesBySelector : value -> list value -> result (list value);
  elementToInstance : value -> result value
}.

(** The fields the constructor assigns.  [length] is assigned once, to
    [instances.length]. *)
Record Wrapper : Type := mkWrapper {
  instances : list value;
  rootRef : value;
  rootElement : value;
  renderer : value
}.

Definition wlength (w : Wrapper) : nat := List.length (instances w).

(** [this.rootNode]: no constructor or method assigns such a member. *)
Definition rootNode (w : Wrapper) : value := VUndefined.

(** [wrap(instances)]:
    [new ReactMountWrapper(instances, this.rootRef, this.rootNode, this.renderer)] *)
Definition wrap (w : Wrapper) (insts : list value) : Wrapper :=
  mkWrapper insts (rootRef w) (rootNode w) (renderer w).

(** [xs[i]] *)
Definition index (xs : list value) (i : Z) : value :=
  if (i <? 0)%Z then VUndefined else nth (Z.to_nat i) xs VUndefined.

Fixpoint mapM {A B : Type} (f : A -> result B) (xs : list A) : result (list B) :=
  match xs with
  | [] => Ok []
  | x :: xs' => y <- f x ;; ys <- mapM f xs' ;; Ok (y :: ys)
  end.

(** [xs.filter(p)] *)
Fixpoint array_filter {A : Type} (p : A -> result bool) (xs : list A)
  : result (list A) :=
  match xs with
  | [] => Ok []
  | x :: xs' =>
      keep <- p x ;; rest <- array_filter p xs' ;;
      Ok (if keep then x :: rest else rest)
  end.

(** [xs.every(p)] and [xs.some(p)] stop at the first deciding element. *)
Fixpoint array_every {A : Type} (p : A -> result bool) (xs : list A) : result bool :=
  match xs with
  | [] => Ok true
  | x :: xs' => b <- p x ;; if b then array_every p xs' else Ok false
  end.

Fixpoint array_some {A : Type} (p : A -> result bool) (xs : list A) : result bool :=
  match xs with
  | [] => Ok false
  | x :: xs' => b <- p x ;; if b then Ok true else array_some p xs'
  end.

(** [[...v]] *)
Definition spread (v : value) : result (list value) :=
  match v with
  | VArr _ xs => Ok xs
  | VStr s => Ok (map (fun c => VStr (String c "")) (list_ascii_of_string s))
  | _ => Throw (RuntimeTypeError "object is not iterable")
  end.

(** [collection.map(fn).reduce((existing, curr) => [...existing, ...curr], [])] *)
Definition flatMap {A : Type} (collection : list A) (fn : A -> result value)
  : result (list value) :=
  mapped <- mapM fn collection ;;
  fold_left
    (fun existing curr => e <- existing ;; c <- spread curr ;; Ok (e ++ c)%list)
    mapped (Ok []).

(** An array built on the spot; nothing observes its identity. *)
Definition fresh_array (xs : list value) : value := VArr 0 xs.

(** lodash [compact] *)
Definition compact (xs : list value) : list value := filter truthy xs.

Definition findWhereUnwrapped (insts : list value) (predicate : value -> result bool)
  : result (list value) :=
  flatMap insts (fun n => r <- treeFilter n predicate ;; Ok (fresh_array r)).

Definition filterWhereUnwrapped (insts : list value) (predicate : value -> result bool)
  : result (list value) :=
  kept <- array_filter predicate insts ;; Ok (compact kept).

(** [xs.slice(begin, end)]; [None] is an omitted argument. *)
Definition relative_index (len i : Z) : Z :=
  if (i <? 0)%Z then Z.max (len + i) 0 else Z.min i len.

Definition array_slice {A : Type} (xs : list A) (begin_ end_ : option Z) : list A :=
  let len := Z.of_nat (List.length xs) in
  let k := relative_index len (match begin_ with Some b => b | None => 0%Z end) in
  let final := relative_index len (match end_ with Some e => e | None => len end) in
  firstn (Z.to_nat (final - k)) (skipn (Z.to_nat k) xs).

(** [single(name, fn)], called with a string and a function throughout. *)
Definition single {A : Type} (w : Wrapper) (name : string) (fn : value -> result A)
  : result A :=
  if negb (wlength w =? 1)%nat
  then Throw (SingleNodeRequiredError name (wlength w))
  else fn (index (instances w) 0).

(** [isRoot()]: [first && first.parent.instance === this.rootRef]. *)
Definition isRoot (w : Wrapper) : result value :=
  let first := index (instances w) 0 in
  if truthy first then
    parent <- getprop first "parent" ;;
    inst <- getprop parent "instance" ;;
    Ok (VBool (strict_eq inst (rootRef w)))
  else Ok first.

Section Queries.
Context {ext : Collaborators}.

Definition at_ (w : Wrapper) (i : Z) : Wrapper :=
  wrap w [index (instances w) i].

Definition filter_ (w : Wrapper) (selector : value) : result Wrapper :=
  predicate <- buildPredicate selector ;;
  kept <- filterWhereUnwrapped (instances w) predicate ;;
  Ok (wrap w kept).

(** [not(selector)] returns what [filterWhereUnwrapped] returns. *)
Definition not_ (w : Wrapper) (selector : value) : result (list value) :=
  predicate <- buildPredicate selector ;;
  filterWhereUnwrapped (instances w) (fun n => b <- predicate n ;; Ok (negb b)).

Definition filterWhere (w : Wrapper) (predicate : Wrapper -> result bool)
  : result Wrapper :=
  kept <- array_filter predicate (map (fun i => wrap w [i]) (instances w)) ;;
  Ok (wrap w (fold_left (fun existing current => existing ++ instances current)%list
                kept [])).

Definition find (w : Wrapper) (selector : value) : result Wrapper :=
  found <- reduceTreesBySelector selector (instances w) ;;
  Ok (wrap w found).

Definition children (w : Wrapper) (selector : value) : result Wrapper :=
  all <- flatMap (instances w) (fun i => getprop i "children") ;;
  let childWrapper := wrap w all in
  if truthy selector then filter_ childWrapper selector else Ok childWrapper.

(** The local function [parentsOfInstance] of [parents]. *)
Fixpoint parentsOfInstance_fuel (fuel : nat) (root : value) (inst : value)
    (parents : list value) : option (result (list value)) :=
  match fuel with
  | O => None
  | S fuel' =>
      match getprop inst "parent" with
      | Throw e => Some (Throw e)
      | Ok parent =>
          if truthy parent && strict_eq (get parent "instance") root
          then Some (Ok parents)
          else parentsOfInstance_fuel fuel' root parent (parents ++ [parent])%list
      end
  end.

(** The walk follows [parent], and ends one step after it leaves the
    objects ([parentsOfInstance_enough]). *)
Definition parentsOfInstance (root : value) (inst : value) : result (list value) :=
  match parentsOfInstance_fuel (2 + height inst) root inst [] with
  | Some r => r
  | None => Ok []
  end.

Definition parents (w : Wrapper) (selector : value) : result Wrapper :=
  found <- single w "parents" (parentsOfInstance (rootRef w)) ;;
  let allParents := wrap w found in
  if truthy selector then filter_ allParents selector else Ok allParents.

Definition parent (w : Wrapper) : result Wrapper :=
  ps <- mapM (fun i => getprop i "parent") (instances w) ;;
  Ok (wrap w ps).

Definition slice (w : Wrapper) (begin_ end_ : option Z) : Wrapper :=
  wrap w (array_slice (instances w) begin_ end_).

(** What a method call hands back: a wrapper object or a bare array. *)
Inductive returned : Type :=
| RWrapper (w : Wrapper)
| RArray (xs : list value).

(** The query methods, with their arguments. *)
Inductive query : Type :=
| QFilter (selector : value)
| QNot (selector : value)
| QFilterWhere (predicate : Wrapper -> result bool)
| QFind (selector : value)
| QChildren (selector : value)
| QParents (selector : value)
| QParent
| QSlice (begin_ end_ : option Z)
| QAt (i : Z).

Definition call_query (w : Wrapper) (q : query) : result returned :=
  match q with
  | QFilter s => r <- filter_ w s ;; Ok (RWrapper r)
  | QNot s => r <- not_ w s ;; Ok (RArray r)
  | QFilterWhere p => r <- filterWhere w p ;; Ok (RWrapper r)
  | QFind s => r <- find w s ;; Ok (RWrapper r)
  | QChildren s => r <- children w s ;; Ok (RWrapper r)
  | QParents s => r <- parents w s ;; Ok (RWrapper r)
  | QParent => r <- parent w ;; Ok (RWrapper r)
  | QSlice b e => Ok (RWrapper (slice w b e))
  | QAt i => Ok (RWrapper (at_ w i))
  end.

(** *** Element containment *)

(** [v[i]] *)
Definition getindex (v : value) (i : nat) : result value :=
  match v with
  | VUndefined => Throw (RuntimeTypeError "Cannot read property '0' of undefined")
  | VNull => Throw (RuntimeTypeError "Cannot read property '0' of null")
  | VArr _ xs => Ok (nth i xs VUndefined)
  | VStr s =>
      Ok (match String.get i s with Some c => VStr (String c "") | None => VUndefined end)
  | _ => Ok VUndefined
  end.

Definition containsMatchingElement (w : Wrapper) (node : value) : result bool :=
  argInstance <- elementToInstance node ;;
  let predicate := fun other =>
    cs <- getprop argInstance "children" ;;
    c0 <- getindex cs 0 ;;
    Ok (nodeMatches c0 other leq) in
  found <- findWhereUnwrapped (instances w) predicate ;;
  Ok (0 <? List.length found)%nat.

(** [Array.isArray(nodes)] holds exactly in the [VArr] case. *)
Definition containsAllMatchingElements (w : Wrapper) (nodes : value) : result bool :=
  match nodes with
  | VArr _ xs => array_every (containsMatchingElement w) xs
  | _ => Throw (InvalidArgumentError "nodes should be an Array")
  end.

(** [Array.isArray(nodes) && nodes.some(...)] *)
Definition containsAnyMatchingElements (w : Wrapper) (nodes : value) : result bool :=
  match nodes with
  | VArr _ xs => array_some (containsMatchingElement w) xs
  | _ => Ok false
  end.
End Queries.

(** *** Single-node accessors *)

Definition props (w : Wrapper) : result value :=
  single w "props" (fun inst => getprop inst "props").

(** [prop(propName)]: [this.props()[propName]] *)
Definition prop (w : Wrapper) (propName : string) : result value :=
  ps <- props w ;; getprop ps propName.

Definition instance (w : Wrapper) : result value :=
  single w "instance" (fun inst => getprop inst "instance").

Definition type (w : Wrapper) : result value :=
  single w "type" (fun inst => getprop inst "type").

Definition key (w : Wrapper) : result value :=
  single w "key" (fun inst =>
    fiber <- getprop inst "_fiber" ;;
    k <- getprop fiber "key" ;;
    Ok (if strict_eq k VUndefined then VNull else k)).

(** [type.displayName || type.name || type] *)
Definition name (w : Wrapper) : result value :=
  single w "name" (fun inst =>
    ty <- getprop inst "type" ;;
    d <- getprop ty "displayName" ;;
    if truthy d then Ok d
    else n <- getprop ty "name" ;; if truthy n then Ok n else Ok ty).

(** [state(name)] and [context(name)]; [None] is an omitted [name]. *)
Definition state (w : Wrapper) (name : option string) : result value :=
  root <- isRoot w ;;
  if negb (truthy root) then Throw (RootRequiredError "state")
  else
    _state <- single w "state" (fun inst =>
                i <- getprop inst "instance" ;; getprop i "state") ;;
    match name with
    | Some n => getprop _state n
    | None => Ok _state
    end.

Definition context (w : Wrapper) (name : option string) : result value :=
  root <- isRoot w ;;
  if negb (truthy root) then Throw (RootRequiredError "context")
  else
    rootInstance <- single w "context" (fun inst => getprop inst "instance") ;;
    if strict_eq rootInstance VNull
    then Throw (PlainError "ReactWrapper::context() can only be called on components with instances")
    else
      _context <- getprop rootInstance "context" ;;
      match name with
      | Some n => getprop _context n
      | None => Ok _context
      end.

(** The single-node accessors, with their arguments. *)
Inductive accessor : Type :=
| AProps
| AProp (propName : string)
| AState (name : option string)
| AContext (name : option string)
| AInstance
| AType
| AKey
| AName.

Definition call_accessor (w : Wrapper) (acc : accessor) : result value :=
  match acc with
  | AProps => props w
  | AProp p => prop w p
  | AState n => state w n
  | AContext n => context w n
  | AInstance => instance w
  | AType => type w
  | AKey => key w
  | AName => name w
  end.

(** The method name an accessor is invoked under. *)
Definition accessor_name (acc : accessor) : string :=
  match acc with
  | AProps => "props"
  | AProp _ => "prop"
  | AState _ => "state"
  | AContext _ => "context"
  | AInstance => "instance"
  | AType => "type"
  | AKey => "key"
  | AName => "name"
  end.

(** The name it hands to [single]: [prop] goes through [props()]. *)
Definition reported_name (acc : accessor) : string :=
  match acc with
  | AProp _ => "props"
  | _ => accessor_name acc
  end.

(** [state] and [context] test [isRoot()] before anything else. *)
Definition root_guarded (acc : accessor) : bool :=
  match acc with
  | AState _ | AContext _ => true
  | _ => false
  end.

(** The call ended in the exception [single] raises. *)
Definition throws_single {A : Type} (r : result A) : Prop :=
  exists fnName found, r = Throw (SingleNodeRequiredError fnName found).

(** *** Root-only mutators and lifecycle *)

(** Calls that leave the class: on the renderer, on [rootRef], on the
    component instance. *)
Inductive effect : Type :=
| SetChildProps (props context callback : value)
| InstanceSetState (inst state callback : value)
| CallbackCall (callback : value).

Definition noop : value := VFun 0 [].

Definition empty_object : value := VObj 0 [].

(** A parameter with default [noop]. *)
Definition default_noop (callback : value) : value :=
  if is_undefined callback then noop else callback.

(** [target.method] has to be callable for [target.method(...)]. *)
Definition method_of (target : value) (method : string) : result value :=
  f <- getprop target method ;;
  if jstype_eqb (typeof f) TFunction then Ok f
  else Throw (RuntimeTypeError (method ++ " is not a function")).

Definition setProps (w : Wrapper) (props callback : value)
  : result (effect * Wrapper) :=
  let callback := default_noop callback in
  root <- isRoot w ;;
  if negb (truthy root) then Throw (RootRequiredError "setProps")
  else if negb (jstype_eqb (typeof callback) TFunction)
  then Throw (InvalidArgumentError
                "ReactWrapper::setProps() expects a function as its second argument")
  else
    _ <- method_of (rootRef w) "setChildProps" ;;
    Ok (SetChildProps props empty_object callback, w).

Definition setState (w : Wrapper) (state callback : value)
  : result (effect * Wrapper) :=
  let callback := default_noop callback in
  root <- isRoot w ;;
  if negb (truthy root) then Throw (RootRequiredError "setState")
  else if negb (jstype_eqb (typeof callback) TFunction)
  then Throw (InvalidArgumentError
                "ReactWrapper::setState() expects a function as its second argument")
  else
    inst <- instance w ;;
    _ <- method_of inst "setState" ;;
    Ok (InstanceSetState inst state callback, w).

Definition setContext (w : Wrapper) (context : value)
  : result (effect * Wrapper) :=
  root <- isRoot w ;;
  if negb (truthy root) then Throw (RootRequiredError "setContext")
  else
    p <- getprop (index (instances w) 0) "parent" ;;
    ps <- getprop p "props" ;;
    c <- getprop ps "context" ;;
    if negb (truthy c)
    then Throw (PlainError "ShallowWrapper::setContext() can only be called on a wrapper that was originally passed a context option")
    else
      _ <- method_of (rootRef w) "setChildProps" ;;
      Ok (SetChildProps empty_object context VUndefined, w).

(** The three mutators, with their arguments. *)
Inductive mutator : Type :=
| MSetProps (props callback : value)
| MSetState (state callback : value)
| MSetContext (context : value).

Definition mutator_name (m : mutator) : string :=
  match m with
  | MSetProps _ _ => "setProps"
  | MSetState _ _ => "setState"
  | MSetContext _ => "setContext"
  end.

Definition call_mutator (w : Wrapper) (m : mutator) : result (effect * Wrapper) :=
  match m with
  | MSetProps p cb => setProps w p cb
  | MSetState s cb => setState w s cb
  | MSetContext c => setContext w c
  end.

(** *** The mount renderer (adapter) *)

(** What the adapter imports from outside the sources:
    [createMountWrapper] of enzyme-adapter-utils, [React.createElement]
    and [ReactDOM.render]. *)
Class React : Type := {
  createMountWrapper : value -> value -> result value;
  createElement : value -> list (string * value) -> result value;
  ReactDOM_render : value -> value -> result value
}.

(** The variables the object returned by [createMountRenderer(options)]
    closes over.  [renderer_instance] is its [instance]: [null] until the
    first [render] and after [unmount], the mounted root from then on. *)
Record MountRenderer : Type := mkMountRenderer {
  renderer_options : value;
  renderer_domNode : value;
  renderer_instance : value
}.

Section Adapter.
Context {react : React}.

(** [createWrappedElement(el, context, options)] *)
Definition createWrappedElement (el context options : value) : result value :=
  ReactWrapperComponent <- createMountWrapper el options ;;
  ty <- getprop el "type" ;;
  ps <- getprop el "props" ;;
  createElement ReactWrapperComponent
    [("Component", ty); ("props", ps); ("context", context)].

(** [render(el, context, callback)] of the renderer: the calls it makes,
    the renderer afterwards, and the instance it returns. *)
Definition renderer_render (r : MountRenderer) (el context callback : value)
  : result (list effect * MountRenderer * value) :=
  if strict_eq (renderer_instance r) VNull then
    wrappedEl <- createWrappedElement el context (renderer_options r) ;;
    inst <- ReactDOM_render wrappedEl (renderer_domNode r) ;;
    Ok (if jstype_eqb (typeof callback) TFunction then [CallbackCall callback] else [],
        mkMountRenderer (renderer_options r) (renderer_domNode r) inst,
        inst)
  else
    setChildProps <- getprop (renderer_instance r) "setChildProps" ;;
    ps <- getprop el "props" ;;
    if jstype_eqb (typeof setChildProps) TFunction
    then Ok ([SetChildProps ps context callback], r, renderer_instance r)
    else Throw (RuntimeTypeError "instance.setChildProps is not a function").

(** [mount()]: [this.renderer.render(this.rootElement, {})] on the root;
    [r] is the state of the renderer the wrapper holds. *)
Definition mount (w : Wrapper) (r : MountRenderer)
  : result (list effect * MountRenderer * Wrapper) :=
  root <- isRoot w ;;
  if negb (truthy root) then Throw (RootRequiredError "mount")
  else
    _ <- method_of (renderer w) "render" ;;
    rendered <- renderer_render r (rootElement w) empty_object VUndefined ;;
    Ok (fst (fst rendered), snd (fst rendered), w).
End Adapter.

(** ** Well-formed inputs *)

Fixpoint nodupb (ks : list string) : bool :=
  match ks with
  | [] => true
  | k :: ks' => negb (existsb (String.eqb k) ks') && nodupb ks'
  end.

(** Representation invariant of objects: every member name occurs once. *)
Fixpoint wf (v : value) : bool :=
  match v with
  | VFun _ fs => nodupb (map fst fs) && forallb (fun kv => wf (snd kv)) fs
  | VObj _ fs => nodupb (map fst fs) && forallb (fun kv => wf (snd kv)) fs
  | VArr _ xs => forallb wf xs
  | _ => true
  end.

(** Trees in which every node is an object with a [children] array. *)
Fixpoint branching (tree : value) : bool :=
  match tree with
  | VObj _ fs =>
      nodupb (map fst fs) && has_key "children" fs &&
      forallb (fun kv => if fst kv =? "children"
                         then match snd kv with
                              | VArr _ xs => forallb branching xs
                              | _ => false
                              end
                         else true) fs
  | _ => false
  end.

(** The nodes of such a tree, each one before its children, the children
    from left to right. *)
Fixpoint preorder (tree : value) : list value :=
  tree ::
  match tree with
  | VObj _ fs =>
      flat_map (fun kv => if fst kv =? "children"
                          then match snd kv with
                               | VArr _ xs => flat_map preorder xs
                               | _ => []
                               end
                          else []) fs
  | _ => []
  end.

(** Where a value sits when the comparator reaches it. *)
Inductive position : Type :=
| AsNode       (* a comparand *)
| AsProps      (* the [props] member of a comparand *)
| AsChildren   (* the [children] member of its props *)
| AsChild.     (* an element of a [children] array *)

Definition has_type (fs : list (string * value)) : bool :=
  match lookup "type" fs with
  | Some t => negb (is_undefined t)
  | None => false
  end.

(** Nodes of the data model, as the comparator reads them: a text or number
    leaf, or an object that carries a [type] and whose [props], if it has
    any, is an object with member names of its own only, its [children]
    holding nodes only, next to the [null], [false] and [undefined] that
    [childrenToArray] drops.  A child that is [true], a function, a nested
    array or an object without a type is not a node; nor is an object whose
    [props] is an array, a string or a function, or names a member that
    every object inherits ([toString], [constructor], ...). *)
Fixpoint shaped (pos : position) (v : value) : bool :=
  match v with
  | VStr _ => match pos with AsProps => false | _ => true end
  | VNum _ => true
  | VObj _ fs =>
      match pos with
      | AsProps =>
          forallb (fun kv => own_name (fst kv) &&
                             if fst kv =? "children"
                             then shaped AsChildren (snd kv) else true) fs
      | _ =>
          has_type fs &&
          forallb (fun kv => if fst kv =? "props"
                             then shaped AsProps (snd kv) else true) fs
      end
  | VArr _ xs =>
      match pos with
      | AsChildren => forallb (shaped AsChild) xs
      | _ => false
      end
  | VUndefined | VNull | VBool false =>
      match pos with AsNode => false | _ => true end
  | VBool true =>
      match pos with AsProps => true | _ => false end
  | VFun _ _ => false
  end.

Definition is_node (v : value) : bool := wf v && shaped AsNode v.

(** The props the loop over [leftKeys] looks at. *)
Definition nonChildren (fs : list (string * value)) : list (string * value) :=
  filter (fun kv => negb (fst kv =? "children")) fs.

(** Order-preserving subsequence. *)
Inductive Subseq {A : Type} : list A -> list A -> Prop :=
| Subseq_nil : Subseq [] []
| Subseq_keep x l1 l2 : Subseq l1 l2 -> Subseq (x :: l1) (x :: l2)
| Subseq_drop x l1 l2 : Subseq l1 l2 -> Subseq l1 (x :: l2).

(** What [childrenToArray] keeps. *)
Definition kept (el : value) : bool := negb (is_nothing el).

Definition adjacent_ok (x y : value) : bool :=
  negb (isTextualNode x && isTextualNode y).

(** No two neighbours of the sequence are both textual. *)
Fixpoint no_adjacent_text (xs : list value) : bool :=
  match xs with
  | x :: xs' =>
      match xs' with
      | y :: _ => negb (isTextualNode x && isTextualNode y)
      | [] => true
      end && no_adjacent_text xs'
  | [] => true
  end.

(** ** Sample inputs *)

(** A host element [<tag {...props}/>] allocated at [l]. *)
Definition element (l : loc) (tag : string) (ps : list (string * value)) : value :=
  VObj l [("type", VStr tag); ("props", VObj (S l) ps)].

(** [<div>{true}</div>] and [<div>text</div>] *)
Definition div_true : value := element 10 "div" [("children", VBool true)].
Definition div_text : value := element 20 "div" [("children", VStr "text")].

(** [<div><h1/>{[<li/>]}</div>] and [<div><h1/>text</div>] *)
Definition div_nested : value :=
  element 70 "div"
    [("children", VArr 72 [element 74 "h1" []; VArr 76 [element 78 "li" []]])].
Definition div_heading_text : value :=
  element 80 "div" [("children", VArr 82 [element 84 "h1" []; VStr "text"])].

(** [<div/>] and [<div title="x"/>] *)
Definition div_plain : value := element 30 "div" [].
Definition div_titled : value := element 40 "div" [("title", VStr "x")].

(** [<ul><li>a</li>{"b"}{1}</ul>] and a second rendering of it *)
Definition list_one : value :=
  element 50 "ul"
    [("children", VArr 52 [element 54 "li" [("children", VStr "a")]; VStr "b"; VNum (Int 1)])].
Definition list_two : value :=
  element 60 "ul"
    [("children", VArr 62 [element 64 "li" [("children", VStr "a")]; VStr "b1"])].

(** A mounted tree: the root component instance [root_ref], the instance
    of the wrapping component above the tree, a rendered [div] whose only
    child is the text [hi]. *)
Definition root_ref : value := VObj 1 [("setChildProps", VFun 2 [])].
Definition top_instance : value :=
  VObj 3 [("instance", root_ref); ("props", VObj 4 []); ("parent", VNull)].
Definition div_instance : value :=
  VObj 5 [("type", VStr "div"); ("props", VObj 6 [("children", VStr "hi")]);
          ("children", VArr 7 [VStr "hi"]); ("parent", top_instance);
          ("instance", VNull)].
Definition span_instance : value :=
  VObj 8 [("type", VStr "span"); ("props", VObj 9 []);
          ("children", VArr 11 []); ("parent", div_instance);
          ("instance", VNull)].
Definition sample_renderer : value := VObj 12 [("render", VFun 13 [])].
Definition sample_element : value := element 14 "div" [("children", VStr "hi")].

(** The wrapper [mount(<div>hi</div>)] returns, and wrappers over its
    text child, over the instance above it, over nothing, and over two
    nodes. *)
Definition root_wrapper : Wrapper :=
  mkWrapper [div_instance] root_ref sample_element sample_renderer.
Definition text_wrapper : Wrapper :=
  mkWrapper [VStr "hi"] root_ref VUndefined sample_renderer.
Definition top_wrapper : Wrapper :=
  mkWrapper [top_instance] root_ref VUndefined sample_renderer.
Definition empty_wrapper : Wrapper :=
  mkWrapper [] root_ref VUndefined sample_renderer.
Definition pair_wrapper : Wrapper :=
  mkWrapper [div_instance; span_instance] root_ref VUndefined sample_renderer.
Definition inner_wrapper : Wrapper :=
  mkWrapper [span_instance] root_ref VUndefined sample_renderer.

(** Modelled from the spec: the selector compiler and the element renderer,
    which are not part of the sources at hand.  A string selector is taken
    as a bare host tag and matches the nodes of that type, any other
    selector is rejected; descendant search applies [treeFilter] with the
    compiled predicate to every node; a host element renders to itself under
    a transient root. *)
Definition sample_collaborators : Collaborators := {|
  buildPredicate selector :=
    match selector with
    | VStr tag => Ok (fun node => Ok (strict_eq (get node "type") (VStr tag)))
    | _ => Throw (InvalidSelectorError "selector is not supported")
    end;
  reduceTreesBySelector selector insts :=
    match selector with
    | VStr tag =>
        findWhereUnwrapped insts (fun node => Ok (strict_eq (get node "type") (VStr tag)))
    | _ => Throw (InvalidSelectorError "selector is not supported")
    end;
  elementToInstance el := Ok (VObj 0 [("children", VArr 0 [el])])
|}.



(** * Further parts of the sources *)

(** ** Traversal *)

(** Trees the traversal gets through: every node is an object (or a
    function) whose [children] is an array of such trees. *)
Fixpoint walkable (tree : value) : bool :=
  match tree with
  | VObj _ fs | VFun _ fs =>
      has_key "children" fs &&
      forallb (fun kv => if fst kv =? "children"
                         then match snd kv with
                              | VArr _ xs => forallb walkable xs
                              | _ => false
                              end
                         else true) fs
  | _ => false
  end.

(** Trees whose [children] are data: where [children] is no array, it is
    no function, and it carries no [method] of its own to call. *)
Fixpoint plain_children (method : string) (tree : value) : bool :=
  match tree with
  | VObj _ fs | VFun _ fs =>
      forallb (fun kv => if fst kv =? "children"
                         then match snd kv with
                              | VArr _ xs => forallb (plain_children method) xs
                              | VFun _ _ => false
                              | VObj _ gs =>
                                  negb (jstype_eqb
                                          (typeof (match lookup method gs with
                                                   | Some f => f
                                                   | None => VUndefined
                                                   end)) TFunction)
                              | _ => true
                              end
                         else true) fs
  | _ => true
  end.

(** Values in which no member is named like a member every object
    inherits ([toString], [constructor], [__proto__], ...). *)
Fixpoint own_named (v : value) : bool :=
  match v with
  | VObj _ fs | VFun _ fs =>
      forallb (fun kv => own_name (fst kv) && own_named (snd kv)) fs
  | VArr _ xs => forallb own_named xs
  | _ => true
  end.


(** ** Sub-array containment (contains/index.js) *)

(** [arraysEqual(match, left, right)]; [every] runs only on equal
    lengths, where [right[i]] is the element paired with [left[i]]. *)
Definition arraysEqual (match_ : value -> value -> bool) (left right : list value)
  : bool :=
  (List.length left =? List.length right)%nat
  && forallb (fun p => match_ (fst p) (snd p)) (combine left right).

(** [containsChildrenSubArray(match, node, subArray)]:
    [children.some((_, i) => arraysEqual(match, children.slice(i, i + subArray.length), subArray))] *)
Definition containsChildrenSubArray (match_ : value -> value -> bool)
    (node : value) (subArray : list value) : result bool :=
  children <- getprop node "children" ;;
  match children with
  | VArr _ cs =>
      Ok (existsb
            (fun i =>
               arraysEqual match_
                 (array_slice cs (Some (Z.of_nat i))
                    (Some (Z.of_nat i + Z.of_nat (List.length subArray))%Z))
                 subArray)
            (seq 0 (List.length cs)))
  | VUndefined => Throw (RuntimeTypeError "Cannot read property 'some' of undefined")
  | VNull => Throw (RuntimeTypeError "Cannot read property 'some' of null")
  | _ => Throw (RuntimeTypeError "children.some is not a function")
  end.

(** ** More of the wrapper *)

(** The array [children()] spreads for one instance. *)
Definition children_of_instance (inst : value) : list value :=
  match get inst "children" with
  | VArr _ xs => xs
  | _ => []
  end.

(** [first()], [last()], [exists()] *)
Definition first (w : Wrapper) : Wrapper := at_ w 0.

Definition last (w : Wrapper) : Wrapper := at_ w (Z.of_nat (wlength w) - 1).

Definition exists_ (w : Wrapper) : bool := (0 <? wlength w)%nat.

(** The chain [parentsOfInstance] walks: each entry is the [parent] of
    the one before, none of them sits directly under the root, the last
    one's parent does. *)
Definition under_root (root parent : value) : bool :=
  truthy parent && strict_eq (get parent "instance") root.

Fixpoint ancestors_to_root (root inst : value) (ps : list value) : Prop :=
  is_nullish inst = false /\
  match ps with
  | [] => under_root root (get inst "parent") = true
  | p :: ps' =>
      p = get inst "parent" /\ under_root root p = false
      /\ ancestors_to_root root p ps'
  end.

(** Calls on the renderer and on [rootRef] made by the lifecycle methods. *)
Inductive lifecycle_effect : Type :=
| RendererUnmount
| ForceUpdate.

(** [unmount()] *)
Definition unmount (w : Wrapper) : result (lifecycle_effect * Wrapper) :=
  root <- isRoot w ;;
  if negb (truthy root) then Throw (RootRequiredError "unmount")
  else
    single w "unmount" (fun _ =>
      _ <- method_of (renderer w) "unmount" ;;
      Ok (RendererUnmount, w)).

(** [detach()] *)
Definition detach (w : Wrapper) : result lifecycle_effect :=
  root <- isRoot w ;;
  if negb (truthy root) then Throw (RootRequiredError "detach")
  else
    _ <- method_of (renderer w) "unmount" ;;
    Ok RendererUnmount.

(** [update()] *)
Definition update (w : Wrapper) : result lifecycle_effect :=
  root <- isRoot w ;;
  if negb (truthy root) then Throw (RootRequiredError "update")
  else
    _ <- method_of (rootRef w) "forceUpdate" ;;
    Ok ForceUpdate.

Section Predicates.
Context {ext : Collaborators}.

(** [every(selector)] *)
Definition every (w : Wrapper) (selector : value) : result bool :=
  predicate <- buildPredicate selector ;;
  array_every predicate (instances w).

(** [some(selector)]: refused on the root. *)
Definition some (w : Wrapper) (selector : value) : result bool :=
  root <- isRoot w ;;
  if truthy root
  then Throw (PlainError "ReactWrapper::some() can not be called on the root")
  else
    predicate <- buildPredicate selector ;;
    array_some predicate (instances w).

(** [is(selector)] *)
Definition is_ (w : Wrapper) (selector : value) : result bool :=
  predicate <- buildPredicate selector ;;
  single w "is" predicate.

(** [closest(selector)]:
    [this.is(selector) ? this : this.parents().filter(selector).first()] *)
Definition closest (w : Wrapper) (selector : value) : result Wrapper :=
  matches <- is_ w selector ;;
  if matches then Ok w
  else
    ps <- parents w VUndefined ;;
    kept <- filter_ ps selector ;;
    Ok (first kept).
End Predicates.

(** [hostNodes()] *)
Definition hostNodes (w : Wrapper) : result Wrapper :=
  kept <- array_filter
            (fun inst => ty <- getprop inst "type" ;;
                         Ok (jstype_eqb (typeof ty) TString))
            (instances w) ;;
  Ok (wrap w kept).

(** The lifecycle and root-only methods other than the mutators; [mount]
    with what stands behind its renderer. *)
Inductive root_method : Type :=
| RMount (react : React) (r : MountRenderer)
| RUnmount
| RDetach
| RUpdate
| RState (name : option string)
| RContext (name : option string).

Definition root_method_name (m : root_method) : string :=
  match m with
  | RMount _ _ => "mount"
  | RUnmount => "unmount"
  | RDetach => "detach"
  | RUpdate => "update"
  | RState _ => "state"
  | RContext _ => "context"
  end.

(** Whether the call ended in an exception, and in which. *)
Definition thrown {A : Type} (r : result A) : option exn :=
  match r with
  | Ok _ => None
  | Throw e => Some e
  end.

Definition call_root_method (w : Wrapper) (m : root_method) : option exn :=
  match m with
  | RMount react r => thrown (@mount react w r)
  | RUnmount => thrown (unmount w)
  | RDetach => thrown (detach w)
  | RUpdate => thrown (update w)
  | RState n => thrown (state w n)
  | RContext n => thrown (context w n)
  end.

(** ** More sample inputs *)

(** A [ul] instance with two [li] instances below it, none of them with a
    text child. *)
Definition li_one : value :=
  VObj 101 [("type", VStr "li"); ("props", VObj 102 []); ("children", VArr 103 [])].
Definition li_two : value :=
  VObj 104 [("type", VStr "li"); ("props", VObj 105 [("title", VStr "x")]);
            ("children", VArr 106 [])].
Definition ul_instance : value :=
  VObj 107 [("type", VStr "ul"); ("props", VObj 108 []);
            ("children", VArr 109 [li_one; li_two]); ("parent", top_instance);
            ("instance", VNull)].
Definition ul_wrapper : Wrapper :=
  mkWrapper [ul_instance] root_ref sample_element sample_renderer.

(** ** Indentation (debug.js) *)

Definition newline : ascii := "010"%char.

(** [spaces(n)]: [Array(n + 1).join(' ')] *)
Fixpoint spaces (n : nat) : string :=
  match n with
  | O => ""
  | S n' => String " " (spaces n')
  end.

(** [s.split('\n')] *)
Fixpoint split_lines (s : string) : list string :=
  match s with
  | EmptyString => [""]
  | String c s' =>
      if Ascii.eqb c newline then "" :: split_lines s'
      else
        match split_lines s' with
        | line :: lines => String c line :: lines
        | [] => [String c ""]
        end
  end.

(** [lines.join('\n')] *)
Fixpoint join_lines (lines : list string) : string :=
  match lines with
  | [] => ""
  | [line] => line
  | line :: rest => line ++ String newline (join_lines rest)
  end.

(** [indent(depth, string)] *)
Definition indent (depth : nat) (s : string) : string :=
  join_lines (map (fun x => spaces depth ++ x) (split_lines s)).

(** [indentChildren(childrenStrs, indentLength)] *)
Definition indentChildren (childrenStrs : list string) (indentLength : nat) : string :=
  match childrenStrs with
  | [] => ""
  | _ =>
      String newline
        (join_lines (map (indent indentLength) childrenStrs) ++ String newline "")
  end.

(** A string without a line break. *)
Definition one_line (s : string) : Prop := ~ In newline (list_ascii_of_string s).

(** ** Rendered text *)

Section Text.
(** [ReactDOM.findDOMNode(instance).textContent], from outside. *)
Variable textContent : value -> result string.

(** The filter [text()] searches with:
    [inst => !!inst.instance || typeof inst === 'string'] *)
Definition shows_text (inst : value) : result bool :=
  i <- getprop inst "instance" ;;
  Ok (truthy i || jstype_eqb (typeof inst) TString).

(** [v.length] where [v] is no array: the length of a string, the member
    a function or object holds under that name. *)
Definition length_of (v : value) : value :=
  match v with
  | VStr s => VNum (Int (Z.of_nat (String.length s)))
  | _ => get v "length"
  end.

(** The local function [findAllFirst] of [text()].  On an array [map] is
    the built-in one; any other value has a [map] only if it carries one
    itself. *)
Fixpoint findAllFirst_fuel (fuel : nat) (current : value)
  : option (result (list value)) :=
  match fuel with
  | O => None
  | S fuel' =>
      match shows_text current with
      | Throw e => Some (Throw e)
      | Ok true => Some (Ok [current])
      | Ok false =>
          match get current "children" with
          | VArr _ [] => Some (Ok [])
          | VArr _ cs =>
              (fix each (cs : list value) : option (result (list value)) :=
                 match cs with
                 | [] => Some (Ok [])
                 | child :: cs' =>
                     match findAllFirst_fuel fuel' child with
                     | Some (Ok found) =>
                         match each cs' with
                         | Some (Ok rest) => Some (Ok (found ++ rest)%list)
                         | r => r
                         end
                     | r => r
                     end
                 end) cs
          | children =>
              if negb (truthy children) then Some (Ok [])
              else if strict_eq (length_of children) (VNum (Int 0)) then Some (Ok [])
              else
                let map := get children "map" in
                if jstype_eqb (typeof map) TFunction
                then Some (Throw (ForeignCall map))
                else Some (Throw (RuntimeTypeError "collection.map is not a function"))
          end
      end
  end.

Definition findAllFirst (current : value) : result (list value) :=
  match findAllFirst_fuel (S (height current)) current with
  | Some r => r
  | None => Ok []
  end.

(** [result.instance ? findDOMNode(result.instance).textContent : result] on
    what the filter lets through: an instanced node or a string. *)
Definition shown_text (found : value) : result string :=
  i <- getprop found "instance" ;;
  if truthy i then textContent i
  else match found with
       | VStr s => Ok s
       | _ => Ok ""
       end.

(** [text()] *)
Definition text (w : Wrapper) : result string :=
  single w "text" (fun inst =>
    found <- findAllFirst inst ;;
    texts <- mapM shown_text found ;;
    Ok (String.concat "" texts)).
End Text.

(** Trees without component instances, as [text()] reads them: strings,
    numbers and booleans for leaves, objects whose [instance] is falsy and
    whose [children] is an array of such trees or falsy. *)
Fixpoint inert (v : value) : bool :=
  match v with
  | VUndefined | VNull => false
  | VFun _ _ => false
  | VObj _ fs =>
      nodupb (map fst fs) &&
      negb (truthy (match lookup "instance" fs with Some i => i | None => VUndefined end)) &&
      forallb (fun kv => if fst kv =? "children"
                         then match snd kv with
                              | VArr _ xs => forallb inert xs
                              | c => negb (truthy c)
                              end
                         else true) fs
  | _ => true
  end.

(** The string leaves of such a tree, from left to right. *)
Fixpoint string_leaves (v : value) : list string :=
  match v with
  | VStr s => [s]
  | VObj _ fs =>
      flat_map (fun kv => if fst kv =? "children"
                          then match snd kv with
                               | VArr _ xs => flat_map string_leaves xs
                               | _ => []
                               end
                          else []) fs
  | _ => []
  end.

(** [<p>Total: {3} items</p>] as an instance, and a wrapper over it. *)
Definition p_instance : value :=
  VObj 120 [("type", VStr "p"); ("props", VObj 121 []);
            ("children", VArr 122 [VStr "Total: "; VNum (Int 3); VStr " items"]);
            ("parent", top_instance); ("instance", VNull)].
Definition p_wrapper : Wrapper :=
  mkWrapper [p_instance] root_ref sample_element sample_renderer.

(** ** Callbacks over the nodes *)

(** The pairs [(n, i)] an array method hands to its callback. *)
Definition indexed {A : Type} (xs : list A) : list (A * nat) :=
  combine xs (seq 0 (List.length xs)).

(** [everyWhere(predicate)] and [someWhere(predicate)]: the predicate gets
    a wrapper around the one node and the node's index; its answer is read
    for truthiness. *)
Definition everyWhere (w : Wrapper) (predicate : Wrapper -> nat -> result bool)
  : result bool :=
  array_every (fun ni => predicate (wrap w [fst ni]) (snd ni)) (indexed (instances w)).

Definition someWhere (w : Wrapper) (predicate : Wrapper -> nat -> result bool)
  : result bool :=
  array_some (fun ni => predicate (wrap w [fst ni]) (snd ni)) (indexed (instances w)).

Section Single.
Context {ext : Collaborators}.

(** [childAt(index)] *)
Definition childAt (w : Wrapper) (i : Z) : result Wrapper :=
  single w "childAt" (fun _ => cw <- children w VUndefined ;; Ok (at_ cw i)).

(** [matchesElement(node)] *)
Definition matchesElement (w : Wrapper) (node : value) : result bool :=
  single w "matchesElement" (fun instance =>
    argInstance <- elementToInstance node ;;
    cs <- getprop argInstance "children" ;;
    c0 <- getindex cs 0 ;;
    Ok (nodeMatches c0 instance leq)).
End Single.

#[local] Open Scope list_scope.

(** * Theorems *)

(** ** Objects as finite maps *)

Lemma filter_all {A} (p : A -> bool) xs : forallb p xs = true -> filter p xs = xs.
Proof.
  induction xs as [| x xs IH]; simpl; intros H; [reflexivity|].
  apply andb_true_iff in H as [H1 H2]. rewrite H1. f_equal. now apply IH.
Qed.

Lemma lookup_In k fs x : lookup k fs = Some x -> In (k, x) fs.
Proof.
  induction fs as [| [k' v] fs IH]; simpl; intros H; [discriminate|].
  destruct (k' =? k)%string eqn:E.
  - apply String.eqb_eq in E. injection H as ->. left. now subst.
  - right. now apply IH.
Qed.

Lemma nodupb_NoDup ks : nodupb ks = true -> NoDup ks.
Proof.
  induction ks as [| k ks IH]; simpl; intros H; constructor.
  - apply andb_true_iff in H as [H _]. apply negb_true_iff in H.
    intros Hin. assert (E : existsb (String.eqb k) ks = true).
    { apply existsb_exists. exists k. split; [exact Hin | apply String.eqb_refl]. }
    congruence.
  - apply andb_true_iff in H as [_ H]. now apply IH.
Qed.

Lemma lookup_NoDup k v fs :
  NoDup (map fst fs) -> In (k, v) fs -> lookup k fs = Some v.
Proof.
  induction fs as [| [k' v'] fs IH]; simpl; intros Hnd Hin; [contradiction|].
  inversion Hnd as [| ? ? Hnotin Hnd']; subst.
  destruct Hin as [E | Hin].
  - injection E as -> ->. now rewrite String.eqb_refl.
  - destruct (k' =? k)%string eqn:E.
    + apply String.eqb_eq in E. subst k'. exfalso. apply Hnotin.
      change k with (fst (k, v)). now apply in_map.
    + now apply IH.
Qed.

Lemma lookup_key_in k fs : In k (map fst fs) -> exists v, lookup k fs = Some v.
Proof.
  induction fs as [| [k' v'] fs IH]; simpl; intros H; [contradiction|].
  destruct (k' =? k)%string eqn:E; [now eexists|].
  destruct H as [H | H]; [| now apply IH].
  subst. now rewrite String.eqb_refl in E.
Qed.

Lemma NoDup_keys_filter (p : string * value -> bool) fs :
  NoDup (map fst fs) -> NoDup (map fst (filter p fs)).
Proof.
  induction fs as [| kv fs IH]; simpl; intros H; [constructor|].
  inversion H as [| ? ? Hnotin Hnd]; subst.
  destruct (p kv); simpl; [constructor |]; auto.
  intros Hin. apply Hnotin. apply in_map_iff in Hin as [kv' [E Hin]].
  apply filter_In in Hin as [Hin _]. rewrite <- E. now apply in_map.
Qed.

(** Two maps of the same size, the first included in the second up to a
    relation on the values: then the second is included in the first. *)
Lemma members_swap (E1 E2 : value -> value -> bool) fs gs :
  NoDup (map fst fs) -> NoDup (map fst gs) ->
  List.length fs = List.length gs ->
  (forall v w, In v (map snd fs) -> In w (map snd gs) ->
               E1 v w = true -> E2 w v = true) ->
  forallb (fun kv => match lookup (fst kv) gs with
                     | Some w => E1 (snd kv) w
                     | None => false
                     end) fs = true ->
  forallb (fun kv => match lookup (fst kv) fs with
                     | Some v => E2 (snd kv) v
                     | None => false
                     end) gs = true.
Proof.
  intros Hf Hg Hlen Hsw Hall.
  rewrite forallb_forall in Hall.
  assert (Hincl : incl (map fst gs) (map fst fs)).
  { apply NoDup_length_incl; [exact Hf | rewrite !length_map; lia |].
    intros k Hk. apply in_map_iff in Hk as [[k' v] [E Hin]]. simpl in E. subst k'.
    specialize (Hall _ Hin). simpl in Hall.
    destruct (lookup k gs) as [w |] eqn:El; [| discriminate].
    apply lookup_In in El. change k with (fst (k, w)). now apply in_map. }
  apply forallb_forall. intros [k w] Hin. simpl.
  assert (Hk : In k (map fst fs)).
  { apply Hincl. change k with (fst (k, w)). now apply in_map. }
  destruct (lookup_key_in _ _ Hk) as [v Ev]. rewrite Ev.
  pose proof (lookup_In _ _ _ Ev) as Hv.
  specialize (Hall _ Hv). simpl in Hall.
  rewrite (lookup_NoDup _ _ _ Hg Hin) in Hall.
  apply Hsw; auto.
  - change v with (snd (k, v)). now apply in_map.
  - change w with (snd (k, w)). now apply in_map.
Qed.

Lemma forallb_keyed (P : value -> bool) k fs x :
  forallb (fun kv => if (fst kv =? k)%string then P (snd kv) else true) fs = true ->
  In (k, x) fs -> P x = true.
Proof.
  intros H Hin. rewrite forallb_forall in H. specialize (H _ Hin).
  cbn [fst snd] in H. now rewrite String.eqb_refl in H.
Qed.

(** ** Simplified children *)

Lemma pop_nil : pop [] = (VUndefined, []).
Proof. reflexivity. Qed.

Lemma pop_snoc (arr : list value) (x : value) : pop (arr ++ [x]) = (x, arr).
Proof.
  unfold pop. rewrite rev_app_distr. simpl. now rewrite rev_involutive.
Qed.

Lemma no_adjacent_text_cons x y l :
  no_adjacent_text (x :: y :: l) = adjacent_ok x y && no_adjacent_text (y :: l).
Proof. reflexivity. Qed.

Lemma no_adjacent_text_app l1 x l2 :
  no_adjacent_text (l1 ++ x :: l2)
  = no_adjacent_text (l1 ++ [x]) && no_adjacent_text (x :: l2).
Proof.
  induction l1 as [| a l1 IH].
  - simpl. destruct l2; reflexivity.
  - destruct l1 as [| b l1].
    + simpl. destruct l2; simpl; now rewrite ?andb_true_r.
    + change (no_adjacent_text ((a :: b :: l1) ++ x :: l2))
        with (adjacent_ok a b && no_adjacent_text ((b :: l1) ++ x :: l2)).
      change (no_adjacent_text ((a :: b :: l1) ++ [x]))
        with (adjacent_ok a b && no_adjacent_text ((b :: l1) ++ [x])).
      rewrite IH. now rewrite andb_assoc.
Qed.

Lemma no_adjacent_text_snoc2 l x y :
  no_adjacent_text (l ++ [x; y]) = no_adjacent_text (l ++ [x]) && adjacent_ok x y.
Proof.
  rewrite no_adjacent_text_app. simpl. now rewrite !andb_true_r.
Qed.

Lemma kept_not_undefined el : kept el = true -> is_undefined el = false.
Proof.
  unfold kept, is_nothing. destruct el; simpl; intros H; try reflexivity; discriminate.
Qed.

Lemma js_add_textual a b :
  isTextualNode a = true -> isTextualNode b = true ->
  isTextualNode (js_add a b) = true /\ kept (js_add a b) = true.
Proof.
  destruct a; try discriminate; destruct b; try discriminate; intros _ _; split; reflexivity.
Qed.

Lemma childrenToArray_kept c : forallb kept (childrenToArray c) = true.
Proof.
  unfold childrenToArray.
  destruct c; simpl; try reflexivity;
    try (destruct b; reflexivity).
  apply forallb_forall. intros x Hx. apply filter_In in Hx. apply Hx.
Qed.

(** One turn of the loop keeps the array free of dropped elements and of
    textual neighbours. *)
Lemma simplify_step_invariant acc child :
  forallb kept acc = true -> no_adjacent_text acc = true -> kept child = true ->
  forallb kept (simplify_step acc child) = true
  /\ no_adjacent_text (simplify_step acc child) = true.
Proof.
  intros Hk Hn Hc. unfold simplify_step.
  destruct acc as [| a acc'] using rev_ind.
  - rewrite pop_nil. simpl. rewrite Hc. split; reflexivity.
  - clear IHacc'. rewrite pop_snoc.
    rewrite forallb_app in Hk. apply andb_true_iff in Hk as [Hk1 Hk2].
    simpl in Hk2. rewrite andb_true_r in Hk2.
    rewrite (kept_not_undefined _ Hk2).
    destruct (isTextualNode child && isTextualNode a) eqn:Ht; unfold push.
    + apply andb_true_iff in Ht as [Htc Hta].
      destruct (js_add_textual a child Hta Htc) as [Hm1 Hm2].
      split.
      * rewrite forallb_app, Hk1. simpl. now rewrite Hm2.
      * destruct acc' as [| z acc''] using rev_ind; [reflexivity|].
        clear IHacc''. rewrite <- app_assoc in *. simpl in *.
        rewrite no_adjacent_text_snoc2 in *.
        apply andb_true_iff in Hn as [Hn1 Hn2]. rewrite Hn1. simpl.
        unfold adjacent_ok in *. rewrite Hta, andb_true_r in Hn2.
        apply negb_true_iff in Hn2. now rewrite Hn2.
    + split.
      * rewrite !forallb_app, Hk1. simpl. now rewrite Hk2, Hc.
      * rewrite <- app_assoc. simpl. rewrite no_adjacent_text_snoc2, Hn. simpl.
        unfold adjacent_ok. rewrite andb_comm in Ht. now rewrite Ht.
Qed.

Lemma simplify_loop_invariant xs : forall acc,
  forallb kept acc = true -> no_adjacent_text acc = true ->
  forallb kept xs = true ->
  forallb kept (fold_left simplify_step xs acc) = true
  /\ no_adjacent_text (fold_left simplify_step xs acc) = true.
Proof.
  induction xs as [| x xs IH]; intros acc Hk Hn Hx; simpl.
  - now split.
  - simpl in Hx. apply andb_true_iff in Hx as [Hx1 Hx2].
    destruct (simplify_step_invariant acc x Hk Hn Hx1) as [H1 H2].
    now apply IH.
Qed.

(** On an array with nothing to drop and nothing to merge the loop
    rebuilds its input. *)
Lemma simplify_loop_fixed xs : forall acc,
  forallb kept (acc ++ xs) = true -> no_adjacent_text (acc ++ xs) = true ->
  fold_left simplify_step xs acc = acc ++ xs.
Proof.
  induction xs as [| x xs IH]; intros acc Hk Hn; simpl.
  - now rewrite app_nil_r.
  - assert (Hstep : simplify_step acc x = acc ++ [x]).
    { unfold simplify_step.
      destruct acc as [| a acc'] using rev_ind.
      - rewrite pop_nil. reflexivity.
      - clear IHacc'. rewrite pop_snoc.
        rewrite <- app_assoc in Hk, Hn. simpl in Hk, Hn.
        rewrite forallb_app in Hk. apply andb_true_iff in Hk as [_ Hk].
        simpl in Hk. apply andb_true_iff in Hk as [Hka _].
        rewrite (kept_not_undefined _ Hka).
        rewrite no_adjacent_text_app in Hn. apply andb_true_iff in Hn as [_ Hn].
        rewrite no_adjacent_text_cons in Hn. apply andb_true_iff in Hn as [Hn _].
        unfold adjacent_ok in Hn. apply negb_true_iff in Hn.
        rewrite andb_comm, Hn. unfold push. now rewrite <- app_assoc. }
    rewrite Hstep. rewrite IH; rewrite <- app_assoc; simpl; auto.
Qed.

Lemma childrenToSimplifiedArray_invariant c :
  forallb kept (childrenToSimplifiedArray c) = true
  /\ no_adjacent_text (childrenToSimplifiedArray c) = true.
Proof.
  unfold childrenToSimplifiedArray.
  apply simplify_loop_invariant; try reflexivity. apply childrenToArray_kept.
Qed.

(** C4: applying [childrenToSimplifiedArray] to its own output (the array
    it returned, at whatever address [l]) gives that output again; the
    output never holds two adjacent textual elements. *)
Theorem childrenToSimplifiedArray_idempotent (c : value) (l : loc) :
  childrenToSimplifiedArray (VArr l (childrenToSimplifiedArray c))
  = childrenToSimplifiedArray c
  /\ no_adjacent_text (childrenToSimplifiedArray c) = true.
Proof.
  destruct (childrenToSimplifiedArray_invariant c) as [Hk Hn].
  split; [| exact Hn].
  unfold childrenToSimplifiedArray at 1. unfold childrenToArray at 1.
  fold (kept). rewrite (filter_all _ _ Hk).
  now apply (simplify_loop_fixed _ []).
Qed.

(** ** Heights *)

Lemma height_lookup k fs x :
  lookup k fs = Some x ->
  height x <= list_max (map (fun kv => height (snd kv)) fs).
Proof.
  induction fs as [| [k' v] fs IH]; simpl; intros H; [discriminate|].
  destruct (k' =? k)%string.
  - injection H as ->. lia.
  - specialize (IH H). lia.
Qed.

Lemma height_item x xs : In x xs -> height x <= list_max (map height xs).
Proof.
  induction xs as [| y xs IH]; simpl; intros H; [contradiction|].
  destruct H as [-> | H]; [lia|]. specialize (IH H). lia.
Qed.

(** A member of an object lies strictly below it; other values have no
    members. *)
Lemma height_get v k :
  height (get v k) < height v \/ get v k = VUndefined.
Proof.
  destruct v; simpl; auto;
    destruct (lookup k fields) eqn:E; auto;
    left; apply height_lookup in E; lia.
Qed.

Lemma height_get_array v k l xs x :
  get v k = VArr l xs -> In x xs -> S (height x) < height v.
Proof.
  intros E Hin. destruct (height_get v k) as [H | H].
  - rewrite E in H. simpl in H. apply height_item in Hin. lia.
  - congruence.
Qed.

Lemma getprop_get v k r : getprop v k = Ok r -> r = get v k.
Proof. destruct v; simpl; intros H; congruence. Qed.

(** ** Traversal *)

Lemma forEach_total {St} (f : value -> St -> option (St * result unit)) xs :
  (forall x s, In x xs -> f x s <> None) ->
  forall s, forEach f xs s <> None.
Proof.
  induction xs as [| x xs IH]; intros Hf s; simpl; [discriminate|].
  destruct (f x s) as [[s' [u | e]] |] eqn:E.
  - apply IH. intros y s0 Hy. apply Hf. now right.
  - discriminate.
  - exfalso. apply (Hf x s); [now left | exact E].
Qed.

(** [height tree] levels of recursion are enough for [treeForEach]: the
    definition of [treeForEach] never takes its [None] branch. *)
Lemma treeForEach_fuel_enough {St} (fn : callback St) fuel :
  forall tree s, height tree < fuel -> treeForEach_fuel fuel tree fn s <> None.
Proof.
  induction fuel as [| fuel IH]; intros tree s Hh; [lia|].
  simpl.
  destruct (if visitable tree then fn tree s else (s, Ok tt)) as [s1 [u | e]];
    [| discriminate].
  destruct (getprop tree "children") as [c | e] eqn:Ec; [| discriminate].
  apply getprop_get in Ec.
  destruct c; try discriminate;
    try (cbv zeta; match goal with
                   | |- (if ?b then _ else _) <> None => destruct b; discriminate
                   end).
  apply forEach_total. intros x s0 Hx. apply IH.
  symmetry in Ec. pose proof (height_get_array _ _ _ _ _ Ec Hx). lia.
Qed.

Lemma treeForEach_run {St} (fn : callback St) tree s :
  treeForEach_fuel (S (height tree)) tree fn s = Some (treeForEach tree fn s).
Proof.
  unfold treeForEach.
  destruct (treeForEach_fuel (S (height tree)) tree fn s) eqn:E; [reflexivity|].
  exfalso. revert E. apply treeForEach_fuel_enough. lia.
Qed.

(** C2 (at the inputs the guard names): on [null], [false] and
    [undefined] the visitor is not called, the state is the one passed in,
    and the call ends in a TypeError raised by the unguarded
    [tree.children.forEach]. *)
Theorem treeForEach_fails_on_nothing {St : Type} (fn : callback St) (s : St) :
  treeForEach VNull fn s
    = (s, Throw (RuntimeTypeError "Cannot read property 'children' of null"))
  /\ treeForEach VUndefined fn s
    = (s, Throw (RuntimeTypeError "Cannot read property 'children' of undefined"))
  /\ treeForEach (VBool false) fn s
    = (s, Throw (RuntimeTypeError "Cannot read property 'forEach' of undefined")).
Proof. repeat split. Qed.

(** [treeFilter] fails with it. *)
Lemma treeFilter_fails_on_null fn :
  treeFilter VNull fn
  = Throw (RuntimeTypeError "Cannot read property 'children' of null").
Proof. reflexivity. Qed.

(** On a tree of objects with [children] arrays the traversal does not
    fail and calls the visitor on the nodes in pre-order. *)
Lemma children_of_branching l fs :
  branching (VObj l fs) = true ->
  exists l' xs, lookup "children" fs = Some (VArr l' xs)
                /\ forallb branching xs = true
                /\ preorder (VObj l fs) = VObj l fs :: flat_map preorder xs.
Proof.
  cbn [branching preorder]. intros H.
  apply andb_true_iff in H as [H Hall]. apply andb_true_iff in H as [Hnd Hk].
  apply nodupb_NoDup in Hnd. unfold has_key in Hk.
  destruct (lookup "children" fs) as [c |] eqn:E; [| discriminate].
  pose proof (lookup_In _ _ _ E) as Hin.
  pose proof (forallb_keyed
                (fun c => match c with
                          | VArr _ xs => forallb branching xs
                          | _ => false
                          end) _ _ _ Hall Hin) as Hc.
  cbn beta in Hc.
  destruct c as [| | | | | | l' xs |]; try discriminate.
  exists l', xs. repeat split; auto. f_equal.
  clear Hall Hk Hin. revert Hnd E.
  induction fs as [| [k v] fs IH]; intros Hnd E; [discriminate|].
  inversion Hnd as [| ? ? Hnotin Hnd']; subst. cbn [lookup] in E.
  cbn [flat_map fst snd].
  destruct (k =? "children")%string eqn:Ek.
  - injection E as ->. apply String.eqb_eq in Ek. subst k.
    assert (Hrest : forall gs, ~ In "children" (map fst gs) ->
              flat_map (fun kv => if (fst kv =? "children")%string
                                  then match snd kv with
                                       | VArr _ xs => flat_map preorder xs
                                       | _ => []
                                       end
                                  else []) gs = []).
    { induction gs as [| [k' v'] gs IHg]; intros Hn; [reflexivity|].
      cbn [flat_map fst snd].
      destruct (k' =? "children")%string eqn:Ek'.
      - apply String.eqb_eq in Ek'. subst k'. exfalso. apply Hn. now left.
      - apply IHg. intros Hi. apply Hn. now right. }
    rewrite (Hrest fs Hnotin). now rewrite app_nil_r.
  - now apply IH.
Qed.

Lemma treeForEach_fuel_preorder {St} (g : value -> St -> St) fuel :
  forall tree s, branching tree = true -> height tree < fuel ->
  treeForEach_fuel fuel tree (fun node s' => (g node s', Ok tt)) s
  = Some (fold_left (fun s' node => g node s') (preorder tree) s, Ok tt).
Proof.
  induction fuel as [| fuel IH]; intros tree s Hb Hh; [lia|].
  destruct tree as [| | | | | | | l fs]; try discriminate.
  destruct (children_of_branching l fs Hb) as [l' [xs [Ec [Hxs Hp]]]].
  rewrite Hp. cbn [treeForEach_fuel visitable strict_eq typeof jstype_eqb negb andb
                   getprop get fold_left].
  rewrite Ec.
  assert (Hbelow : forall x, In x xs -> height x < fuel).
  { intros x Hx.
    assert (Eg : get (VObj l fs) "children" = VArr l' xs) by (cbn; now rewrite Ec).
    pose proof (height_get_array _ _ _ _ _ Eg Hx). lia. }
  clear Ec Hp Hb Hh. generalize (g (VObj l fs) s). clear s.
  induction xs as [| x xs IHxs]; intros s; [reflexivity|].
  cbn [forallb] in Hxs. apply andb_true_iff in Hxs as [Hx Hxs].
  cbn [forEach flat_map]. rewrite IH; auto; [| apply Hbelow; now left].
  rewrite fold_left_app. apply IHxs; auto.
  intros y Hy. apply Hbelow. now right.
Qed.

Lemma treeForEach_preorder {St} (g : value -> St -> St) tree s :
  branching tree = true ->
  treeForEach tree (fun node s' => (g node s', Ok tt)) s
  = (fold_left (fun s' node => g node s') (preorder tree) s, Ok tt).
Proof.
  intros Hb. unfold treeForEach. rewrite treeForEach_fuel_preorder; auto.
Qed.

(** ** The comparator terminates *)

Lemma entries_height p kv : In kv (entries p) -> height (snd kv) <= height p.
Proof.
  destruct p as [| | | | s | l fs | l xs | l fs]; cbn [entries]; try contradiction.
  - unfold indexed_entries. destruct kv as [k x]. intros H.
    apply in_combine_r in H. apply in_map_iff in H as [c [<- _]]. cbn. lia.
  - intros H. apply filter_In in H as [H _]. cbn [height].
    assert (height (snd kv) <= list_max (map (fun kv => height (snd kv)) fs)).
    { clear -H. induction fs as [| f fs IH]; simpl; [contradiction|].
      destruct H as [-> | H]; [lia|]. specialize (IH H). lia. }
    lia.
  - unfold indexed_entries. destruct kv as [k x]. intros H.
    apply in_combine_r in H. apply height_item in H. cbn. lia.
  - intros H. cbn [height].
    assert (height (snd kv) <= list_max (map (fun kv => height (snd kv)) fs)).
    { clear -H. induction fs as [| f fs IH]; simpl; [contradiction|].
      destruct H as [-> | H]; [lia|]. specialize (IH H). lia. }
    lia.
Qed.

Lemma in_propsOfNode_height a kv :
  In kv (propsOfNode a) -> height (snd kv) < height a.
Proof.
  unfold propsOfNode. intros H. apply filter_In in H as [H _].
  destruct (truthy a) eqn:Ta.
  - destruct (truthy (get a "props")) eqn:Tp; [| contradiction].
    apply entries_height in H.
    destruct (height_get a "props") as [Hh | Hh]; [lia|].
    rewrite Hh in Tp. discriminate.
  - rewrite Ta in H. contradiction.
Qed.

Lemma in_removeNullary kv fs : In kv (removeNullary fs) -> In kv fs.
Proof. unfold removeNullary. intros H. now apply filter_In in H. Qed.

Lemma js_add_height a b : height (js_add a b) = 0.
Proof. destruct a; try reflexivity; destruct b; reflexivity. Qed.

Lemma simplify_step_height n acc child :
  Forall (fun x => height x <= n) acc -> height child <= n ->
  Forall (fun x => height x <= n) (simplify_step acc child).
Proof.
  intros Ha Hc. unfold simplify_step.
  destruct acc as [| a acc'] using rev_ind.
  - rewrite pop_nil. simpl. unfold push. simpl. auto.
  - clear IHacc'. rewrite pop_snoc. apply Forall_app in Ha as [Ha1 Ha2].
    unfold push.
    destruct (is_undefined a); [| destruct (isTextualNode child && isTextualNode a)].
    + apply Forall_app. split; auto.
    + apply Forall_app. split; auto. constructor; auto. rewrite js_add_height. lia.
    + rewrite <- app_assoc. apply Forall_app. split; auto.
      apply Forall_app. split; auto.
Qed.

Lemma childrenToArray_height c :
  Forall (fun x => height x <= height c) (childrenToArray c).
Proof.
  unfold childrenToArray.
  destruct c; try (destruct (is_nothing _); auto; fail).
  apply Forall_forall. intros x Hx. apply filter_In in Hx as [Hx _].
  apply height_item in Hx. simpl. lia.
Qed.

Lemma childrenToSimplifiedArray_height c :
  Forall (fun x => height x <= height c) (childrenToSimplifiedArray c).
Proof.
  unfold childrenToSimplifiedArray.
  pose proof (childrenToArray_height c) as H.
  assert (G : forall xs acc,
             Forall (fun x => height x <= height c) xs ->
             Forall (fun x => height x <= height c) acc ->
             Forall (fun x => height x <= height c) (fold_left simplify_step xs acc)).
  { induction xs as [| x xs IH]; intros acc Hx Ha; simpl; [exact Ha|].
    inversion Hx; subst. apply IH; auto. now apply simplify_step_height. }
  now apply G.
Qed.

(** The comparands of every recursive call lie strictly below [a]. *)
Lemma simplified_children_below (a : value) (isLoose : bool) (x : value) :
  let left := propsOfNode a in
  let left := if isLoose then removeNullary left else left in
  In x (childrenToSimplifiedArray
          (match lookup "children" left with Some c => c | None => VUndefined end)) ->
  height x < height a.
Proof.
  intros left left' Hx.
  pose proof (childrenToSimplifiedArray_height
                (match lookup "children" left' with Some c => c | None => VUndefined end)) as H.
  rewrite Forall_forall in H. specialize (H x Hx).
  destruct (lookup "children" left') as [c |] eqn:E.
  - apply lookup_In in E.
    assert (Hin : In ("children", c) (propsOfNode a)).
    { subst left' left. destruct isLoose; [now apply in_removeNullary | exact E]. }
    apply in_propsOfNode_height in Hin. simpl in Hin. lia.
  - simpl in H. destruct (childrenToSimplifiedArray VUndefined) eqn:E'.
    + contradiction.
    + discriminate.
Qed.

Lemma everyPair_total f a : forall b,
  (forall x y, In x a -> f x y <> None) -> everyPair f a b <> None.
Proof.
  induction a as [| x a IH]; intros b Hf; simpl; [discriminate|].
  destruct (f x (hd VUndefined b)) as [[|] |] eqn:E.
  - apply IH. intros x' y Hx'. apply Hf. now right.
  - discriminate.
  - exfalso. apply (Hf x (hd VUndefined b)); [now left | exact E].
Qed.

Lemma internalChildrenCompare_total f a b :
  (forall x y, In x a -> f x y <> None) -> internalChildrenCompare f a b <> None.
Proof.
  intros Hf. unfold internalChildrenCompare.
  destruct (negb _); [discriminate|].
  destruct (_ && _); [discriminate|]. now apply everyPair_total.
Qed.

(** [height a] levels of recursion are enough for [internalNodeCompare]:
    the definition of [nodeCompare] never takes its [None] branch. *)
Lemma internalNodeCompare_enough lenComp isLoose fuel :
  forall a b, height a < fuel ->
  internalNodeCompare fuel a b lenComp isLoose <> None.
Proof.
  induction fuel as [| fuel IH]; intros a b Hh; [lia|].
  cbn [internalNodeCompare].
  destruct (strict_eq a b); [discriminate|].
  destruct (negb (truthy a) || negb (truthy b)); [discriminate|].
  destruct (negb (strict_eq (get a "type") (get b "type"))); [discriminate|].
  destruct (negb (propsCompare _ _)); [discriminate|].
  match goal with
  | |- match ?c with _ => _ end <> None =>
      assert (Hc : c <> None); [| destruct c as [[|] |]; try discriminate;
                                  [destruct (negb (isTextualNode a)); discriminate
                                  | contradiction]]
  end.
  destruct (_ || _); [| discriminate].
  apply internalChildrenCompare_total. intros x y Hx. apply IH.
  apply (simplified_children_below a isLoose) in Hx. lia.
Qed.

Lemma everyPair_ext f g a : forall b r,
  (forall x y r, In x a -> f x y = Some r -> g x y = Some r) ->
  everyPair f a b = Some r -> everyPair g a b = Some r.
Proof.
  induction a as [| x a IH]; intros b r Hfg; simpl; [auto|].
  destruct (f x (hd VUndefined b)) as [[|] |] eqn:E; intros H.
  - rewrite (Hfg _ _ _ (or_introl eq_refl) E). apply IH; auto.
    intros x' y r' Hx'. apply Hfg. now right.
  - rewrite (Hfg _ _ _ (or_introl eq_refl) E). exact H.
  - discriminate.
Qed.

(** More levels do not change an answer. *)
Lemma internalNodeCompare_more lenComp isLoose fuel :
  forall fuel' a b r, fuel <= fuel' ->
  internalNodeCompare fuel a b lenComp isLoose = Some r ->
  internalNodeCompare fuel' a b lenComp isLoose = Some r.
Proof.
  induction fuel as [| fuel IH]; intros fuel' a b r Hle; [discriminate|].
  destruct fuel' as [| fuel']; [lia|].
  cbn [internalNodeCompare].
  destruct (strict_eq a b); [auto|].
  destruct (negb (truthy a) || negb (truthy b)); [auto|].
  destruct (negb (strict_eq (get a "type") (get b "type"))); [auto|].
  destruct (negb (propsCompare _ _)); [auto|].
  destruct (_ || _); [| auto].
  unfold internalChildrenCompare.
  destruct (negb (_ =? _)%nat); [auto|].
  destruct (_ && _); [auto|].
  match goal with
  | |- match everyPair ?f ?xs ?ys with _ => _ end = _ -> _ =>
      destruct (everyPair f xs ys) as [c |] eqn:E; [| discriminate]
  end.
  apply everyPair_ext with (g := fun x y => internalNodeCompare fuel' x y lenComp isLoose) in E.
  - rewrite E. auto.
  - intros x y r' _. apply IH. lia.
Qed.

Lemma nodeCompare_run lenComp isLoose a b fuel :
  height a < fuel ->
  internalNodeCompare fuel a b lenComp isLoose = Some (nodeCompare a b lenComp isLoose).
Proof.
  intros Hh. unfold nodeCompare.
  destruct (internalNodeCompare (S (height a)) a b lenComp isLoose) as [r |] eqn:E.
  - apply internalNodeCompare_more with (fuel := S (height a)); [lia | exact E].
  - exfalso. revert E. apply internalNodeCompare_enough. lia.
Qed.

(** ** Identity *)

Lemma strict_eq_sym a b : strict_eq a b = strict_eq b a.
Proof.
  destruct a, b; simpl; try reflexivity.
  - destruct b, b0; reflexivity.
  - destruct n, n0; simpl; try reflexivity; [apply Z.eqb_sym|].
    now destruct negative, negative0.
  - apply String.eqb_sym.
  - apply Nat.eqb_sym.
  - apply Nat.eqb_sym.
  - apply Nat.eqb_sym.
Qed.

Lemma strict_eq_refl a : a <> VNum NaN -> strict_eq a a = true.
Proof.
  destruct a; simpl; intros H; try reflexivity.
  - now destruct b.
  - destruct n; [apply Z.eqb_refl | now destruct negative | congruence].
  - apply String.eqb_refl.
  - apply Nat.eqb_refl.
  - apply Nat.eqb_refl.
  - apply Nat.eqb_refl.
Qed.

Lemma nodeCompare_identical a b lenComp isLoose :
  strict_eq a b = true -> nodeCompare a b lenComp isLoose = true.
Proof.
  intros H. unfold nodeCompare. cbn [internalNodeCompare]. now rewrite H.
Qed.

(** ** Textual comparands *)

Lemma propsOfNode_textual a : isTextualNode a = true -> propsOfNode a = [].
Proof.
  intros Ht. unfold propsOfNode. destruct (truthy a) eqn:T.
  - destruct a; try discriminate; reflexivity.
  - rewrite T. reflexivity.
Qed.

(** For a textual [a] the comparison is decided by the identity test: when
    it fails, every later path ends in not-equal, the last of them the
    closing [return false]. *)
Lemma internalNodeCompare_textual fuel a b lenComp isLoose :
  isTextualNode a = true ->
  internalNodeCompare (S fuel) a b lenComp isLoose = Some (strict_eq a b).
Proof.
  intros Ht. cbn [internalNodeCompare].
  destruct (strict_eq a b); [reflexivity|].
  destruct (negb (truthy a) || negb (truthy b)); [reflexivity|].
  destruct (negb (strict_eq (get a "type") (get b "type"))); [reflexivity|].
  rewrite (propsOfNode_textual a Ht).
  assert (El : (if isLoose then removeNullary [] else []) = @nil (string * value))
    by (destruct isLoose; reflexivity).
  rewrite El. cbn [propsCompare keys map forallb negb has_key lookup orb].
  rewrite Ht. cbn [negb].
  destruct (has_key "children" _); [| reflexivity].
  unfold internalChildrenCompare. cbn.
  match goal with |- context [childrenToSimplifiedArray ?c] =>
    destruct (childrenToSimplifiedArray c) end; reflexivity.
Qed.

(** C5: for a textual [a], [nodeEqual(a, b)] and [nodeMatches(a, b)] hold
    exactly when [a === b], whatever the length comparator; a textual [a]
    that is not identical to [b] never passes the closing structural
    check. *)
Theorem textual_equal_iff_identical (a b : value) (lenComp : Z -> Z -> bool) :
  isTextualNode a = true ->
  nodeEqual a b lenComp = strict_eq a b
  /\ nodeMatches a b lenComp = strict_eq a b.
Proof.
  intros Ht. unfold nodeEqual, nodeMatches, nodeCompare.
  now rewrite !internalNodeCompare_textual.
Qed.

Lemma textual_equal_iff_identical_witness :
  isTextualNode (VStr "text") = true
  /\ nodeEqual (VStr "text") (VStr "text") object_is = true
  /\ nodeMatches (VStr "text") div_text leq = false.
Proof.
  split; [reflexivity|].
  destruct (textual_equal_iff_identical (VStr "text") (VStr "text") object_is eq_refl)
    as [H1 _].
  destruct (textual_equal_iff_identical (VStr "text") div_text leq eq_refl)
    as [_ H2].
  split; [rewrite H1 | rewrite H2]; reflexivity.
Defined.

(** ** Deep equality is symmetric *)

Lemma wf_members l fs :
  wf (VObj l fs) = true ->
  NoDup (map fst fs) /\ forall v, In v (map snd fs) -> wf v = true.
Proof.
  simpl. intros H. apply andb_true_iff in H as [H1 H2]. split.
  - now apply nodupb_NoDup.
  - rewrite forallb_forall in H2. intros v Hv.
    apply in_map_iff in Hv as [kv [E Hin]]. subst v. now apply H2.
Qed.

Lemma wf_items l xs x : wf (VArr l xs) = true -> In x xs -> wf x = true.
Proof. simpl. intros H Hin. rewrite forallb_forall in H. now apply H. Qed.

Lemma jstype_eqb_sym s t : jstype_eqb s t = jstype_eqb t s.
Proof. destruct s, t; reflexivity. Qed.

Lemma jstype_eqb_eq s t : jstype_eqb s t = true -> s = t.
Proof. destruct s, t; simpl; intros H; congruence. Qed.

Lemma number_sameValueZero_sym m n :
  number_sameValueZero m n = number_sameValueZero n m.
Proof.
  destruct m, n; simpl; try reflexivity; [apply Z.eqb_sym|].
  now destruct negative, negative0.
Qed.

Lemma isEqual_array l l' xs ys :
  isEqual (VArr l xs) (VArr l' ys)
  = (l =? l')%nat
    || ((List.length xs =? List.length ys)%nat
        && forallb (fun p => isEqual (fst p) (snd p)) (combine xs ys)).
Proof.
  cbn [isEqual]. f_equal.
  revert ys. induction xs as [| x xs IH]; intros [| y ys]; try reflexivity.
  cbn [List.length combine forallb fst snd]. rewrite IH.
  change (S (List.length xs) =? S (List.length ys))%nat
    with (List.length xs =? List.length ys)%nat.
  destruct (isEqual x y), (List.length xs =? List.length ys)%nat; reflexivity.
Qed.

Lemma isEqual_object l l' fs gs :
  isEqual (VObj l fs) (VObj l' gs)
  = (l =? l')%nat
    || ((List.length fs =? List.length gs)%nat
        && forallb (fun kv => match lookup (fst kv) gs with
                              | Some w => isEqual (snd kv) w
                              | None => false
                              end) fs).
Proof.
  reflexivity.
Qed.

Lemma isEqual_sym a : forall b,
  wf a = true -> wf b = true -> isEqual a b = isEqual b a.
Proof.
  induction a as [| | x | m | s | l fs IH | l xs IH | l fs IH] using value_deep_ind;
    intros b Ha Hb; destruct b; try reflexivity.
  - cbn. now destruct x, b.
  - cbn. apply number_sameValueZero_sym.
  - cbn. apply String.eqb_sym.
  - cbn. apply Nat.eqb_sym.
  - rewrite !isEqual_array. rewrite (Nat.eqb_sym l l0).
    rewrite (Nat.eqb_sym (List.length xs) (List.length items)).
    destruct (List.length items =? List.length xs)%nat eqn:El;
      [| now rewrite !andb_false_l].
    do 2 f_equal. clear El.
    revert items Hb. induction xs as [| x xs IHxs]; intros [| y ys] Hb;
      try reflexivity.
    cbn [combine forallb fst snd].
    inversion IH as [| ? ? Hx Hxs]; subst.
    rewrite (Hx y).
    + f_equal. apply IHxs; auto.
      * simpl in Ha. now apply andb_true_iff in Ha.
      * simpl in Hb. now apply andb_true_iff in Hb.
    + simpl in Ha. now apply andb_true_iff in Ha.
    + simpl in Hb. now apply andb_true_iff in Hb.
  - rewrite !isEqual_object. rewrite (Nat.eqb_sym l l0).
    rewrite (Nat.eqb_sym (List.length fs) (List.length fields)).
    destruct (List.length fields =? List.length fs)%nat eqn:El;
      [| now rewrite !andb_false_l].
    f_equal. cbn [andb]. apply Nat.eqb_eq in El.
    destruct (wf_members _ _ Ha) as [Hnf Hwf].
    destruct (wf_members _ _ Hb) as [Hng Hwg].
    rewrite Forall_forall in IH.
    assert (Hflip : forall v w, In v (map snd fs) -> In w (map snd fields) ->
                                isEqual v w = isEqual w v).
    { intros v w Hv Hw. apply in_map_iff in Hv as [kv [E Hin]]. subst v.
      apply (IH kv Hin); [apply Hwf | apply Hwg]; auto.
      now apply in_map. }
    apply eq_true_iff_eq. split; intros H.
    + apply (members_swap isEqual isEqual fs fields); auto.
      intros v w Hv Hw E. now rewrite <- Hflip.
    + apply (members_swap isEqual isEqual fields fs); auto.
      intros w v Hw Hv E. now rewrite Hflip.
Qed.

(** ** The props loop, read as a map inclusion *)

Lemma lookup_nonChildren k fs :
  (k =? "children")%string = false -> lookup k (nonChildren fs) = lookup k fs.
Proof.
  intros Hk. induction fs as [| [k' v] fs IH]; [reflexivity|].
  unfold nonChildren in *. simpl.
  destruct (k' =? "children")%string eqn:E; simpl.
  - destruct (k' =? k)%string eqn:E'; [| exact IH].
    apply String.eqb_eq in E, E'. subst. now rewrite String.eqb_refl in Hk.
  - now rewrite IH.
Qed.

(** For a name that no object inherits, [in] and the member read look at
    the object's own members only. *)
Lemma own_name_member k fs :
  own_name k = true ->
  has_member k fs = has_key k fs
  /\ member k fs = match lookup k fs with Some x => x | None => VUndefined end.
Proof.
  unfold own_name, has_member, member, has_key. intros H.
  apply negb_true_iff in H.
  destruct (lookup k object_prototype); [discriminate|].
  split; [apply orb_false_r | reflexivity].
Qed.

Lemma propsCompare_nonChildren left right :
  NoDup (map fst left) ->
  forallb own_name (keys left) = true ->
  propsCompare left right
  = forallb (fun kv => match lookup (fst kv) (nonChildren right) with
                       | Some r => valuesAgree (snd kv) r
                       | None => false
                       end) (nonChildren left).
Proof.
  intros Hnd Hown. unfold propsCompare, keys in *.
  rewrite forallb_forall in Hown.
  assert (G : forall fs, incl fs left ->
    forallb (fun prop =>
       if (prop =? "children")%string then true
       else if negb (has_member prop right) then false
       else valuesAgree (member prop left) (member prop right)) (map fst fs)
    = forallb (fun kv => match lookup (fst kv) (nonChildren right) with
                         | Some r => valuesAgree (snd kv) r
                         | None => false
                         end) (nonChildren fs)).
  { induction fs as [| [k v] fs IH]; intros Hincl; [reflexivity|].
    unfold nonChildren in *. simpl.
    assert (Hin : In (k, v) left) by (apply Hincl; now left).
    assert (Hrest : incl fs left) by (intros x Hx; apply Hincl; now right).
    destruct (k =? "children")%string eqn:E; simpl.
    - now apply IH.
    - assert (Hk : own_name k = true).
      { apply Hown. change k with (fst (k, v)). now apply in_map. }
      destruct (own_name_member k right Hk) as [-> ->].
      destruct (own_name_member k left Hk) as [_ ->].
      rewrite (lookup_NoDup _ _ _ Hnd Hin).
      fold (nonChildren right). rewrite (lookup_nonChildren _ _ E).
      unfold has_key. f_equal; [| now apply IH].
      destruct (lookup k right); reflexivity. }
  apply G. apply incl_refl.
Qed.

Lemma has_key_false_notin k fs :
  ~ In k (map fst fs) -> has_key k fs = false.
Proof.
  intros H. unfold has_key. destruct (lookup k fs) eqn:E; [| reflexivity].
  exfalso. apply H. apply lookup_In in E. change k with (fst (k, v)). now apply in_map.
Qed.

Lemma nonChildren_all fs :
  ~ In "children" (map fst fs) -> nonChildren fs = fs.
Proof.
  intros H. unfold nonChildren. apply filter_all. apply forallb_forall.
  intros [k v] Hin. simpl. apply negb_true_iff. apply String.eqb_neq.
  intros ->. apply H. change "children" with (fst ("children", v)). now apply in_map.
Qed.

(** [keys.length - hasChildren] counts the props other than [children]. *)
Lemma count_nonChildren fs :
  NoDup (map fst fs) ->
  (Z.of_nat (List.length (keys fs)) - bool_to_Z (has_key "children" fs))%Z
  = Z.of_nat (List.length (nonChildren fs)).
Proof.
  unfold keys. induction fs as [| [k v] fs IH]; intros Hnd; [reflexivity|].
  inversion Hnd as [| ? ? Hnotin Hnd']; subst.
  specialize (IH Hnd').
  unfold has_key, nonChildren in *. cbn [map List.length lookup filter fst].
  destruct (k =? "children")%string eqn:E.
  - apply String.eqb_eq in E. subst k. cbn [negb bool_to_Z].
    fold (nonChildren fs). rewrite (nonChildren_all _ Hnotin).
    rewrite length_map. lia.
  - cbn [negb List.length]. rewrite length_map in *.
    destruct (lookup "children" fs); cbn [bool_to_Z] in *; lia.
Qed.

Lemma valuesAgree_swap l r :
  wf l = true -> wf r = true -> valuesAgree l r = true -> valuesAgree r l = true.
Proof.
  unfold valuesAgree. intros Hl Hr. rewrite (strict_eq_sym l r).
  destruct (strict_eq r l); [reflexivity|].
  destruct (jstype_eqb (typeof r) (typeof l)) eqn:E1; [| discriminate].
  destruct (jstype_eqb (typeof l) TObject) eqn:E2; [| discriminate].
  cbn [andb]. intros H.
  apply jstype_eqb_eq in E1. rewrite E1.
  assert (E3 : jstype_eqb (typeof l) (typeof l) = true) by (destruct (typeof l); reflexivity).
  rewrite E3, E2. cbn [andb]. now rewrite <- isEqual_sym.
Qed.

(** With equal counts the inclusion tested by the loop goes both ways. *)
Lemma propsCompare_swap left right :
  NoDup (map fst left) -> NoDup (map fst right) ->
  forallb own_name (keys left) = true -> forallb own_name (keys right) = true ->
  (forall v, In v (map snd left) -> wf v = true) ->
  (forall v, In v (map snd right) -> wf v = true) ->
  object_is
    (Z.of_nat (List.length (keys left)) - bool_to_Z (has_key "children" left))
    (Z.of_nat (List.length (keys right)) - bool_to_Z (has_key "children" right)) = true ->
  propsCompare left right = true ->
  propsCompare right left = true.
Proof.
  intros Hl Hr Ol Or Wl Wr Hcount Hcmp.
  rewrite (propsCompare_nonChildren _ _ Hl Ol) in Hcmp.
  rewrite (propsCompare_nonChildren _ _ Hr Or).
  unfold object_is in Hcount. apply Z.eqb_eq in Hcount.
  rewrite !count_nonChildren in Hcount by assumption.
  apply Nat2Z.inj in Hcount.
  apply (members_swap (fun l r => valuesAgree l r) (fun r l => valuesAgree r l)
           (nonChildren left) (nonChildren right)); auto.
  - now apply NoDup_keys_filter.
  - now apply NoDup_keys_filter.
  - intros v w Hv Hw. apply valuesAgree_swap.
    + apply Wl. apply in_map_iff in Hv as [kv [E Hin]].
      apply filter_In in Hin as [Hin _]. rewrite <- E. now apply in_map.
    + apply Wr. apply in_map_iff in Hw as [kv [E Hin]].
      apply filter_In in Hin as [Hin _]. rewrite <- E. now apply in_map.
Qed.

(** ** Nodes stay nodes under the comparator's reads *)

Lemma wf_get v k : wf v = true -> wf (get v k) = true.
Proof.
  intros H. destruct v; try reflexivity; simpl;
    destruct (lookup k fields) eqn:E; try reflexivity;
    simpl in H; apply andb_true_iff in H as [_ H];
    rewrite forallb_forall in H; apply lookup_In in E; apply (H _ E).
Qed.

Lemma wf_fun_members l fs :
  wf (VFun l fs) = true ->
  NoDup (map fst fs) /\ forall v, In v (map snd fs) -> wf v = true.
Proof. exact (wf_members l fs). Qed.

Lemma string_of_nat_inj : Injective string_of_nat.
Proof.
  intros m n H. unfold string_of_nat in H.
  assert (Hnil : forall k, Nat.to_uint k <> Decimal.Nil).
  { intros k E. pose proof (Unsigned.of_to k) as Hk. rewrite E in Hk. cbn in Hk.
    subst k. discriminate. }
  apply (f_equal NilZero.uint_of_string) in H.
  rewrite !NilZero.usu in H by apply Hnil.
  injection H as H. now apply Unsigned.to_uint_inj.
Qed.

Lemma indexed_entries_keys xs :
  map fst (indexed_entries xs) = map string_of_nat (seq 0 (List.length xs)).
Proof.
  unfold indexed_entries.
  assert (forall (ks : list string) (ys : list value),
             List.length ks = List.length ys -> map fst (combine ks ys) = ks) as G.
  { induction ks as [| k ks IH]; intros [| y ys] E; try discriminate; [reflexivity|].
    cbn. f_equal. apply IH. now injection E. }
  apply G. now rewrite length_map, length_seq.
Qed.

Lemma indexed_entries_NoDup xs : NoDup (map fst (indexed_entries xs)).
Proof.
  rewrite indexed_entries_keys.
  apply Injective_map_NoDup; [exact string_of_nat_inj | apply seq_NoDup].
Qed.

Lemma entries_wf p :
  wf p = true ->
  NoDup (map fst (entries p))
  /\ forall v, In v (map snd (entries p)) -> wf v = true.
Proof.
  intros Hp.
  destruct p as [| | | | s | l fs | l xs | l fs]; cbn [entries];
    try (split; [constructor | contradiction]).
  - split; [apply indexed_entries_NoDup|].
    intros v Hv. apply in_map_iff in Hv as [[k x] [<- Hin]].
    unfold indexed_entries in Hin. apply in_combine_r in Hin.
    apply in_map_iff in Hin as [c [<- _]]. reflexivity.
  - destruct (wf_fun_members _ _ Hp) as [Hnd Hwf]. split.
    + now apply NoDup_keys_filter.
    + intros v Hv. apply Hwf. apply in_map_iff in Hv as [kv [E Hin]].
      apply filter_In in Hin as [Hin _]. rewrite <- E. now apply in_map.
  - split; [apply indexed_entries_NoDup|].
    intros v Hv. apply in_map_iff in Hv as [[k x] [<- Hin]].
    unfold indexed_entries in Hin. apply in_combine_r in Hin.
    exact (wf_items _ _ _ Hp Hin).
  - exact (wf_members _ _ Hp).
Qed.

Lemma propsOfNode_wf a :
  wf a = true ->
  NoDup (map fst (propsOfNode a))
  /\ forall v, In v (map snd (propsOfNode a)) -> wf v = true.
Proof.
  intros H. unfold propsOfNode.
  set (p := if truthy a then get a "props" else a).
  assert (Hp : wf p = true) by (subst p; destruct (truthy a); [now apply wf_get | exact H]).
  destruct (truthy p); [| split; [constructor | contradiction]].
  destruct (entries_wf p Hp) as [Hnd Hwf]. split.
  - now apply NoDup_keys_filter.
  - intros v Hv. apply Hwf. apply in_map_iff in Hv as [kv [E Hin]].
    apply filter_In in Hin as [Hin _]. rewrite <- E. now apply in_map.
Qed.

(** The props of a node are the members of its [props] object. *)
Lemma propsOfNode_shaped a kv :
  shaped AsNode a = true ->
  In kv (propsOfNode a) ->
  exists l fs lp ps,
    a = VObj l fs /\ lookup "props" fs = Some (VObj lp ps)
    /\ shaped AsProps (VObj lp ps) = true /\ In kv ps.
Proof.
  intros Hs Hin. unfold propsOfNode in Hin. apply filter_In in Hin as [Hin _].
  destruct (truthy a) eqn:Ta; [| rewrite Ta in Hin; contradiction].
  destruct a as [| | | | | | | l fs]; try discriminate; try contradiction.
  cbn [get] in Hin.
  destruct (lookup "props" fs) as [p |] eqn:Ep; [| contradiction].
  cbn [shaped] in Hs. apply andb_true_iff in Hs as [_ Hs].
  pose proof (forallb_keyed (shaped AsProps) _ _ _ Hs (lookup_In _ _ _ Ep)) as Hps.
  destruct (truthy p); [| contradiction].
  destruct p as [| | | | | | | lp ps]; try contradiction; try discriminate.
  exists l, fs, lp, ps. auto.
Qed.

Lemma propsOfNode_children_shaped a c :
  shaped AsNode a = true ->
  In ("children", c) (propsOfNode a) ->
  shaped AsChildren c = true.
Proof.
  intros Hs Hin.
  destruct (propsOfNode_shaped a _ Hs Hin) as [l [fs [lp [ps [_ [_ [Hps Hc]]]]]]].
  cbn [shaped] in Hps. rewrite forallb_forall in Hps. specialize (Hps _ Hc).
  cbn [fst snd] in Hps. apply andb_true_iff in Hps as [_ Hps]. exact Hps.
Qed.

(** ... and none of them is named like a member every object inherits. *)
Lemma propsOfNode_own_names a :
  shaped AsNode a = true -> forallb own_name (keys (propsOfNode a)) = true.
Proof.
  intros Hs. apply forallb_forall. intros k Hk. unfold keys in Hk.
  apply in_map_iff in Hk as [kv [<- Hin]].
  destruct (propsOfNode_shaped a _ Hs Hin) as [l [fs [lp [ps [_ [_ [Hps Hc]]]]]]].
  cbn [shaped] in Hps. rewrite forallb_forall in Hps. specialize (Hps _ Hc).
  now apply andb_true_iff in Hps as [Hps _].
Qed.

Lemma shaped_child_node x :
  kept x = true -> shaped AsChild x = true -> shaped AsNode x = true.
Proof. destruct x as [| | [|] | | | | |]; cbn; intros; auto; discriminate. Qed.

Lemma shaped_only_child_node x :
  isArray x = false -> kept x = true ->
  shaped AsChildren x = true -> shaped AsNode x = true.
Proof. destruct x as [| | [|] | | | | |]; cbn; intros; auto; discriminate. Qed.

Lemma childrenToArray_nodes c :
  wf c = true -> shaped AsChildren c = true ->
  Forall (fun x => is_node x = true) (childrenToArray c).
Proof.
  intros Hw Hs. unfold childrenToArray.
  destruct (isArray c) eqn:Ea.
  - destruct c as [| | | | | | l xs |]; try discriminate.
    apply Forall_forall. intros x Hx. apply filter_In in Hx as [Hx Hk].
    unfold is_node. rewrite (wf_items _ _ _ Hw Hx). cbn [shaped] in Hs.
    rewrite forallb_forall in Hs. now apply shaped_child_node, Hs.
  - assert (E : match c with
                | VArr _ xs => filter (fun el => negb (is_nothing el)) xs
                | _ => if is_nothing c then [] else [c]
                end = if is_nothing c then [] else [c])
      by (destruct c; try reflexivity; discriminate).
    rewrite E. destruct (is_nothing c) eqn:En; constructor; [| constructor].
    unfold is_node. rewrite Hw. apply shaped_only_child_node; auto.
    unfold kept. now rewrite En.
Qed.

Lemma js_add_node a b :
  isTextualNode a = true -> isTextualNode b = true -> is_node (js_add a b) = true.
Proof. destruct a; try discriminate; destruct b; try discriminate; reflexivity. Qed.

Lemma simplify_step_nodes acc child :
  Forall (fun x => is_node x = true) acc -> is_node child = true ->
  Forall (fun x => is_node x = true) (simplify_step acc child).
Proof.
  intros Ha Hc. unfold simplify_step.
  destruct acc as [| a acc'] using rev_ind.
  - rewrite pop_nil. cbn. unfold push. cbn. auto.
  - clear IHacc'. rewrite pop_snoc. apply Forall_app in Ha as [Ha1 Ha2].
    unfold push. inversion Ha2; subst.
    destruct (is_undefined a); [| destruct (isTextualNode child && isTextualNode a) eqn:E].
    + apply Forall_app. split; auto.
    + apply andb_true_iff in E as [E1 E2].
      apply Forall_app. split; auto. constructor; auto. now apply js_add_node.
    + rewrite <- app_assoc. apply Forall_app. split; auto. cbn. auto.
Qed.

Lemma childrenToSimplifiedArray_nodes c :
  wf c = true -> shaped AsChildren c = true ->
  Forall (fun x => is_node x = true) (childrenToSimplifiedArray c).
Proof.
  intros Hw Hs. unfold childrenToSimplifiedArray.
  pose proof (childrenToArray_nodes c Hw Hs) as H.
  assert (G : forall xs acc,
             Forall (fun x => is_node x = true) xs ->
             Forall (fun x => is_node x = true) acc ->
             Forall (fun x => is_node x = true) (fold_left simplify_step xs acc)).
  { induction xs as [| x xs IH]; intros acc Hx Ha; simpl; [exact Ha|].
    inversion Hx; subst. apply IH; auto. now apply simplify_step_nodes. }
  now apply G.
Qed.

(** The children the comparator descends into are nodes again. *)
Lemma simplified_children_nodes a :
  is_node a = true ->
  Forall (fun x => is_node x = true)
    (childrenToSimplifiedArray
       (match lookup "children" (propsOfNode a) with Some c => c | None => VUndefined end)).
Proof.
  intros H. unfold is_node in H. apply andb_true_iff in H as [Hw Hs].
  destruct (lookup "children" (propsOfNode a)) as [c |] eqn:E.
  - apply lookup_In in E. apply childrenToSimplifiedArray_nodes.
    + destruct (propsOfNode_wf a Hw) as [_ Hv]. apply Hv.
      change c with (snd ("children", c)). now apply in_map.
    + now apply (propsOfNode_children_shaped a).
  - cbn. constructor.
Qed.

(** A node that is not textual carries a type; a textual one has none. *)
Lemma typed_like_textual a b :
  is_node a = true -> is_node b = true ->
  strict_eq (get a "type") (get b "type") = true ->
  isTextualNode a = false -> isTextualNode b = false.
Proof.
  unfold is_node. intros Ha Hb Ht Hn.
  apply andb_true_iff in Ha as [_ Ha]. apply andb_true_iff in Hb as [_ Hb].
  destruct a as [| | [|] | | | | | l fs]; try discriminate.
  cbn [shaped] in Ha. apply andb_true_iff in Ha as [Ha _].
  unfold has_type in Ha. cbn [get] in Ht.
  destruct (lookup "type" fs) as [t |]; [| discriminate].
  destruct b as [| | [|] | | | | |]; try discriminate; try reflexivity;
    cbn [get] in Ht; destruct t; discriminate.
Qed.

(** ** Symmetry of the strict comparison *)

Lemma everyPair_swap (f g : value -> value -> option bool) a : forall b,
  List.length a = List.length b ->
  (forall x y, In x a -> In y b -> f x y = Some true -> g y x = Some true) ->
  everyPair f a b = Some true -> everyPair g b a = Some true.
Proof.
  induction a as [| x a IH]; intros [| y b] Hlen Hfg; try discriminate; [reflexivity|].
  cbn [everyPair hd tl].
  destruct (f x y) as [[|] |] eqn:E; try discriminate.
  intros H. rewrite (Hfg x y); auto; try now left.
  apply IH; auto.
  intros x' y' Hx' Hy'. apply Hfg; now right.
Qed.

Lemma internalChildrenCompare_swap (f g : value -> value -> option bool) a b :
  (forall x y, In x a -> In y b -> f x y = Some true -> g y x = Some true) ->
  internalChildrenCompare f a b = Some true ->
  internalChildrenCompare g b a = Some true.
Proof.
  intros Hfg. unfold internalChildrenCompare.
  rewrite (Nat.eqb_sym (List.length b) (List.length a)).
  destruct (List.length a =? List.length b)%nat eqn:El; [| discriminate].
  cbn [negb]. rewrite (andb_comm (List.length b =? 0)%nat).
  destruct (_ && _); [reflexivity|].
  apply Nat.eqb_eq in El. now apply everyPair_swap.
Qed.

Lemma internalNodeCompare_swap fuel : forall a b,
  is_node a = true -> is_node b = true -> height b < fuel ->
  internalNodeCompare fuel a b object_is false = Some true ->
  internalNodeCompare fuel b a object_is false = Some true.
Proof.
  induction fuel as [| fuel IH]; intros a b Ha Hb Hh H; [discriminate|].
  cbn [internalNodeCompare] in H |- *.
  rewrite (strict_eq_sym b a).
  destruct (strict_eq a b); [reflexivity|].
  rewrite (orb_comm (negb (truthy b))).
  destruct (negb (truthy a) || negb (truthy b)); [discriminate|].
  rewrite (strict_eq_sym (get b "type")).
  destruct (strict_eq (get a "type") (get b "type")) eqn:Et; [| discriminate].
  cbn [negb] in H |- *.
  destruct (propsCompare (propsOfNode a) (propsOfNode b)) eqn:Ep; [| discriminate].
  cbn [negb] in H.
  rewrite (orb_comm (has_key "children" (propsOfNode b))).
  pose proof (simplified_children_nodes a Ha) as Na.
  pose proof (simplified_children_nodes b Hb) as Nb.
  rewrite Forall_forall in Na, Nb.
  match type of H with
  | match ?c with _ => _ end = _ => destruct c as [[|] |] eqn:Ec; try discriminate
  end.
  destruct (isTextualNode a) eqn:Ta; [discriminate|]. cbn [negb] in H.
  injection H as Hc.
  assert (Hw := Ha). assert (Hw' := Hb). unfold is_node in Hw, Hw'.
  apply andb_true_iff in Hw as [Hw _]. apply andb_true_iff in Hw' as [Hw' _].
  destruct (propsOfNode_wf a Hw) as [Ka Wa].
  destruct (propsOfNode_wf b Hw') as [Kb Wb].
  assert (Oa : forallb own_name (keys (propsOfNode a)) = true)
    by (apply propsOfNode_own_names; unfold is_node in Ha;
        now apply andb_true_iff in Ha as [_ Ha]).
  assert (Ob : forallb own_name (keys (propsOfNode b)) = true)
    by (apply propsOfNode_own_names; unfold is_node in Hb;
        now apply andb_true_iff in Hb as [_ Hb]).
  rewrite (propsCompare_swap _ _ Ka Kb Oa Ob Wa Wb Hc Ep). cbn [negb].
  match goal with
  | |- match ?d with _ => _ end = _ => assert (Ed : d = Some true)
  end.
  { destruct (_ || _); [| reflexivity].
    revert Ec. apply internalChildrenCompare_swap.
    intros x y Hx Hy. apply IH; auto.
    apply (simplified_children_below b false) in Hy. lia. }
  rewrite Ed.
  rewrite (typed_like_textual a b Ha Hb Et Ta). cbn [negb].
  unfold object_is in *. now rewrite Z.eqb_sym, Hc.
Qed.

Lemma nodeEqual_symmetric a b :
  is_node a = true -> is_node b = true ->
  nodeEqual a b object_is = nodeEqual b a object_is.
Proof.
  intros Ha Hb. unfold nodeEqual.
  set (fuel := S (Nat.max (height a) (height b))).
  pose proof (nodeCompare_run object_is false a b fuel ltac:(subst fuel; lia)) as Eab.
  pose proof (nodeCompare_run object_is false b a fuel ltac:(subst fuel; lia)) as Eba.
  destruct (nodeCompare a b object_is false) eqn:Rab.
  - apply internalNodeCompare_swap in Eab; auto; [| subst fuel; lia]. congruence.
  - destruct (nodeCompare b a object_is false) eqn:Rba; [| reflexivity].
    apply internalNodeCompare_swap in Eba; auto; [| subst fuel; lia]. congruence.
Qed.

(** The number [NaN] is not equal to itself, as [NaN === NaN] fails. *)
Lemma nodeEqual_NaN : nodeEqual (VNum NaN) (VNum NaN) object_is = false.
Proof. reflexivity. Qed.

(** With [true] for a child the strict comparison holds in one direction
    only: [true] has neither type nor props, so it compares equal to any
    text when it stands on the left, and the closing test rejects the text
    when that stands on the left. *)
Lemma nodeEqual_asymmetric_on_true_child :
  nodeEqual div_true div_text object_is = true
  /\ nodeEqual div_text div_true object_is = false.
Proof. split; reflexivity. Qed.

(** The same with an array for a child, as [{items.map(...)}] next to a
    sibling produces it. *)
Lemma nodeEqual_asymmetric_on_nested_array :
  nodeEqual div_nested div_heading_text object_is = true
  /\ nodeEqual div_heading_text div_nested object_is = false.
Proof. split; reflexivity. Qed.

(** With a prop named like a member every object inherits, and holding
    that very member, the strict comparison holds in one direction only:
    [toString in right] is true of every [right]. *)
Lemma nodeEqual_asymmetric_on_inherited_name :
  nodeEqual (element 90 "div" [("toString", VFun 908 [])])
            (element 92 "div" [("title", VStr "x")]) object_is = true
  /\ nodeEqual (element 92 "div" [("title", VStr "x")])
               (element 90 "div" [("toString", VFun 908 [])]) object_is = false.
Proof. split; reflexivity. Qed.

(** C3, as the code has it: [nodeEqual(a, a)] holds for every [a] except
    [NaN]; [nodeEqual] is symmetric on nodes (leaves, and typed objects
    whose [props] is an object with member names of its own only and whose
    [props.children] hold nodes only); [nodeMatches] under the loose
    length comparator [<=] is not symmetric even there. *)
Theorem nodeEqual_reflexive_and_symmetric_on_nodes :
  (forall a, a <> VNum NaN -> nodeEqual a a object_is = true)
  /\ (forall a b, is_node a = true -> is_node b = true ->
                  nodeEqual a b object_is = nodeEqual b a object_is)
  /\ (exists a b, is_node a = true /\ is_node b = true
                  /\ nodeMatches a b leq = true /\ nodeMatches b a leq = false).
Proof.
  split; [| split].
  - intros a Ha. apply nodeCompare_identical. now apply strict_eq_refl.
  - apply nodeEqual_symmetric.
  - exists div_plain, div_titled. repeat split.
Qed.

Lemma nodeEqual_reflexive_and_symmetric_on_nodes_witness :
  is_node list_one = true /\ is_node list_two = true
  /\ nodeEqual list_one list_one object_is = true
  /\ nodeEqual list_one list_two object_is = nodeEqual list_two list_one object_is.
Proof.
  destruct nodeEqual_reflexive_and_symmetric_on_nodes as [Hrefl [Hsym _]].
  split; [reflexivity | split; [reflexivity | split]].
  - apply Hrefl. discriminate.
  - apply Hsym; reflexivity.
Defined.

(** ** Results of monadic code *)

Lemma bind_Ok {A B} (r : result A) (k : A -> result B) b :
  bind r k = Ok b -> exists a, r = Ok a /\ k a = Ok b.
Proof. destruct r; simpl; intros H; [eauto | discriminate]. Qed.

Lemma Subseq_refl {A} (l : list A) : Subseq l l.
Proof. induction l; constructor; auto. Qed.

Lemma Subseq_filter {A} (p : A -> bool) l k :
  Subseq l k -> Subseq (filter p l) k.
Proof.
  induction 1; simpl.
  - constructor.
  - destruct (p x); now constructor.
  - now constructor.
Qed.

Lemma array_filter_sound {A} (p : A -> result bool) xs : forall kept,
  array_filter p xs = Ok kept ->
  Forall (fun x => p x = Ok true) kept /\ Subseq kept xs.
Proof.
  induction xs as [| x xs IH]; simpl; intros kept H.
  - injection H as <-. split; constructor.
  - apply bind_Ok in H as [keep [Hp H]].
    apply bind_Ok in H as [rest [Hr H]]. injection H as <-.
    destruct (IH rest Hr) as [IH1 IH2].
    destruct keep; split; try constructor; auto.
Qed.

(** ** Filtering *)

Lemma filterWhereUnwrapped_sound insts predicate kept :
  filterWhereUnwrapped insts predicate = Ok kept ->
  Forall (fun n => predicate n = Ok true) kept /\ Subseq kept insts.
Proof.
  unfold filterWhereUnwrapped, compact. intros H.
  apply bind_Ok in H as [all [Ha H]]. injection H as <-.
  destruct (array_filter_sound _ _ _ Ha) as [H1 H2]. split.
  - rewrite Forall_forall in *. intros n Hn. apply filter_In in Hn as [Hn _]. auto.
  - now apply Subseq_filter.
Qed.

(** C6: every node of [w.filter(s)] satisfies the predicate compiled from
    [s], and the nodes of [w.filter(s)] are an order-preserving
    subsequence of those of [w]. *)
Theorem filter_keeps_matching_subsequence {ext : Collaborators}
    (w : Wrapper) (s : value) (w' : Wrapper) :
  filter_ w s = Ok w' ->
  exists predicate,
    buildPredicate s = Ok predicate
    /\ Forall (fun n => predicate n = Ok true) (instances w')
    /\ Subseq (instances w') (instances w).
Proof.
  unfold filter_. intros H.
  apply bind_Ok in H as [predicate [Hp H]].
  apply bind_Ok in H as [kept [Hk H]]. injection H as <-.
  exists predicate. split; [exact Hp|].
  now apply filterWhereUnwrapped_sound.
Qed.

Lemma filter_keeps_matching_subsequence_witness :
  exists predicate,
    @buildPredicate sample_collaborators (VStr "div") = Ok predicate
    /\ Forall (fun n => predicate n = Ok true) [div_instance]
    /\ Subseq [div_instance] (instances pair_wrapper).
Proof.
  exact (@filter_keeps_matching_subsequence sample_collaborators
           pair_wrapper (VStr "div") (wrap pair_wrapper [div_instance]) eq_refl).
Defined.

(** ** What the query methods hand back *)




(** Every query method but [not] hands back a wrapper. *)
Lemma query_returns_wrapper {ext : Collaborators} w q r :
  (forall s, q <> QNot s) -> call_query w q = Ok r -> exists w', r = RWrapper w'.
Proof.
  intros Hq. destruct q; simpl; intros H;
    try (apply bind_Ok in H as [x [_ H]]); try (injection H as <-; eauto; fail).
  now destruct (Hq selector).
Qed.

(** [not] hands back the array of [filterWhereUnwrapped] itself, whatever
    the wrapper and the selector. *)
Lemma not_returns_array {ext : Collaborators} w s r :
  call_query w (QNot s) = Ok r -> exists xs, r = RArray xs.
Proof.
  simpl. intros H. apply bind_Ok in H as [xs [_ H]]. injection H as <-. eauto.
Qed.

(** C1 (at [not]): on the wrapper of a mounted [<div>hi</div>],
    [not("span")] evaluates to a bare array holding the [div] instance, an
    object with neither [rootRef] nor renderer, not to a wrapper. *)
Theorem not_hands_back_bare_array :
  @call_query sample_collaborators root_wrapper (QNot (VStr "span"))
  = Ok (RArray [div_instance]).
Proof. reflexivity. Qed.

(** The walk up the [parent] members ends: [parentsOfInstance] never takes
    its [None] branch. *)
Lemma parentsOfInstance_enough fuel : forall root inst parents,
  height inst + 2 <= fuel ->
  parentsOfInstance_fuel fuel root inst parents <> None.
Proof.
  induction fuel as [| fuel IH]; intros root inst parents Hh; [lia|].
  cbn [parentsOfInstance_fuel].
  destruct (getprop inst "parent") as [parent | e] eqn:E; [| discriminate].
  apply getprop_get in E.
  destruct (truthy parent && strict_eq (get parent "instance") root); [discriminate|].
  destruct (height_get inst "parent") as [H | H]; rewrite <- E in H.
  - apply IH. lia.
  - subst parent. rewrite H. destruct fuel as [| fuel']; [lia | discriminate].
Qed.

(** ** Single-node accessors *)

Lemma single_wrong_length {A} (w : Wrapper) name (fn : value -> result A) :
  wlength w <> 1 ->
  single w name fn = Throw (SingleNodeRequiredError name (wlength w)).
Proof.
  intros H. unfold single. apply Nat.eqb_neq in H. now rewrite H.
Qed.

Lemma single_one {A} (w : Wrapper) name (fn : value -> result A) :
  wlength w = 1 -> single w name fn = fn (index (instances w) 0).
Proof. intros H. unfold single. now rewrite H. Qed.

Lemma getprop_no_single v k : ~ throws_single (getprop v k).
Proof. intros [f [n H]]. destruct v; discriminate. Qed.

Lemma bind_no_single {A B} (r : result A) (k : A -> result B) :
  ~ throws_single r -> (forall a, ~ throws_single (k a)) ->
  ~ throws_single (bind r k).
Proof.
  intros Hr Hk. destruct r as [a | e]; simpl; [apply Hk|].
  intros [f [n H]]. apply Hr. exists f, n. congruence.
Qed.

Lemma Ok_no_single {A} (a : A) : ~ throws_single (Ok a).
Proof. intros [f [n H]]. discriminate. Qed.

Lemma isRoot_no_single w : ~ throws_single (isRoot w).
Proof.
  unfold isRoot. destruct (truthy _); [| apply Ok_no_single].
  apply bind_no_single; [apply getprop_no_single|]. intros p.
  apply bind_no_single; [apply getprop_no_single|]. intros i. apply Ok_no_single.
Qed.

#[local] Ltac no_single :=
  repeat first
    [ apply getprop_no_single
    | apply Ok_no_single
    | apply isRoot_no_single
    | apply bind_no_single; [| intro]
    | match goal with
      | |- ~ throws_single (if ?c then _ else _) => destruct c
      | |- ~ throws_single (match ?o with Some _ => _ | None => _ end) => destruct o
      | |- ~ throws_single (Throw (RootRequiredError _)) =>
          let f := fresh in let n := fresh in let H := fresh in
          intros [f [n H]]; discriminate
      | |- ~ throws_single (Throw (PlainError _)) =>
          let f := fresh in let n := fresh in let H := fresh in
          intros [f [n H]]; discriminate
      end ].

Lemma accessor_on_one_node w acc :
  wlength w = 1 -> ~ throws_single (call_accessor w acc).
Proof.
  intros H1.
  destruct acc as [| p | n | n | | | |]; cbn [call_accessor];
    unfold props, prop, state, context, instance, type, key, name, props;
    rewrite ?(single_one _ _ _ H1); no_single.
Qed.

(** On a wrapper over nothing, [state()] raises the root error, not the
    single-node error. *)
Lemma state_on_empty_wrapper_requires_root :
  call_accessor empty_wrapper (AState None) = Throw (RootRequiredError "state")
  /\ wlength empty_wrapper = 0.
Proof. split; reflexivity. Qed.

(** C7, as the code has it.  On a wrapper of length 0 or at least 2:
    [props], [prop], [instance], [type], [key] and [name] raise the
    single-node error, which carries the name handed to [single] ([prop]
    reports [props]) and the length found; [state] and [context] test
    [isRoot()] first, raise the root error when it answers falsy and the
    single-node error when it answers truthy.  On a wrapper of length 1 no
    accessor raises the single-node error. *)
Theorem single_node_accessors (w : Wrapper) (acc : accessor) :
  (wlength w <> 1 -> root_guarded acc = false ->
   call_accessor w acc
   = Throw (SingleNodeRequiredError (reported_name acc) (wlength w)))
  /\ (wlength w <> 1 -> root_guarded acc = true ->
      forall r, isRoot w = Ok r ->
      call_accessor w acc
      = if truthy r
        then Throw (SingleNodeRequiredError (reported_name acc) (wlength w))
        else Throw (RootRequiredError (accessor_name acc)))
  /\ (wlength w = 1 -> ~ throws_single (call_accessor w acc)).
Proof.
  split; [| split].
  - intros Hl Hg.
    destruct acc as [| p | n | n | | | |]; try discriminate;
      cbn [call_accessor reported_name accessor_name];
      unfold props, prop, instance, type, key, name, props;
      now rewrite single_wrong_length.
  - intros Hl Hg r Hr.
    destruct acc as [| p | n | n | | | |]; try discriminate;
      cbn [call_accessor reported_name accessor_name];
      unfold state, context; rewrite Hr; cbn [bind];
      destruct (truthy r); cbn [negb]; try reflexivity;
      now rewrite single_wrong_length.
  - apply accessor_on_one_node.
Qed.

Lemma single_node_accessors_witness :
  call_accessor pair_wrapper (AProp "title")
  = Throw (SingleNodeRequiredError "props" 2)
  /\ call_accessor pair_wrapper (AState None)
     = Throw (SingleNodeRequiredError "state" 2)
  /\ ~ throws_single (call_accessor root_wrapper AType).
Proof.
  destruct (single_node_accessors pair_wrapper (AProp "title")) as [H1 _].
  destruct (single_node_accessors pair_wrapper (AState None)) as [_ [H2 _]].
  destruct (single_node_accessors root_wrapper AType) as [_ [_ H3]].
  split; [| split].
  - apply H1; [discriminate | reflexivity].
  - apply (H2 ltac:(discriminate) eq_refl (VBool true) eq_refl).
  - apply H3. reflexivity.
Defined.

(** ** Root-only mutators *)

(** When [isRoot()] answers falsy, the three mutators raise the root
    error before they look at any argument. *)
Lemma mutators_require_root w m r :
  isRoot w = Ok r -> truthy r = false ->
  call_mutator w m = Throw (RootRequiredError (mutator_name m)).
Proof.
  intros Hr Ht.
  destruct m; cbn [call_mutator mutator_name];
    unfold setProps, setState, setContext; rewrite Hr; cbn [bind];
    now rewrite Ht.
Qed.

(** C8 (at wrappers whose first node has no parent object): [children()]
    of the wrapper of a mounted [<div>hi</div>] wraps the text [hi], whose
    [parent] is [undefined]; [parent()] of it wraps the instance on top of
    the tree, whose [parent] is [null].  On both, [isRoot()] fails on
    [first.parent.instance], and each mutator ends in that TypeError
    instead of the root error, whatever its arguments. *)
Theorem mutators_on_parentless_node_raise_TypeError :
  (@children sample_collaborators root_wrapper VUndefined = Ok text_wrapper
   /\ forall m : mutator,
        call_mutator text_wrapper m
        = Throw (RuntimeTypeError "Cannot read property 'instance' of undefined"))
  /\ (parent root_wrapper = Ok top_wrapper
      /\ forall m : mutator,
           call_mutator top_wrapper m
           = Throw (RuntimeTypeError "Cannot read property 'instance' of null")).
Proof.
  split; (split; [reflexivity|]); intros m; destruct m; reflexivity.
Qed.

(** ** All-matching and any-matching checks *)

(** On [null] the any-matching check answers [false]. *)
Lemma containsAnyMatchingElements_null_is_false :
  @containsAnyMatchingElements sample_collaborators root_wrapper VNull = Ok false.
Proof. reflexivity. Qed.

(** C9, as the code has it: on an argument that is not an array the
    all-matching check raises the invalid-argument error and the
    any-matching check returns [false]. *)
Theorem matching_checks_on_non_array {ext : Collaborators}
    (w : Wrapper) (nodes : value) :
  isArray nodes = false ->
  containsAllMatchingElements w nodes
  = Throw (InvalidArgumentError "nodes should be an Array")
  /\ containsAnyMatchingElements w nodes = Ok false.
Proof.
  intros H. destruct nodes; try discriminate; split; reflexivity.
Qed.

Lemma matching_checks_on_non_array_witness :
  isArray (VStr "div") = false
  /\ @containsAllMatchingElements sample_collaborators root_wrapper (VStr "div")
     = Throw (InvalidArgumentError "nodes should be an Array")
  /\ @containsAnyMatchingElements sample_collaborators root_wrapper (VStr "div")
     = Ok false.
Proof.
  split; [reflexivity|].
  exact (@matching_checks_on_non_array sample_collaborators root_wrapper
           (VStr "div") eq_refl).
Defined.

(** ** The root element across derivations *)






(** * Further properties *)

(** ** Where the traversal succeeds *)

Lemma forEach_each_ok {St} (f : value -> St -> option (St * result unit)) xs :
  forall s s', forEach f xs s = Some (s', Ok tt) ->
  forall x, In x xs -> exists s1 s2, f x s1 = Some (s2, Ok tt).
Proof.
  induction xs as [| y xs IH]; intros s s' H x Hx; [contradiction|].
  cbn [forEach] in H.
  destruct (f y s) as [[s1 [[] | e]] |] eqn:E; try discriminate.
  destruct Hx as [-> | Hx]; [eauto | eapply IH; eauto].
Qed.

Lemma walkable_intro v fs l xs :
  (v = VObj l fs \/ v = VFun l fs) ->
  NoDup (map fst fs) ->
  forall l', lookup "children" fs = Some (VArr l' xs) ->
  forallb walkable xs = true -> walkable v = true.
Proof.
  intros Hv Hnd l' E Hxs.
  assert (G : has_key "children" fs &&
              forallb (fun kv => if (fst kv =? "children")%string
                                 then match snd kv with
                                      | VArr _ xs => forallb walkable xs
                                      | _ => false
                                      end
                                 else true) fs = true).
  { unfold has_key. rewrite E. cbn [andb].
    apply forallb_forall. intros [k c] Hin. cbn [fst snd].
    destruct (k =? "children")%string eqn:Ek; [| reflexivity].
    apply String.eqb_eq in Ek. subst k.
    rewrite (lookup_NoDup _ _ _ Hnd Hin) in E. injection E as ->. exact Hxs. }
  destruct Hv as [-> | ->]; exact G.
Qed.

Lemma wf_fields v l fs :
  (v = VObj l fs \/ v = VFun l fs) -> wf v = true ->
  NoDup (map fst fs) /\ forall k x, lookup k fs = Some x -> wf x = true.
Proof.
  intros Hv Hw.
  assert (G : nodupb (map fst fs) && forallb (fun kv => wf (snd kv)) fs = true)
    by (destruct Hv as [-> | ->]; exact Hw).
  apply andb_true_iff in G as [G1 G2]. split; [now apply nodupb_NoDup|].
  intros k x E. apply lookup_In in E. rewrite forallb_forall in G2.
  exact (G2 _ E).
Qed.

Lemma treeForEach_fuel_ok_walkable {St} (fn : callback St) fuel :
  forall tree s s', wf tree = true ->
  treeForEach_fuel fuel tree fn s = Some (s', Ok tt) -> walkable tree = true.
Proof.
  induction fuel as [| fuel IH]; intros tree s s' Hw H; [discriminate|].
  cbn [treeForEach_fuel] in H.
  destruct (if visitable tree then fn tree s else (s, Ok tt)) as [s1 [u | e]];
    [| discriminate].
  destruct (getprop tree "children") as [c | e] eqn:Ec; [| discriminate].
  apply getprop_get in Ec.
  destruct c as [| | | | | | l' xs |]; try discriminate;
    try (cbv zeta in H;
         match type of H with
         | (if ?b then _ else _) = _ => destruct b; discriminate
         end).
  assert (Hv : exists l fs, (tree = VObj l fs \/ tree = VFun l fs)).
  { destruct tree; try discriminate; eauto. }
  destruct Hv as [l [fs Hv]].
  destruct (wf_fields _ _ _ Hv Hw) as [Hnd Hwf].
  assert (El : lookup "children" fs = Some (VArr l' xs)).
  { destruct Hv as [-> | ->]; cbn [get] in Ec;
      destruct (lookup "children" fs); congruence. }
  apply (walkable_intro tree fs l xs Hv Hnd l' El).
  apply forallb_forall. intros x Hx.
  destruct (forEach_each_ok _ _ _ _ H x Hx) as [s2 [s3 Hx']].
  apply (IH x s2 s3); [| exact Hx'].
  apply (wf_items l' xs); [| exact Hx]. exact (Hwf _ _ El).
Qed.

Lemma walkable_children v :
  walkable v = true ->
  exists l xs, get v "children" = VArr l xs /\ forallb walkable xs = true
               /\ is_nullish v = false /\ visitable v = true.
Proof.
  intros H.
  assert (G : exists l fs, (v = VObj l fs \/ v = VFun l fs) /\
              has_key "children" fs &&
              forallb (fun kv => if (fst kv =? "children")%string
                                 then match snd kv with
                                      | VArr _ xs => forallb walkable xs
                                      | _ => false
                                      end
                                 else true) fs = true).
  { destruct v; try discriminate; eauto 6. }
  destruct G as [l [fs [Hv G]]]. apply andb_true_iff in G as [Hk Hall].
  unfold has_key in Hk. destruct (lookup "children" fs) as [c |] eqn:E; [| discriminate].
  pose proof (forallb_keyed
                (fun c => match c with
                          | VArr _ xs => forallb walkable xs
                          | _ => false
                          end) _ _ _ Hall (lookup_In _ _ _ E)) as Hc.
  cbn beta in Hc. destruct c as [| | | | | | l' xs |]; try discriminate.
  exists l', xs. destruct Hv as [-> | ->]; cbn [get]; rewrite E; auto.
Qed.

Lemma treeForEach_fuel_walkable_ok {St} (g : value -> St -> St) fuel :
  forall tree s, walkable tree = true -> height tree < fuel ->
  exists s', treeForEach_fuel fuel tree (fun node s0 => (g node s0, Ok tt)) s
             = Some (s', Ok tt).
Proof.
  induction fuel as [| fuel IH]; intros tree s Hw Hh; [lia|].
  destruct (walkable_children tree Hw) as [l [xs [Eg [Hxs [Hn Hv]]]]].
  cbn [treeForEach_fuel]. rewrite Hv.
  assert (Ep : getprop tree "children" = Ok (VArr l xs)).
  { destruct tree; try discriminate; cbn [getprop]; now rewrite Eg. }
  rewrite Ep.
  assert (Hbelow : forall x, In x xs -> height x < fuel).
  { intros x Hx. pose proof (height_get_array _ _ _ _ _ Eg Hx). lia. }
  clear Ep Eg Hw Hh Hv Hn. generalize (g tree s). clear s.
  induction xs as [| x xs IHxs]; intros s; [cbn; eauto|].
  cbn [forallb] in Hxs. apply andb_true_iff in Hxs as [Hx Hxs].
  cbn [forEach].
  destruct (IH x s Hx (Hbelow x (or_introl eq_refl))) as [s1 E1]. rewrite E1.
  apply IHxs; auto. intros y Hy. apply Hbelow. now right.
Qed.

Lemma plain_children_child method v k c l fs :
  (v = VObj l fs \/ v = VFun l fs) ->
  plain_children method v = true ->
  In (k, c) fs -> k = "children" ->
  match c with
  | VArr _ xs => forallb (plain_children method) xs = true
  | VFun _ _ => False
  | VObj _ gs =>
      jstype_eqb (typeof (match lookup method gs with
                          | Some f => f
                          | None => VUndefined
                          end)) TFunction = false
  | _ => True
  end.
Proof.
  intros Hv Hp Hin ->.
  assert (G : forallb (fun kv => if (fst kv =? "children")%string
                         then match snd kv with
                              | VArr _ xs => forallb (plain_children method) xs
                              | VFun _ _ => false
                              | VObj _ gs =>
                                  negb (jstype_eqb
                                          (typeof (match lookup method gs with
                                                   | Some f => f
                                                   | None => VUndefined
                                                   end)) TFunction)
                              | _ => true
                              end
                         else true) fs = true)
    by (destruct Hv as [-> | ->]; exact Hp).
  rewrite forallb_forall in G. specialize (G _ Hin). cbn [fst snd] in G.
  rewrite String.eqb_refl in G.
  destruct c; auto; [discriminate | now apply negb_true_iff].
Qed.

Lemma forEach_throws {St} (f : value -> St -> option (St * result unit)) xs :
  forall s s' e, forEach f xs s = Some (s', Throw e) ->
  exists x s1, In x xs /\ f x s1 = Some (s', Throw e).
Proof.
  induction xs as [| y xs IH]; intros s s' e H; [discriminate|].
  cbn [forEach] in H.
  destruct (f y s) as [[s1 [[] | e0]] |] eqn:E; try discriminate.
  - destruct (IH _ _ _ H) as [x [s2 [Hx Hf]]]. exists x, s2. split; [now right | exact Hf].
  - injection H as <- <-. exists y, s. split; [now left | exact E].
Qed.

Lemma getprop_member v k c :
  getprop v k = Ok c -> c <> VUndefined ->
  exists l fs, (v = VObj l fs \/ v = VFun l fs) /\ In (k, c) fs.
Proof.
  intros E Hc. destruct v; try discriminate; cbn in E; injection E as E;
    try congruence;
    (destruct (lookup k fields) as [x |] eqn:El; [| congruence]);
    subst x; apply lookup_In in El; eauto.
Qed.

(** On a tree whose [children] are data, a visitor that does not throw
    leaves the engine's TypeError as the only way to fail. *)
Lemma treeForEach_fuel_fails_by_TypeError {St} (g : value -> St -> St) fuel :
  forall tree s s' e, plain_children "forEach" tree = true ->
  treeForEach_fuel fuel tree (fun node s0 => (g node s0, Ok tt)) s
  = Some (s', Throw e) ->
  exists msg, e = RuntimeTypeError msg.
Proof.
  induction fuel as [| fuel IH]; intros tree s s' e Hp H; [discriminate|].
  cbn [treeForEach_fuel] in H.
  assert (G : forall s1,
             match getprop tree "children" with
             | Ok VUndefined =>
                 Some (s1, Throw (RuntimeTypeError
                                    "Cannot read property 'forEach' of undefined"))
             | Ok VNull =>
                 Some (s1, Throw (RuntimeTypeError
                                    "Cannot read property 'forEach' of null"))
             | Ok (VArr _ xs) =>
                 forEach (fun node s' =>
                            treeForEach_fuel fuel node
                              (fun node s0 => (g node s0, Ok tt)) s') xs s1
             | Ok children =>
                 let forEach := get children "forEach" in
                 if jstype_eqb (typeof forEach) TFunction
                 then Some (s1, Throw (ForeignCall forEach))
                 else Some (s1, Throw (RuntimeTypeError
                                         "tree.children.forEach is not a function"))
             | Throw e => Some (s1, Throw e)
             end = Some (s', Throw e) -> exists msg, e = RuntimeTypeError msg).
  { clear H. intros s1 H.
    destruct (getprop tree "children") as [c | e0] eqn:Ec.
    - destruct c as [| | b | n | str | lc gs | lc xs | lc gs];
        try (cbn in H; injection H as _ <-; eauto; fail).
      + destruct (getprop_member _ _ _ Ec ltac:(discriminate)) as [l [fs [Hv Hin]]].
        destruct (plain_children_child _ _ _ _ _ _ Hv Hp Hin eq_refl).
      + destruct (forEach_throws _ _ _ _ _ H) as [x [s2 [Hx Hf]]].
        destruct (getprop_member _ _ _ Ec ltac:(discriminate)) as [l [fs [Hv Hin]]].
        pose proof (plain_children_child _ _ _ _ _ _ Hv Hp Hin eq_refl) as Hxs.
        cbn beta iota in Hxs. rewrite forallb_forall in Hxs.
        exact (IH x s2 s' e (Hxs x Hx) Hf).
      + destruct (getprop_member _ _ _ Ec ltac:(discriminate)) as [l [fs [Hv Hin]]].
        pose proof (plain_children_child _ _ _ _ _ _ Hv Hp Hin eq_refl) as Hf.
        cbn beta iota in Hf. cbv zeta in H. cbn [get] in H. rewrite Hf in H.
        injection H as _ <-. eauto.
    - injection H as _ <-. destruct tree; try discriminate; cbn in Ec;
        injection Ec as <-; eauto. }
  destruct (visitable tree); exact (G _ H).
Qed.

(** X1: On a tree whose [children] are data (where [children] is no
    array it is no function and brings no [forEach] of its own), and with a
    visitor that does not throw, [treeForEach] returns normally exactly
    when every node is an object with a [children] array; on every other
    such tree it ends in a TypeError: a text leaf anywhere in the tree
    makes it throw. *)
Theorem treeForEach_succeeds_iff_walkable {St : Type} (g : value -> St -> St)
    (tree : value) (s : St) :
  wf tree = true ->
  plain_children "forEach" tree = true ->
  (snd (treeForEach tree (fun node s0 => (g node s0, Ok tt)) s) = Ok tt
   <-> walkable tree = true)
  /\ (walkable tree = false ->
      exists msg,
        snd (treeForEach tree (fun node s0 => (g node s0, Ok tt)) s)
        = Throw (RuntimeTypeError msg)).
Proof.
  intros Hw Hp.
  pose proof (treeForEach_run (fun node s0 => (g node s0, Ok tt)) tree s) as Hrun.
  assert (Hiff : snd (treeForEach tree (fun node s0 => (g node s0, Ok tt)) s) = Ok tt
                 <-> walkable tree = true).
  { split.
    - intros H.
      destruct (treeForEach tree (fun node s0 => (g node s0, Ok tt)) s) as [s' r].
      cbn [snd] in H. subst r.
      exact (treeForEach_fuel_ok_walkable _ _ _ _ _ Hw Hrun).
    - intros H.
      destruct (treeForEach_fuel_walkable_ok g (S (height tree)) tree s H
                  ltac:(lia)) as [s' E].
      rewrite E in Hrun. injection Hrun as <-. reflexivity. }
  split; [exact Hiff|].
  intros Hn.
  destruct (treeForEach tree (fun node s0 => (g node s0, Ok tt)) s) as [s' [[] | e]].
  - cbn [snd] in Hiff. rewrite (proj1 Hiff eq_refl) in Hn. discriminate.
  - destruct (treeForEach_fuel_fails_by_TypeError g _ _ _ _ _ Hp Hrun) as [msg ->].
    cbn [snd]. eauto.
Qed.

Lemma treeForEach_succeeds_iff_walkable_witness :
  wf ul_instance = true /\ plain_children "forEach" ul_instance = true
  /\ wf div_instance = true /\ plain_children "forEach" div_instance = true
  /\ snd (treeForEach ul_instance (fun node n => (S n, Ok tt)) 0) = Ok tt
  /\ exists msg,
       snd (treeForEach div_instance (fun node n => (S n, Ok tt)) 0)
       = Throw (RuntimeTypeError msg).
Proof.
  do 4 (split; [reflexivity|]). split.
  - apply (treeForEach_succeeds_iff_walkable (fun _ n => S n) ul_instance 0);
      reflexivity.
  - apply (treeForEach_succeeds_iff_walkable (fun _ n => S n) div_instance 0);
      reflexivity.
Defined.

(** ** Filtering a tree *)

Lemma forEach_ext {St} (f f' : value -> St -> option (St * result unit)) xs :
  (forall x s, In x xs -> f x s = f' x s) ->
  forall s, forEach f xs s = forEach f' xs s.
Proof.
  induction xs as [| x xs IH]; intros Hf s; [reflexivity|].
  cbn [forEach]. rewrite <- (Hf x s (or_introl eq_refl)).
  destruct (f x s) as [[s' [u | e]] |]; try reflexivity.
  apply IH. intros y s0 Hy. apply Hf. now right.
Qed.

Lemma treeForEach_fuel_ext {St} (fn fn' : callback St) fuel :
  (forall node s, fn node s = fn' node s) ->
  forall tree s, treeForEach_fuel fuel tree fn s = treeForEach_fuel fuel tree fn' s.
Proof.
  intros Hfn. induction fuel as [| fuel IH]; intros tree s; [reflexivity|].
  cbn [treeForEach_fuel]. rewrite Hfn.
  destruct (if visitable tree then fn' tree s else (s, Ok tt)) as [s1 [u | e]];
    [| reflexivity].
  destruct (getprop tree "children") as [c | e]; [| reflexivity].
  destruct c; try reflexivity.
  apply forEach_ext. intros x s0 _. apply IH.
Qed.

Lemma treeFilter_ext fn fn' tree :
  (forall node, fn node = fn' node) -> treeFilter tree fn = treeFilter tree fn'.
Proof.
  intros H. unfold treeFilter, treeForEach.
  rewrite (treeForEach_fuel_ext (collect fn) (collect fn')); [reflexivity|].
  intros node s. unfold collect. now rewrite H.
Qed.

Lemma fold_left_push_if (p : value -> bool) xs : forall acc,
  fold_left (fun rs node => if p node then rs ++ [node] else rs) xs acc
  = acc ++ filter p xs.
Proof.
  induction xs as [| x xs IH]; intros acc; cbn [fold_left filter].
  - now rewrite app_nil_r.
  - rewrite IH. destruct (p x); [now rewrite <- app_assoc | reflexivity].
Qed.

Lemma treeFilter_branching (tree : value) (p : value -> bool) :
  branching tree = true ->
  treeFilter tree (fun node => Ok (p node)) = Ok (filter p (preorder tree)).
Proof.
  intros Hb. unfold treeFilter, treeForEach.
  rewrite (treeForEach_fuel_ext _
             (fun node rs => (if p node then rs ++ [node] else rs, Ok tt)))
    by (intros node rs; unfold collect; now destruct (p node)).
  rewrite (treeForEach_fuel_preorder
             (fun node rs => if p node then rs ++ [node] else rs)) by (auto; lia).
  now rewrite fold_left_push_if.
Qed.

(** X2: On a tree of objects with [children] arrays, [treeFilter] returns the
    nodes the predicate accepts, the root included, in pre-order. *)
Theorem treeFilter_is_filter_of_preorder (tree : value) (p : value -> bool) :
  branching tree = true ->
  treeFilter tree (fun node => Ok (p node)) = Ok (filter p (preorder tree)).
Proof. apply treeFilter_branching. Qed.

Lemma treeFilter_is_filter_of_preorder_witness :
  treeFilter ul_instance (fun node => Ok (strict_eq (get node "type") (VStr "li")))
  = Ok [li_one; li_two].
Proof.
  exact (treeFilter_is_filter_of_preorder ul_instance
           (fun node => strict_eq (get node "type") (VStr "li")) eq_refl).
Defined.

(** ** Searching the trees of a wrapper *)

Lemma mapM_Ok {A B} (f : A -> result B) (g : A -> B) xs :
  (forall x, In x xs -> f x = Ok (g x)) -> mapM f xs = Ok (map g xs).
Proof.
  induction xs as [| x xs IH]; intros H; [reflexivity|].
  cbn [mapM map]. rewrite (H x (or_introl eq_refl)). cbn [bind].
  rewrite IH; [reflexivity|]. intros y Hy. apply H. now right.
Qed.

Lemma spread_fold (ys : list (loc * list value)) : forall acc,
  fold_left
    (fun existing curr => e <- existing ;; c <- spread curr ;; Ok (e ++ c))
    (map (fun y => VArr (fst y) (snd y)) ys) (Ok acc)
  = Ok (acc ++ List.concat (map snd ys)).
Proof.
  induction ys as [| y ys IH]; intros acc; cbn [map fold_left List.concat].
  - now rewrite app_nil_r.
  - cbn [bind spread]. rewrite IH. now rewrite <- app_assoc.
Qed.

(** [flatMap] over callbacks that return arrays concatenates them. *)
Lemma flatMap_arrays {A} (collection : list A) (fn : A -> result value)
    (at_loc : A -> loc) (f : A -> list value) :
  (forall x, In x collection -> fn x = Ok (VArr (at_loc x) (f x))) ->
  flatMap collection fn = Ok (flat_map f collection).
Proof.
  intros H. unfold flatMap.
  rewrite (mapM_Ok fn (fun x => VArr (at_loc x) (f x))) by exact H.
  cbn [bind].
  rewrite <- (map_map (fun x => (at_loc x, f x)) (fun y => VArr (fst y) (snd y))).
  rewrite spread_fold. rewrite map_map. cbn [snd app].
  now rewrite flat_map_concat_map.
Qed.

Lemma fold_left_thrown {A} (step : result A -> value -> result A) e xs :
  (forall x, step (Throw e) x = Throw e) ->
  fold_left step xs (Throw e) = Throw e.
Proof.
  intros H. induction xs as [| x xs IH]; [reflexivity|].
  cbn [fold_left]. now rewrite H.
Qed.

(** One callback result that cannot be spread makes [flatMap] throw. *)
Lemma flatMap_not_iterable {A} (collection : list A) (fn : A -> result value) x v :
  In x collection -> fn x = Ok v ->
  (forall l xs, v <> VArr l xs) -> (forall s, v <> VStr s) ->
  exists e, flatMap collection fn = Throw e.
Proof.
  intros Hin Hx Harr Hstr. unfold flatMap.
  destruct (mapM fn collection) as [mapped | e] eqn:Em; [| cbn; eauto].
  cbn [bind].
  assert (Hv : In v mapped).
  { clear Harr Hstr. revert mapped Em.
    induction collection as [| y ys IH]; intros mapped Em; [contradiction|].
    cbn [mapM] in Em. apply bind_Ok in Em as [fy [Ey Em]].
    apply bind_Ok in Em as [rest [Er Em]]. injection Em as <-.
    destruct Hin as [-> | Hin]; [left; congruence | right; now apply IH]. }
  assert (Hsp : exists e, spread v = Throw e).
  { destruct v; cbn; eauto; [now destruct (Hstr s) | now destruct (Harr l items)]. }
  destruct Hsp as [e Hsp]. clear Em.
  generalize (@Ok (list value) []).
  induction mapped as [| m ms IH]; intros acc; [contradiction|].
  cbn [fold_left]. destruct Hv as [-> | Hv]; [| now apply IH].
  destruct acc as [a | e0]; cbn [bind].
  - rewrite Hsp. exists e. apply fold_left_thrown. reflexivity.
  - exists e0. apply fold_left_thrown. reflexivity.
Qed.

Lemma findWhereUnwrapped_branching insts (p : value -> bool) :
  forallb branching insts = true ->
  findWhereUnwrapped insts (fun node => Ok (p node))
  = Ok (flat_map (fun n => filter p (preorder n)) insts).
Proof.
  intros Hb. unfold findWhereUnwrapped. apply (flatMap_arrays _ _ (fun _ => 0)).
  intros n Hn. rewrite forallb_forall in Hb.
  rewrite (treeFilter_branching n p (Hb n Hn)). reflexivity.
Qed.

Lemma nonempty_flat_map {A} (f : A -> list value) (p : value -> bool) xs :
  (0 <? List.length (flat_map (fun n => filter p (f n)) xs))%nat
  = existsb (fun n => existsb p (f n)) xs.
Proof.
  induction xs as [| x xs IH]; [reflexivity|].
  cbn [flat_map existsb]. rewrite length_app. rewrite <- IH.
  assert (E : (0 <? List.length (filter p (f x)))%nat = existsb p (f x)).
  { induction (f x) as [| y ys IHy]; [reflexivity|].
    cbn [filter existsb]. destruct (p y); [reflexivity | exact IHy]. }
  rewrite <- E.
  destruct (List.length (filter p (f x))); cbn; [reflexivity|].
  reflexivity.
Qed.

(** X3: [containsMatchingElement(node)] on a wrapper over trees of objects
    with [children] arrays: it answers whether some node of some tree,
    the tree roots included, loosely matches the first child of the
    rendered argument. *)
Theorem containsMatchingElement_searches_every_node {ext : Collaborators}
    (w : Wrapper) (node arg : value) (l : loc) (cs : list value) :
  elementToInstance node = Ok arg ->
  get arg "children" = VArr l cs ->
  forallb branching (instances w) = true ->
  containsMatchingElement w node
  = Ok (existsb
          (fun n => existsb (fun x => nodeMatches (nth 0 cs VUndefined) x leq)
                      (preorder n))
          (instances w)).
Proof.
  intros Harg Hcs Hb. unfold containsMatchingElement. rewrite Harg. cbn [bind].
  assert (Hp : forall other,
             (c <- getprop arg "children" ;; c0 <- getindex c 0 ;;
              Ok (nodeMatches c0 other leq))
             = Ok (nodeMatches (nth 0 cs VUndefined) other leq)).
  { intros other. assert (E : getprop arg "children" = Ok (VArr l cs)).
    { destruct arg; try discriminate; cbn [getprop]; now rewrite Hcs. }
    rewrite E. reflexivity. }
  assert (Hf : findWhereUnwrapped (instances w)
                 (fun other => c <- getprop arg "children" ;; c0 <- getindex c 0 ;;
                               Ok (nodeMatches c0 other leq))
               = Ok (flat_map (fun n => filter
                                 (fun x => nodeMatches (nth 0 cs VUndefined) x leq)
                                 (preorder n)) (instances w))).
  { unfold findWhereUnwrapped. apply (flatMap_arrays _ _ (fun _ => 0)).
    intros n Hn. rewrite forallb_forall in Hb.
    rewrite (treeFilter_ext _ _ n Hp).
    rewrite (treeFilter_branching n _ (Hb n Hn)). reflexivity. }
  rewrite Hf. cbn [bind]. now rewrite nonempty_flat_map.
Qed.

Lemma containsMatchingElement_searches_every_node_witness :
  @containsMatchingElement sample_collaborators ul_wrapper
    (element 200 "li" [("title", VStr "x")]) = Ok true
  /\ @containsMatchingElement sample_collaborators ul_wrapper
       (element 200 "li" [("title", VStr "y")]) = Ok false.
Proof.
  split.
  - exact (@containsMatchingElement_searches_every_node sample_collaborators
             ul_wrapper (element 200 "li" [("title", VStr "x")]) _ 0 _
             eq_refl eq_refl eq_refl).
  - exact (@containsMatchingElement_searches_every_node sample_collaborators
             ul_wrapper (element 200 "li" [("title", VStr "y")]) _ 0 _
             eq_refl eq_refl eq_refl).
Defined.

(** ** Children of a wrapper *)

(** X4: [children()] without a selector: when every instance has a
    [children] array, the new wrapper holds these arrays end to end, in
    the order of the instances; when an instance is a text or number
    leaf, the call throws. *)
Theorem children_concatenates_or_throws {ext : Collaborators} (w : Wrapper) :
  ((forall i, In i (instances w) -> exists l xs, get i "children" = VArr l xs) ->
   children w VUndefined
   = Ok (wrap w (flat_map children_of_instance (instances w))))
  /\ (forall selector,
        (exists i, In i (instances w) /\ isTextualNode i = true) ->
        exists e, children w selector = Throw e).
Proof.
  split.
  - intros H. unfold children.
    rewrite (flatMap_arrays _ _
               (fun i => match get i "children" with VArr l _ => l | _ => 0 end)
               children_of_instance).
    + reflexivity.
    + intros i Hi. destruct (H i Hi) as [l [xs E]].
      unfold children_of_instance. rewrite E.
      destruct i; try discriminate; cbn [getprop]; now rewrite E.
  - intros selector [i [Hi Ht]]. unfold children.
    destruct (flatMap_not_iterable (instances w)
                (fun i => getprop i "children") i VUndefined Hi) as [e E].
    + destruct i; try discriminate; reflexivity.
    + discriminate.
    + discriminate.
    + rewrite E. cbn. eauto.
Qed.

Lemma children_concatenates_or_throws_witness :
  @children sample_collaborators ul_wrapper VUndefined
  = Ok (wrap ul_wrapper [li_one; li_two])
  /\ exists e, @children sample_collaborators text_wrapper VUndefined = Throw e.
Proof.
  destruct (@children_concatenates_or_throws sample_collaborators ul_wrapper)
    as [H _].
  destruct (@children_concatenates_or_throws sample_collaborators text_wrapper)
    as [_ H'].
  split.
  - apply H. intros i [<- | []]. now exists 109, [li_one; li_two].
  - apply H'. exists (VStr "hi"). split; [now left | reflexivity].
Defined.

(** ** Positional access *)

Lemma index_in_range xs i :
  (0 <= i < Z.of_nat (List.length xs))%Z ->
  index xs i = nth (Z.to_nat i) xs VUndefined /\ In (index xs i) xs.
Proof.
  intros H. unfold index.
  destruct (i <? 0)%Z eqn:E; [apply Z.ltb_lt in E; lia|].
  split; [reflexivity|]. apply nth_In. lia.
Qed.

Lemma index_out_of_range xs i :
  ~ (0 <= i < Z.of_nat (List.length xs))%Z -> index xs i = VUndefined.
Proof.
  intros H. unfold index.
  destruct (i <? 0)%Z eqn:E; [reflexivity|].
  apply Z.ltb_ge in E. apply nth_overflow. lia.
Qed.

(** X5: [at(i)] wraps exactly one entry whatever [i] is.  Outside
    [0 .. length-1] the entry is [undefined]: the wrapper still says it
    exists, and [props()], [type()] and [instance()] on it end in a
    TypeError, not in the single-node error.  So [first()] and [last()]
    of an empty wrapper are such wrappers. *)
Theorem at_out_of_range_wraps_undefined (w : Wrapper) (i : Z) :
  wlength (at_ w i) = 1
  /\ (~ (0 <= i < Z.of_nat (wlength w))%Z ->
      instances (at_ w i) = [VUndefined]
      /\ exists_ (at_ w i) = true
      /\ props (at_ w i)
         = Throw (RuntimeTypeError "Cannot read property 'props' of undefined")
      /\ type (at_ w i)
         = Throw (RuntimeTypeError "Cannot read property 'type' of undefined")
      /\ instance (at_ w i)
         = Throw (RuntimeTypeError "Cannot read property 'instance' of undefined"))
  /\ (wlength w = 0 ->
      instances (first w) = [VUndefined] /\ instances (last w) = [VUndefined]).
Proof.
  split; [reflexivity|]. split.
  - intros H. unfold at_, wrap. cbn [instances].
    unfold props, type, instance, single, wlength, exists_, wlength.
    cbn [instances List.length Nat.eqb negb index nth Z.ltb Z.compare Z.to_nat].
    rewrite (index_out_of_range _ _ H). repeat split.
  - intros H. unfold first, last, at_, wrap. cbn [instances].
    rewrite !index_out_of_range; [auto | |]; unfold wlength in *; rewrite H; cbn; lia.
Qed.

Lemma at_out_of_range_wraps_undefined_witness :
  instances (at_ root_wrapper 5) = [VUndefined]
  /\ exists_ (first empty_wrapper) = true.
Proof.
  destruct (at_out_of_range_wraps_undefined root_wrapper 5) as [_ [H _]].
  destruct (at_out_of_range_wraps_undefined empty_wrapper 0) as [_ [H' _]].
  split.
  - apply H. cbn. lia.
  - apply H'. cbn. lia.
Defined.

Lemma relative_index_range len i :
  (0 <= len)%Z -> (0 <= relative_index len i <= len)%Z.
Proof.
  intros H. unfold relative_index. destruct (i <? 0)%Z eqn:E.
  - apply Z.ltb_lt in E. lia.
  - apply Z.ltb_ge in E. lia.
Qed.

(** X6: [slice(begin, end)] keeps one stretch of neighbouring nodes, in their
    order; without arguments it keeps all of them; with [begin] at or
    after [end] (both counted from the start) it keeps none. *)
Theorem slice_is_a_stretch (w : Wrapper) (begin_ end_ : option Z) :
  (exists before after,
     instances w = before ++ instances (slice w begin_ end_) ++ after)
  /\ instances (slice w None None) = instances w
  /\ (forall b e, (0 <= e <= b)%Z -> instances (slice w (Some b) (Some e)) = []).
Proof.
  unfold slice, wrap. cbn [instances]. split; [| split].
  - unfold array_slice. cbv zeta.
    match goal with
    | |- context [firstn ?n (skipn ?k _)] =>
        exists (firstn k (instances w)), (skipn n (skipn k (instances w)));
        rewrite (firstn_skipn n (skipn k (instances w)));
        now rewrite (firstn_skipn k)
    end.
  - unfold array_slice, relative_index.
    assert (H0 : (0 <? 0)%Z = false) by reflexivity. rewrite H0.
    destruct (Z.of_nat (List.length (instances w)) <? 0)%Z eqn:E;
      [apply Z.ltb_lt in E; lia|].
    rewrite Z.min_id, Z.min_l by lia. cbn [Z.to_nat skipn].
    rewrite Z.sub_0_r, Nat2Z.id. apply firstn_all.
  - intros b e H. unfold array_slice, relative_index.
    destruct (b <? 0)%Z eqn:Eb; [apply Z.ltb_lt in Eb; lia|].
    destruct (e <? 0)%Z eqn:Ee; [apply Z.ltb_lt in Ee; lia|].
    assert (Hz : Z.to_nat (Z.min e (Z.of_nat (List.length (instances w)))
                           - Z.min b (Z.of_nat (List.length (instances w)))) = 0)
      by lia.
    now rewrite Hz.
Qed.

Lemma slice_is_a_stretch_witness :
  instances (slice pair_wrapper (Some 1%Z) None) = [span_instance]
  /\ instances (slice pair_wrapper (Some 1%Z) (Some 1%Z)) = [].
Proof.
  destruct (slice_is_a_stretch pair_wrapper (Some 1%Z) None) as [_ [_ H]].
  split; [reflexivity|]. apply H. lia.
Defined.

(** ** Filtering with a predicate on wrappers *)

Lemma array_filter_map {A B} (mk : A -> B) (p : B -> result bool) xs :
  forall kept, array_filter p (map mk xs) = Ok kept ->
  exists ks, kept = map mk ks /\ Subseq ks xs
             /\ Forall (fun x => p (mk x) = Ok true) ks.
Proof.
  induction xs as [| x xs IH]; cbn [map array_filter]; intros kept H.
  - injection H as <-. exists []. repeat split; constructor.
  - apply bind_Ok in H as [keep [Hp H]].
    apply bind_Ok in H as [rest [Hr H]]. injection H as <-.
    destruct (IH rest Hr) as [ks [-> [Hs Hf]]].
    destruct keep.
    + exists (x :: ks). repeat split; constructor; auto.
    + exists ks. repeat split; auto. now constructor.
Qed.

Lemma fold_left_singletons (w : Wrapper) ks : forall acc,
  fold_left (fun existing current => existing ++ instances current)
    (map (fun i => wrap w [i]) ks) acc
  = acc ++ ks.
Proof.
  induction ks as [| k ks IH]; intros acc; cbn [map fold_left].
  - now rewrite app_nil_r.
  - rewrite IH. cbn [wrap instances]. now rewrite <- app_assoc.
Qed.

(** X7: [filterWhere(predicate)] keeps, in their order, nodes of the wrapper
    on whose single-node wrapper the predicate answered truthy; the new
    wrapper shares [rootRef] and the renderer. *)
Theorem filterWhere_keeps_accepted_subsequence {ext : Collaborators}
    (w : Wrapper) (predicate : Wrapper -> result bool) (w' : Wrapper) :
  filterWhere w predicate = Ok w' ->
  Subseq (instances w') (instances w)
  /\ Forall (fun n => predicate (wrap w [n]) = Ok true) (instances w')
  /\ rootRef w' = rootRef w /\ renderer w' = renderer w.
Proof.
  unfold filterWhere. intros H. apply bind_Ok in H as [kept [Hk H]].
  injection H as <-.
  destruct (array_filter_map _ _ _ _ Hk) as [ks [-> [Hs Hf]]].
  rewrite fold_left_singletons. cbn [wrap instances rootRef renderer app].
  auto.
Qed.

Lemma filterWhere_keeps_accepted_subsequence_witness :
  let named_span := fun w0 : Wrapper =>
                      n <- name w0 ;; Ok (strict_eq n (VStr "span")) in
  Subseq [span_instance] (instances pair_wrapper)
  /\ Forall (fun n => named_span (wrap pair_wrapper [n]) = Ok true) [span_instance]
  /\ rootRef (wrap pair_wrapper [span_instance]) = rootRef pair_wrapper
  /\ renderer (wrap pair_wrapper [span_instance]) = renderer pair_wrapper.
Proof.
  intros named_span.
  exact (@filterWhere_keeps_accepted_subsequence sample_collaborators
           pair_wrapper named_span (wrap pair_wrapper [span_instance]) eq_refl).
Defined.

(** ** [not] against [filter] *)

Lemma array_filter_complement (p : value -> result bool) xs :
  forall k2,
  array_filter (fun n => b <- p n ;; Ok (negb b)) xs = Ok k2 ->
  exists k1, array_filter p xs = Ok k1
             /\ List.length (compact k1) + List.length (compact k2)
                = List.length (compact xs)
             /\ Forall (fun n => p n = Ok false) k2.
Proof.
  induction xs as [| x xs IH]; cbn [array_filter]; intros k2 H.
  - injection H as <-. exists []. repeat split. constructor.
  - apply bind_Ok in H as [keep [Hp H]].
    apply bind_Ok in H as [rest [Hr H]]. injection H as <-.
    apply bind_Ok in Hp as [b [Hb Hp]]. injection Hp as <-.
    destruct (IH rest Hr) as [k1 [E1 [Hlen Hf]]].
    rewrite Hb, E1. cbn [bind]. eexists. split; [reflexivity|].
    unfold compact in *.
    destruct b; cbn [negb filter]; destruct (truthy x); cbn [List.length];
      repeat split; auto; lia.
Qed.

(** X8: The array [not(selector)] returns holds, in their order, nodes of
    the wrapper on which the compiled predicate answered falsy; and
    [filter(selector)] succeeds too, the two results together counting
    every truthy entry of the wrapper once. *)
Theorem not_complements_filter {ext : Collaborators}
    (w : Wrapper) (selector : value) (rest : list value) :
  not_ w selector = Ok rest ->
  exists predicate w',
    buildPredicate selector = Ok predicate
    /\ Forall (fun n => predicate n = Ok false) rest
    /\ Subseq rest (instances w)
    /\ filter_ w selector = Ok w'
    /\ List.length (instances w') + List.length rest
       = List.length (compact (instances w)).
Proof.
  unfold not_, filter_, filterWhereUnwrapped. intros H.
  apply bind_Ok in H as [predicate [Hp H]].
  apply bind_Ok in H as [k2 [Hk H]]. injection H as <-.
  destruct (array_filter_complement _ _ _ Hk) as [k1 [E1 [Hlen Hf]]].
  destruct (array_filter_sound _ _ _ Hk) as [_ Hs].
  exists predicate, (wrap w (compact k1)). rewrite Hp. cbn [bind]. rewrite E1.
  cbn [bind].
  repeat split; auto.
  - unfold compact. rewrite Forall_forall in *. intros n Hn.
    apply filter_In in Hn as [Hn _]. auto.
  - now apply Subseq_filter.
Qed.

Lemma not_complements_filter_witness :
  exists predicate w',
    @buildPredicate sample_collaborators (VStr "span") = Ok predicate
    /\ Forall (fun n => predicate n = Ok false) [div_instance]
    /\ Subseq [div_instance] (instances pair_wrapper)
    /\ @filter_ sample_collaborators pair_wrapper (VStr "span") = Ok w'
    /\ List.length (instances w') + 1 = 2.
Proof.
  exact (@not_complements_filter sample_collaborators pair_wrapper (VStr "span")
           [div_instance] eq_refl).
Defined.

(** ** Ancestors *)

Lemma getprop_Ok_inv v k r :
  getprop v k = Ok r -> is_nullish v = false /\ r = get v k.
Proof. destruct v; cbn; intros H; try discriminate; split; congruence. Qed.

Lemma getprop_not_nullish v k : is_nullish v = false -> getprop v k = Ok (get v k).
Proof. destruct v; cbn; intros H; try discriminate; reflexivity. Qed.

Lemma parentsOfInstance_fuel_sound root fuel : forall inst acc r,
  parentsOfInstance_fuel fuel root inst acc = Some (Ok r) ->
  exists ps, r = acc ++ ps /\ ancestors_to_root root inst ps.
Proof.
  induction fuel as [| fuel IH]; intros inst acc r H; [discriminate|].
  cbn [parentsOfInstance_fuel] in H.
  destruct (getprop inst "parent") as [parent | e] eqn:E; [| discriminate].
  apply getprop_Ok_inv in E as [Hn ->].
  fold (under_root root (get inst "parent")) in H.
  destruct (under_root root (get inst "parent")) eqn:Eu.
  - injection H as <-. exists []. rewrite app_nil_r. cbn. auto.
  - destruct (IH _ _ _ H) as [ps [-> Hc]].
    exists (get inst "parent" :: ps). rewrite <- app_assoc. cbn. auto.
Qed.

Lemma parentsOfInstance_fuel_complete root ps : forall inst fuel acc,
  ancestors_to_root root inst ps -> height inst + 2 <= fuel ->
  parentsOfInstance_fuel fuel root inst acc = Some (Ok (acc ++ ps)).
Proof.
  induction ps as [| p ps IH]; intros inst fuel acc Hc Hh;
    (destruct fuel as [| fuel]; [lia|]); cbn [parentsOfInstance_fuel];
    cbn [ancestors_to_root] in Hc; destruct Hc as [Hn Hc];
    rewrite (getprop_not_nullish _ _ Hn);
    fold (under_root root (get inst "parent")).
  - rewrite Hc. now rewrite app_nil_r.
  - destruct Hc as [-> [Hu Hc]]. rewrite Hu.
    rewrite (IH _ fuel (acc ++ [get inst "parent"]) Hc).
    + now rewrite <- app_assoc.
    + destruct (height_get inst "parent") as [H | H]; [lia|].
      rewrite H in Hc. destruct ps; cbn in Hc; destruct Hc; discriminate.
Qed.

Lemma parentsOfInstance_chain root inst ps :
  parentsOfInstance root inst = Ok ps <-> ancestors_to_root root inst ps.
Proof.
  unfold parentsOfInstance. split.
  - intros H.
    destruct (parentsOfInstance_fuel (2 + height inst) root inst []) as [r |] eqn:E.
    + subst r. destruct (parentsOfInstance_fuel_sound _ _ _ _ _ E) as [qs [-> Hc]].
      exact Hc.
    + exfalso. revert E. apply parentsOfInstance_enough. lia.
  - intros H.
    now rewrite (parentsOfInstance_fuel_complete root ps inst _ [] H) by lia.
Qed.

(** X9: [parents()] of a single-node wrapper returns the ancestors of the
    node, nearest first: each is the [parent] of the one before, the walk
    stops before the node whose parent holds [rootRef] as its instance,
    and nothing but such a chain is returned. *)
Theorem parents_are_the_chain_to_root {ext : Collaborators}
    (w : Wrapper) (ps : list value) :
  wlength w = 1 ->
  (parents w VUndefined = Ok (wrap w ps)
   <-> ancestors_to_root (rootRef w) (index (instances w) 0) ps).
Proof.
  intros H1. unfold parents. rewrite (single_one _ _ _ H1).
  rewrite <- parentsOfInstance_chain. cbn [truthy].
  destruct (parentsOfInstance (rootRef w) (index (instances w) 0)) as [r | e];
    cbn [bind]; split; intros H; try discriminate.
  - injection H as ->. reflexivity.
  - injection H as ->. reflexivity.
Qed.

Lemma parents_are_the_chain_to_root_witness :
  @parents sample_collaborators inner_wrapper VUndefined
  = Ok (wrap inner_wrapper [div_instance]).
Proof.
  apply (@parents_are_the_chain_to_root sample_collaborators inner_wrapper
           [div_instance] eq_refl).
  cbn. repeat split.
Defined.

(** ** Root-only methods *)

(** X10: Off the root, that is when [isRoot()] answers falsy, [mount],
    [unmount], [detach], [update], [state] and [context] end in the root
    error that names the method, before anything else is looked at. *)
Theorem root_only_methods_refuse_off_root (w : Wrapper) (m : root_method)
    (r : value) :
  isRoot w = Ok r -> truthy r = false ->
  call_root_method w m = Some (RootRequiredError (root_method_name m)).
Proof.
  intros Hr Ht.
  destruct m as [react rs | | | | n | n]; cbn [call_root_method root_method_name];
    unfold mount, unmount, detach, update, state, context;
    rewrite Hr; cbn [bind]; now rewrite Ht.
Qed.

Lemma root_only_methods_refuse_off_root_witness :
  call_root_method inner_wrapper RUnmount = Some (RootRequiredError "unmount")
  /\ call_root_method empty_wrapper RUpdate = Some (RootRequiredError "update").
Proof.
  split.
  - exact (root_only_methods_refuse_off_root inner_wrapper RUnmount
             (VBool false) eq_refl eq_refl).
  - exact (root_only_methods_refuse_off_root empty_wrapper RUpdate
             VUndefined eq_refl eq_refl).
Defined.

(** X11: On the root, [setProps] and [setState] refuse a callback that is
    given and is not a function, whatever the props or state; an omitted
    callback is replaced by [noop] and passes. *)
Theorem mutator_callback_is_checked_on_root (w : Wrapper) (payload callback r : value) :
  isRoot w = Ok r -> truthy r = true ->
  (is_undefined callback = false ->
   jstype_eqb (typeof callback) TFunction = false ->
   setProps w payload callback
   = Throw (InvalidArgumentError
              "ReactWrapper::setProps() expects a function as its second argument")
   /\ setState w payload callback
      = Throw (InvalidArgumentError
                 "ReactWrapper::setState() expects a function as its second argument"))
  /\ (forall f, method_of (rootRef w) "setChildProps" = Ok f ->
      setProps w payload VUndefined
      = Ok (SetChildProps payload empty_object noop, w)).
Proof.
  intros Hr Ht. split.
  - intros Hu Hf. unfold setProps, setState, default_noop.
    rewrite Hr, Hu. cbn [bind]. rewrite Ht, Hf. cbn [negb]. split; reflexivity.
  - intros f Hf. unfold setProps, default_noop. cbn [is_undefined typeof jstype_eqb].
    rewrite Hr. cbn [bind]. rewrite Ht. cbn [negb noop typeof jstype_eqb].
    rewrite Hf. reflexivity.
Qed.

Lemma mutator_callback_is_checked_on_root_witness :
  setState root_wrapper (VObj 300 []) (VStr "done")
  = Throw (InvalidArgumentError
             "ReactWrapper::setState() expects a function as its second argument")
  /\ setProps root_wrapper (VObj 300 []) VUndefined
     = Ok (SetChildProps (VObj 300 []) empty_object noop, root_wrapper).
Proof.
  destruct (mutator_callback_is_checked_on_root root_wrapper (VObj 300 [])
              (VStr "done") (VBool true) eq_refl eq_refl) as [H1 H2].
  split.
  - apply H1; reflexivity.
  - apply (H2 (VFun 2 [])). reflexivity.
Defined.

(** ** [some] and [every] *)

(** X12: [some(selector)] is refused on the root, before the selector is
    compiled; on a wrapper over nothing it answers [false] and
    [every(selector)] answers [true], once the selector compiles. *)
Theorem some_refused_on_root_every_true_on_empty {ext : Collaborators}
    (w : Wrapper) (selector : value) :
  (forall r, isRoot w = Ok r -> truthy r = true ->
   some w selector
   = Throw (PlainError "ReactWrapper::some() can not be called on the root"))
  /\ (forall predicate, wlength w = 0 -> buildPredicate selector = Ok predicate ->
      some w selector = Ok false /\ every w selector = Ok true).
Proof.
  split.
  - intros r Hr Ht. unfold some. rewrite Hr. cbn [bind]. now rewrite Ht.
  - intros predicate H0 Hp. unfold some, every, isRoot, wlength in *.
    destruct (instances w); [| discriminate].
    cbn. now rewrite Hp.
Qed.

Lemma some_refused_on_root_every_true_on_empty_witness :
  @some sample_collaborators root_wrapper (VNum (Int 7))
  = Throw (PlainError "ReactWrapper::some() can not be called on the root")
  /\ @every sample_collaborators empty_wrapper (VStr "div") = Ok true.
Proof.
  destruct (@some_refused_on_root_every_true_on_empty sample_collaborators
              root_wrapper (VNum (Int 7))) as [H _].
  destruct (@some_refused_on_root_every_true_on_empty sample_collaborators
              empty_wrapper (VStr "div")) as [_ H'].
  split.
  - apply (H (VBool true)); reflexivity.
  - apply (H' (fun node => Ok (strict_eq (get node "type") (VStr "div")))
             eq_refl eq_refl).
Defined.

(** ** Text runs *)


Lemma append_assoc (s t u : string) : ((s ++ t) ++ u)%string = (s ++ (t ++ u))%string.
Proof. induction s as [| c s IH]; cbn; [reflexivity | now rewrite IH]. Qed.








(** ** Loose matching and props that are [null] or [undefined] *)

Lemma removeNullary_filter (q : string * value -> bool) ps :
  removeNullary (filter q (removeNullary ps)) = removeNullary (filter q ps).
Proof.
  unfold removeNullary. induction ps as [| kv ps IH]; [reflexivity|].
  cbn [filter]. destruct (negb (is_nullish (snd kv))) eqn:E.
  - cbn [filter]. destruct (q kv); cbn [filter]; rewrite ?E, IH; reflexivity.
  - destruct (q kv); cbn [filter]; rewrite ?E, IH; reflexivity.
Qed.

Lemma propsOfNode_object l t lp ps :
  propsOfNode (VObj l [("type", t); ("props", VObj lp ps)])
  = filter (fun kv => negb (is_undefined (snd kv)) && negb (fst kv =? "__proto__")) ps.
Proof. reflexivity. Qed.

(** Two elements with the same [type] whose props differ by members that
    are [null] or [undefined], compared loosely with a third value that is
    neither of them. *)
Lemma internalNodeCompare_loose_left l lp l' lp' t ps b lenComp fuel :
  strict_eq (VObj l [("type", t); ("props", VObj lp ps)]) b = false ->
  strict_eq (VObj l' [("type", t); ("props", VObj lp' (removeNullary ps))]) b = false ->
  internalNodeCompare fuel (VObj l [("type", t); ("props", VObj lp ps)]) b lenComp true
  = internalNodeCompare fuel
      (VObj l' [("type", t); ("props", VObj lp' (removeNullary ps))]) b lenComp true.
Proof.
  intros H1 H2. destruct fuel as [| fuel]; [reflexivity|].
  cbn [internalNodeCompare]. rewrite H1, H2. rewrite !propsOfNode_object.
  rewrite removeNullary_filter. reflexivity.
Qed.

Lemma internalNodeCompare_loose_right l lp l' lp' t ps a lenComp fuel :
  strict_eq a (VObj l [("type", t); ("props", VObj lp ps)]) = false ->
  strict_eq a (VObj l' [("type", t); ("props", VObj lp' (removeNullary ps))]) = false ->
  internalNodeCompare fuel a (VObj l [("type", t); ("props", VObj lp ps)]) lenComp true
  = internalNodeCompare fuel a
      (VObj l' [("type", t); ("props", VObj lp' (removeNullary ps))]) lenComp true.
Proof.
  intros H1 H2. destruct fuel as [| fuel]; [reflexivity|].
  cbn [internalNodeCompare]. rewrite H1, H2. rewrite !propsOfNode_object.
  rewrite removeNullary_filter. reflexivity.
Qed.

(** X14: [nodeMatches] does not see props whose value is [null] or
    [undefined]: an element with such props and an element of the same
    type built without them match a third value alike, on either side of
    the comparison.  The third value is neither of the two elements
    themselves: an element matches itself at once, whatever it holds. *)
Theorem nodeMatches_ignores_nullish_props (l lp l' lp' : loc) (t : value)
    (ps : list (string * value)) (other : value) (lenComp : Z -> Z -> bool) :
  strict_eq (VObj l [("type", t); ("props", VObj lp ps)]) other = false ->
  strict_eq (VObj l' [("type", t); ("props", VObj lp' (removeNullary ps))]) other
  = false ->
  nodeMatches (VObj l [("type", t); ("props", VObj lp ps)]) other lenComp
  = nodeMatches (VObj l' [("type", t); ("props", VObj lp' (removeNullary ps))])
      other lenComp
  /\ nodeMatches other (VObj l [("type", t); ("props", VObj lp ps)]) lenComp
     = nodeMatches other
         (VObj l' [("type", t); ("props", VObj lp' (removeNullary ps))]) lenComp.
Proof.
  intros H1 H2. unfold nodeMatches. split.
  - set (a := VObj l [("type", t); ("props", VObj lp ps)]) in *.
    set (a' := VObj l' [("type", t); ("props", VObj lp' (removeNullary ps))]) in *.
    pose proof (nodeCompare_run lenComp true a other
                  (S (Nat.max (height a) (height a'))) ltac:(lia)) as E1.
    pose proof (nodeCompare_run lenComp true a' other
                  (S (Nat.max (height a) (height a'))) ltac:(lia)) as E2.
    subst a a'.
    rewrite (internalNodeCompare_loose_left l lp l' lp') in E1 by assumption.
    congruence.
  - pose proof (nodeCompare_run lenComp true other
                  (VObj l [("type", t); ("props", VObj lp ps)])
                  (S (height other)) ltac:(lia)) as E1.
    pose proof (nodeCompare_run lenComp true other
                  (VObj l' [("type", t); ("props", VObj lp' (removeNullary ps))])
                  (S (height other)) ltac:(lia)) as E2.
    rewrite (internalNodeCompare_loose_right l lp l' lp') in E1
      by (rewrite strict_eq_sym; assumption).
    congruence.
Qed.

Lemma nodeMatches_ignores_nullish_props_witness :
  strict_eq (element 42 "div" [("title", VStr "x"); ("id", VNull)]) div_titled = false
  /\ strict_eq (element 44 "div" (removeNullary [("title", VStr "x"); ("id", VNull)]))
       div_titled = false
  /\ nodeMatches (element 42 "div" [("title", VStr "x"); ("id", VNull)]) div_titled leq
     = nodeMatches (element 44 "div" [("title", VStr "x")]) div_titled leq
  /\ nodeMatches (element 44 "div" [("title", VStr "x")]) div_titled leq = true.
Proof.
  split; [reflexivity | split; [reflexivity | split; [| reflexivity]]].
  exact (proj1 (nodeMatches_ignores_nullish_props 42 43 44 45 (VStr "div")
                  [("title", VStr "x"); ("id", VNull)] div_titled leq
                  eq_refl eq_refl)).
Defined.

(** ** Strict equality implies a loose match *)

Lemma lookup_filter (q : string * value -> bool) k fs :
  NoDup (map fst fs) ->
  lookup k (filter q fs)
  = match lookup k fs with
    | Some v => if q (k, v) then Some v else None
    | None => None
    end.
Proof.
  induction fs as [| [k' v] fs IH]; intros Hnd; [reflexivity|].
  inversion Hnd as [| ? ? Hnotin Hnd']; subst. specialize (IH Hnd').
  cbn [filter lookup]. destruct (k' =? k)%string eqn:E.
  - apply String.eqb_eq in E. subst k'.
    destruct (q (k, v)); cbn [lookup]; [now rewrite String.eqb_refl|].
    rewrite IH. destruct (lookup k fs) as [x |] eqn:El; [| reflexivity].
    exfalso. apply Hnotin. apply lookup_In in El.
    change k with (fst (k, x)). now apply in_map.
  - destruct (q (k', v)); cbn [lookup]; rewrite ?E; exact IH.
Qed.

Lemma valuesAgree_nullish l r :
  valuesAgree l r = true -> is_nullish r = is_nullish l.
Proof.
  unfold valuesAgree.
  destruct (strict_eq r l) eqn:E.
  - intros _. destruct r, l; try discriminate; reflexivity.
  - destruct (jstype_eqb (typeof r) (typeof l) && jstype_eqb (typeof l) TObject) eqn:T;
      [| discriminate].
    intros H. destruct l; try discriminate; destruct r; try discriminate; reflexivity.
Qed.

Lemma childrenToSimplifiedArray_nullish c :
  is_nullish c = true -> childrenToSimplifiedArray c = [].
Proof. destruct c; try discriminate; reflexivity. Qed.

(** Stripping the nullish props does not change the children compared. *)
Lemma simplified_children_removeNullary fs :
  NoDup (map fst fs) ->
  childrenToSimplifiedArray
    (match lookup "children" (removeNullary fs) with Some c => c | None => VUndefined end)
  = childrenToSimplifiedArray
      (match lookup "children" fs with Some c => c | None => VUndefined end).
Proof.
  intros Hnd. unfold removeNullary. rewrite (lookup_filter _ _ _ Hnd).
  destruct (lookup "children" fs) as [c |]; [| reflexivity].
  cbn [snd]. destruct (is_nullish c) eqn:E; [| reflexivity].
  cbn [negb]. now rewrite (childrenToSimplifiedArray_nullish c E).
Qed.

Lemma has_key_removeNullary fs :
  NoDup (map fst fs) ->
  has_key "children" (removeNullary fs) = true -> has_key "children" fs = true.
Proof.
  intros Hnd. unfold has_key, removeNullary. rewrite (lookup_filter _ _ _ Hnd).
  destruct (lookup "children" fs); [reflexivity | discriminate].
Qed.

Lemma nonChildren_removeNullary_keys left right :
  NoDup (map fst left) -> NoDup (map fst right) ->
  forallb own_name (keys left) = true ->
  propsCompare left right = true ->
  forallb (fun kv => match lookup (fst kv) (nonChildren (removeNullary right)) with
                     | Some r => valuesAgree (snd kv) r
                     | None => false
                     end) (nonChildren (removeNullary left)) = true.
Proof.
  intros Hl Hr Ho H. rewrite (propsCompare_nonChildren _ _ Hl Ho) in H.
  rewrite forallb_forall in H. apply forallb_forall. intros [k v] Hin.
  unfold nonChildren in Hin. apply filter_In in Hin as [Hin Hk].
  unfold removeNullary in Hin. apply filter_In in Hin as [Hin Hv].
  cbn [fst snd] in *.
  assert (Hin' : In (k, v) (nonChildren left))
    by (unfold nonChildren; apply filter_In; split; assumption).
  specialize (H _ Hin'). cbn [fst snd] in H.
  unfold nonChildren in H |- *. unfold removeNullary.
  rewrite (lookup_filter _ _ _ Hr) in H.
  rewrite (lookup_filter _ _ _ (NoDup_keys_filter _ _ Hr)).
  rewrite (lookup_filter _ _ _ Hr).
  destruct (lookup k right) as [r |]; [| discriminate].
  cbn [fst snd] in *. rewrite Hk in H |- *.
  rewrite (valuesAgree_nullish _ _ H), Hv. exact H.
Qed.

Lemma propsCompare_removeNullary left right :
  NoDup (map fst left) -> NoDup (map fst right) ->
  forallb own_name (keys left) = true ->
  propsCompare left right = true ->
  propsCompare (removeNullary left) (removeNullary right) = true
  /\ leq (Z.of_nat (List.length (keys (removeNullary left)))
          - bool_to_Z (has_key "children" (removeNullary left)))
         (Z.of_nat (List.length (keys (removeNullary right)))
          - bool_to_Z (has_key "children" (removeNullary right))) = true.
Proof.
  intros Hl Hr Ho H.
  pose proof (nonChildren_removeNullary_keys _ _ Hl Hr Ho H) as G.
  assert (Hl' : NoDup (map fst (removeNullary left)))
    by (unfold removeNullary; now apply NoDup_keys_filter).
  assert (Hr' : NoDup (map fst (removeNullary right)))
    by (unfold removeNullary; now apply NoDup_keys_filter).
  assert (Ho' : forallb own_name (keys (removeNullary left)) = true).
  { apply forallb_forall. intros k Hk. rewrite forallb_forall in Ho. apply Ho.
    unfold keys, removeNullary in *. apply in_map_iff in Hk as [kv [<- Hin]].
    apply filter_In in Hin as [Hin _]. now apply in_map. }
  split.
  - now rewrite (propsCompare_nonChildren _ _ Hl' Ho').
  - rewrite !count_nonChildren by assumption.
    unfold leq. apply Z.leb_le. apply inj_le.
    rewrite <- (length_map fst (nonChildren (removeNullary left))).
    rewrite <- (length_map fst (nonChildren (removeNullary right))).
    apply NoDup_incl_length.
    + unfold nonChildren. now apply NoDup_keys_filter.
    + intros k Hk. apply in_map_iff in Hk as [[k' v] [E Hin]]. cbn in E. subst k'.
      rewrite forallb_forall in G. specialize (G _ Hin). cbn [fst snd] in G.
      destruct (lookup k (nonChildren (removeNullary right))) as [r |] eqn:El;
        [| discriminate].
      apply lookup_In in El. change k with (fst (k, r)). now apply in_map.
Qed.

Lemma everyPair_impl (f g : value -> value -> option bool) a : forall b,
  List.length a = List.length b ->
  (forall x y, In x a -> In y b -> f x y = Some true -> g x y = Some true) ->
  everyPair f a b = Some true -> everyPair g a b = Some true.
Proof.
  induction a as [| x a IH]; intros [| y b] Hlen Hfg; try discriminate; [reflexivity|].
  cbn [everyPair hd tl].
  destruct (f x y) as [[|] |] eqn:E; try discriminate.
  intros H. rewrite (Hfg x y); auto; try now left.
  apply IH; auto. intros x' y' Hx' Hy'. apply Hfg; now right.
Qed.

Lemma internalChildrenCompare_impl (f g : value -> value -> option bool) a b :
  (forall x y, In x a -> In y b -> f x y = Some true -> g x y = Some true) ->
  internalChildrenCompare f a b = Some true ->
  internalChildrenCompare g a b = Some true.
Proof.
  intros Hfg. unfold internalChildrenCompare.
  destruct (List.length a =? List.length b)%nat eqn:El; [| discriminate].
  cbn [negb]. destruct (_ && _); [reflexivity|].
  apply Nat.eqb_eq in El. now apply everyPair_impl.
Qed.

Lemma childrenToArray_wf c :
  wf c = true -> Forall (fun x => wf x = true) (childrenToArray c).
Proof.
  intros H. unfold childrenToArray.
  destruct c; try (destruct (is_nothing _); auto; fail).
  apply Forall_forall. intros x Hx. apply filter_In in Hx as [Hx _].
  exact (wf_items _ _ _ H Hx).
Qed.

Lemma js_add_wf a b : wf (js_add a b) = true.
Proof. destruct a; try reflexivity; destruct b; reflexivity. Qed.

Lemma childrenToSimplifiedArray_wf c :
  wf c = true -> Forall (fun x => wf x = true) (childrenToSimplifiedArray c).
Proof.
  intros Hw. unfold childrenToSimplifiedArray.
  pose proof (childrenToArray_wf c Hw) as H.
  assert (G : forall xs acc,
             Forall (fun x => wf x = true) xs ->
             Forall (fun x => wf x = true) acc ->
             Forall (fun x => wf x = true) (fold_left simplify_step xs acc)).
  { induction xs as [| x xs IH]; intros acc Hx Ha; cbn [fold_left]; [exact Ha|].
    inversion Hx; subst. apply IH; auto.
    unfold simplify_step.
    destruct acc as [| a acc'] using rev_ind.
    - rewrite pop_nil. cbn. unfold push. cbn. auto.
    - rewrite pop_snoc. apply Forall_app in Ha as [Ha1 Ha2]. unfold push.
      inversion Ha2; subst.
      destruct (is_undefined a); [| destruct (isTextualNode x && isTextualNode a)].
      + apply Forall_app. split; auto.
      + apply Forall_app. split; auto. constructor; auto. apply js_add_wf.
      + rewrite <- app_assoc. apply Forall_app. split; auto. cbn. auto. }
  now apply G.
Qed.

Lemma simplified_children_wf a :
  wf a = true ->
  Forall (fun x => wf x = true)
    (childrenToSimplifiedArray
       (match lookup "children" (propsOfNode a) with Some c => c | None => VUndefined end)).
Proof.
  intros Hw. apply childrenToSimplifiedArray_wf.
  destruct (lookup "children" (propsOfNode a)) as [c |] eqn:E; [| reflexivity].
  apply lookup_In in E. destruct (propsOfNode_wf a Hw) as [_ Hv]. apply Hv.
  change c with (snd ("children", c)). now apply in_map.
Qed.

(** *** Member names of their own *)

Lemma own_name_index n : own_name (string_of_nat n) = true.
Proof. unfold string_of_nat. destruct (Nat.to_uint n); reflexivity. Qed.

Lemma own_named_members v l fs :
  (v = VObj l fs \/ v = VFun l fs) -> own_named v = true ->
  forall kv, In kv fs -> own_name (fst kv) = true /\ own_named (snd kv) = true.
Proof.
  intros Hv H kv Hin.
  assert (G : forallb (fun kv => own_name (fst kv) && own_named (snd kv)) fs = true)
    by (destruct Hv as [-> | ->]; exact H).
  rewrite forallb_forall in G. now apply andb_true_iff, G.
Qed.

Lemma own_named_get v k : own_named v = true -> own_named (get v k) = true.
Proof.
  intros H. destruct v; try reflexivity; cbn [get];
    (destruct (lookup k fields) as [x |] eqn:E; [| reflexivity]);
    apply lookup_In in E;
    eapply (own_named_members _ l fields) in E; eauto; apply E.
Qed.

Lemma own_named_entries p kv :
  own_named p = true -> In kv (entries p) ->
  own_name (fst kv) = true /\ own_named (snd kv) = true.
Proof.
  intros H Hin.
  destruct p as [| | | | s | l fs | l xs | l fs]; cbn [entries] in Hin;
    try contradiction.
  - destruct kv as [k x]. unfold indexed_entries in Hin.
    pose proof (in_combine_l _ _ _ _ Hin) as Hk.
    pose proof (in_combine_r _ _ _ _ Hin) as Hx.
    apply in_map_iff in Hk as [i [<- _]]. apply in_map_iff in Hx as [c [<- _]].
    split; [apply own_name_index | reflexivity].
  - apply filter_In in Hin as [Hin _].
    apply (own_named_members (VFun l fs) l fs); auto.
  - destruct kv as [k x]. unfold indexed_entries in Hin.
    pose proof (in_combine_l _ _ _ _ Hin) as Hk.
    pose proof (in_combine_r _ _ _ _ Hin) as Hx.
    apply in_map_iff in Hk as [i [<- _]].
    split; [apply own_name_index|].
    cbn [own_named] in H. rewrite forallb_forall in H. now apply H.
  - apply (own_named_members (VObj l fs) l fs); auto.
Qed.

Lemma propsOfNode_own_named a kv :
  own_named a = true -> In kv (propsOfNode a) ->
  own_name (fst kv) = true /\ own_named (snd kv) = true.
Proof.
  intros H Hin. unfold propsOfNode in Hin. apply filter_In in Hin as [Hin _].
  destruct (truthy a) eqn:Ta; [| rewrite Ta in Hin; contradiction].
  destruct (truthy (get a "props")); [| contradiction].
  apply (own_named_entries (get a "props")); [now apply own_named_get | exact Hin].
Qed.

Lemma propsOfNode_own_keys a :
  own_named a = true -> forallb own_name (keys (propsOfNode a)) = true.
Proof.
  intros H. apply forallb_forall. intros k Hk. unfold keys in Hk.
  apply in_map_iff in Hk as [kv [<- Hin]].
  now apply (propsOfNode_own_named a kv).
Qed.

Lemma js_add_own_named a b : own_named (js_add a b) = true.
Proof. destruct a; try reflexivity; destruct b; reflexivity. Qed.

Lemma childrenToSimplifiedArray_own_named c :
  own_named c = true ->
  Forall (fun x => own_named x = true) (childrenToSimplifiedArray c).
Proof.
  intros Hw. unfold childrenToSimplifiedArray.
  assert (H : Forall (fun x => own_named x = true) (childrenToArray c)).
  { unfold childrenToArray.
    destruct c; try (destruct (is_nothing _); auto; fail).
    apply Forall_forall. intros x Hx. apply filter_In in Hx as [Hx _].
    cbn [own_named] in Hw. rewrite forallb_forall in Hw. now apply Hw. }
  assert (G : forall xs acc,
             Forall (fun x => own_named x = true) xs ->
             Forall (fun x => own_named x = true) acc ->
             Forall (fun x => own_named x = true) (fold_left simplify_step xs acc)).
  { induction xs as [| x xs IH]; intros acc Hx Ha; cbn [fold_left]; [exact Ha|].
    inversion Hx; subst. apply IH; auto.
    unfold simplify_step.
    destruct acc as [| a acc'] using rev_ind.
    - rewrite pop_nil. cbn. unfold push. cbn. auto.
    - rewrite pop_snoc. apply Forall_app in Ha as [Ha1 Ha2]. unfold push.
      inversion Ha2; subst.
      destruct (is_undefined a); [| destruct (isTextualNode x && isTextualNode a)].
      + apply Forall_app. split; auto.
      + apply Forall_app. split; auto. constructor; auto. apply js_add_own_named.
      + rewrite <- app_assoc. apply Forall_app. split; auto. cbn. auto. }
  now apply G.
Qed.

Lemma simplified_children_own_named a :
  own_named a = true ->
  Forall (fun x => own_named x = true)
    (childrenToSimplifiedArray
       (match lookup "children" (propsOfNode a) with Some c => c | None => VUndefined end)).
Proof.
  intros Hw. apply childrenToSimplifiedArray_own_named.
  destruct (lookup "children" (propsOfNode a)) as [c |] eqn:E; [| reflexivity].
  apply lookup_In in E. now apply (propsOfNode_own_named a ("children", c)).
Qed.

Lemma internalNodeCompare_strict_loose lenComp fuel : forall a b,
  wf a = true -> wf b = true -> own_named a = true ->
  internalNodeCompare fuel a b lenComp false = Some true ->
  internalNodeCompare fuel a b leq true = Some true.
Proof.
  induction fuel as [| fuel IH]; intros a b Ha Hb Oa H; [discriminate|].
  cbn [internalNodeCompare] in H |- *.
  destruct (strict_eq a b); [reflexivity|].
  destruct (negb (truthy a) || negb (truthy b)); [discriminate|].
  destruct (negb (strict_eq (get a "type") (get b "type"))); [discriminate|].
  destruct (propsCompare (propsOfNode a) (propsOfNode b)) eqn:Ep; [| discriminate].
  cbn [negb] in H.
  destruct (propsOfNode_wf a Ha) as [Ka _].
  destruct (propsOfNode_wf b Hb) as [Kb _].
  destruct (propsCompare_removeNullary _ _ Ka Kb (propsOfNode_own_keys a Oa) Ep)
    as [Ep' Hcount].
  rewrite Ep'. cbn [negb].
  rewrite !simplified_children_removeNullary by assumption.
  pose proof (simplified_children_wf a Ha) as Wa.
  pose proof (simplified_children_wf b Hb) as Wb.
  pose proof (simplified_children_own_named a Oa) as Na.
  rewrite Forall_forall in Wa, Wb, Na.
  match type of H with
  | match ?c with _ => _ end = _ => destruct c as [[|] |] eqn:Ec; try discriminate
  end.
  destruct (isTextualNode a); [discriminate|]. cbn [negb].
  match goal with
  | |- match ?d with _ => _ end = _ => assert (Ed : d = Some true)
  end.
  { destruct (has_key "children" (removeNullary (propsOfNode a))
              || has_key "children" (removeNullary (propsOfNode b))) eqn:Eh;
      [| reflexivity].
    assert (Eh' : has_key "children" (propsOfNode a)
                  || has_key "children" (propsOfNode b) = true).
    { apply orb_true_iff in Eh as [Eh | Eh];
        apply has_key_removeNullary in Eh; auto; rewrite Eh;
        [reflexivity | apply orb_true_r]. }
    rewrite Eh' in Ec. revert Ec. apply internalChildrenCompare_impl.
    intros x y Hx Hy. apply IH; auto. }
  rewrite Ed. now rewrite Hcount.
Qed.

(** X15: Between values whose members all have names of their own (none
    is named like a member every object inherits), whatever [nodeEqual]
    accepts, [nodeMatches] with the loose length comparator [<=] accepts
    too, whatever length comparator the strict comparison ran with. *)
Theorem nodeEqual_implies_nodeMatches (a b : value) (lenComp : Z -> Z -> bool) :
  wf a = true -> wf b = true ->
  own_named a = true -> own_named b = true ->
  nodeEqual a b lenComp = true -> nodeMatches a b leq = true.
Proof.
  intros Ha Hb Oa _ H. unfold nodeEqual, nodeMatches in *.
  pose proof (nodeCompare_run lenComp false a b (S (height a)) ltac:(lia)) as E1.
  pose proof (nodeCompare_run leq true a b (S (height a)) ltac:(lia)) as E2.
  rewrite H in E1.
  rewrite (internalNodeCompare_strict_loose _ _ _ _ Ha Hb Oa E1) in E2. congruence.
Qed.

Lemma nodeEqual_implies_nodeMatches_witness :
  wf list_one = true /\ wf list_two = true
  /\ own_named list_one = true /\ own_named list_two = true
  /\ nodeEqual list_one list_two object_is = true
  /\ nodeMatches list_one list_two leq = true.
Proof.
  do 5 (split; [reflexivity|]).
  exact (nodeEqual_implies_nodeMatches list_one list_two object_is
           eq_refl eq_refl eq_refl eq_refl eq_refl).
Defined.

(** ** Sub-array containment *)

Lemma arraysEqual_Forall2 (m : value -> value -> bool) left right :
  arraysEqual m left right = true <-> Forall2 (fun x y => m x y = true) left right.
Proof.
  unfold arraysEqual. revert right.
  induction left as [| x left IH]; intros [| y right]; cbn; split; intros H;
    try discriminate; try constructor; try (now inversion H).
  - apply andb_true_iff in H as [Hl H]. apply andb_true_iff in H as [H _]. exact H.
  - apply IH. apply andb_true_iff in H as [Hl H]. apply andb_true_iff in H as [_ H].
    cbn in Hl. now rewrite Hl.
  - inversion H as [| ? ? ? ? Hxy Hrest]; subst. apply IH in Hrest.
    apply andb_true_iff in Hrest as [Hl Hf]. cbn. rewrite Hl, Hxy, Hf. reflexivity.
Qed.

Lemma slice_window {A} (cs : list A) i k :
  i < List.length cs ->
  array_slice cs (Some (Z.of_nat i)) (Some (Z.of_nat i + Z.of_nat k)%Z)
  = firstn k (skipn i cs).
Proof.
  intros Hi. unfold array_slice, relative_index.
  destruct (Z.of_nat i <? 0)%Z eqn:E1; [apply Z.ltb_lt in E1; lia|].
  destruct (Z.of_nat i + Z.of_nat k <? 0)%Z eqn:E2; [apply Z.ltb_lt in E2; lia|].
  rewrite (Z.min_l (Z.of_nat i)) by lia. rewrite Nat2Z.id.
  destruct (Nat.le_gt_cases (i + k) (List.length cs)) as [Hle | Hgt].
  - rewrite Z.min_l by lia. f_equal. lia.
  - rewrite Z.min_r by lia.
    rewrite !firstn_all2; [reflexivity | |]; rewrite length_skipn; lia.
Qed.

(** X16: On a node with a [children] array, [containsChildrenSubArray] answers
    [true] exactly when the sub-array matches, element by element, a run
    of neighbouring children that starts inside the array; an empty
    sub-array is found in every node but a childless one. *)
Theorem containsChildrenSubArray_finds_a_run (m : value -> value -> bool)
    (node : value) (subArray : list value) (l : loc) (cs : list value) :
  get node "children" = VArr l cs ->
  (containsChildrenSubArray m node subArray = Ok true
   <-> exists before run after,
         cs = before ++ run ++ after
         /\ List.length before < List.length cs
         /\ Forall2 (fun x y => m x y = true) run subArray)
  /\ (containsChildrenSubArray m node [] = Ok (negb (List.length cs =? 0)%nat)).
Proof.
  intros Hc.
  assert (Ep : getprop node "children" = Ok (VArr l cs))
    by (destruct node; try discriminate; cbn [getprop]; now rewrite Hc).
  unfold containsChildrenSubArray. rewrite Ep. cbn [bind]. split.
  - split.
    + intros H. injection H as H. apply existsb_exists in H as [i [Hi H]].
      apply in_seq in Hi. rewrite slice_window in H by lia.
      apply arraysEqual_Forall2 in H.
      exists (firstn i cs), (firstn (List.length subArray) (skipn i cs)),
             (skipn (List.length subArray) (skipn i cs)).
      rewrite firstn_skipn, firstn_skipn. repeat split; auto.
      rewrite length_firstn. lia.
    + intros [before [run [after [-> [Hlen H]]]]]. f_equal.
      apply existsb_exists. exists (List.length before). split.
      * apply in_seq. lia.
      * rewrite slice_window by exact Hlen.
        rewrite skipn_app, skipn_all, Nat.sub_diag. cbn [skipn app].
        rewrite <- (Forall2_length H).
        rewrite firstn_app, firstn_all, Nat.sub_diag. cbn [firstn].
        rewrite app_nil_r. now apply arraysEqual_Forall2.
  - f_equal. destruct cs as [| c cs]; [reflexivity|].
    cbn [List.length Nat.eqb negb seq existsb].
    rewrite (slice_window (c :: cs) 0 0) by (cbn; lia). reflexivity.
Qed.

Lemma containsChildrenSubArray_finds_a_run_witness :
  containsChildrenSubArray (fun x y => nodeEqual x y object_is) ul_instance [li_two]
  = Ok true.
Proof.
  destruct (containsChildrenSubArray_finds_a_run
              (fun x y => nodeEqual x y object_is) ul_instance [li_two]
              109 [li_one; li_two] eq_refl) as [[_ H] _].
  apply H. exists [li_one], [li_two], []. repeat split.
  - cbn. lia.
  - repeat constructor.
Defined.

(** ** Indentation *)

Lemma split_lines_nonempty s : split_lines s <> [].
Proof.
  destruct s as [| c s]; cbn; [discriminate|].
  destruct (Ascii.eqb c newline); [discriminate|].
  destruct (split_lines s); discriminate.
Qed.

Lemma join_lines_cons line rest :
  rest <> [] -> join_lines (line :: rest) = (line ++ String newline (join_lines rest))%string.
Proof. destruct rest; [congruence | reflexivity]. Qed.

Lemma join_split s : join_lines (split_lines s) = s.
Proof.
  induction s as [| c s IH]; [reflexivity|].
  cbn [split_lines]. destruct (Ascii.eqb c newline) eqn:E.
  - apply Ascii.eqb_eq in E. subst c.
    rewrite join_lines_cons by apply split_lines_nonempty. cbn. now rewrite IH.
  - pose proof (split_lines_nonempty s) as Hn.
    destruct (split_lines s) as [| line lines]; [congruence|].
    destruct lines as [| l2 lines]; cbn in *; now rewrite <- IH.
Qed.

Lemma split_lines_one_line s : Forall one_line (split_lines s).
Proof.
  induction s as [| c s IH]; [repeat constructor; intros []|].
  cbn [split_lines]. destruct (Ascii.eqb c newline) eqn:E.
  - constructor; [intros [] | exact IH].
  - pose proof (split_lines_nonempty s) as Hn.
    destruct (split_lines s) as [| line lines]; [congruence|].
    inversion IH as [| ? ? Hl Hls]; subst. constructor; [| exact Hls].
    unfold one_line in *. cbn. intros [H | H]; [| contradiction].
    apply Ascii.eqb_neq in E. congruence.
Qed.

Lemma split_one_line_then s t :
  one_line s -> split_lines (s ++ String newline t) = s :: split_lines t.
Proof.
  induction s as [| c s IH]; intros H.
  - cbn [append split_lines]. now rewrite Ascii.eqb_refl.
  - cbn [append split_lines].
    destruct (Ascii.eqb c newline) eqn:E.
    + apply Ascii.eqb_eq in E. subst c. exfalso. apply H. now left.
    + rewrite IH; [reflexivity|]. intros Hin. apply H. now right.
Qed.

Lemma split_one_line s : one_line s -> split_lines s = [s].
Proof.
  induction s as [| c s IH]; intros H; [reflexivity|].
  cbn [split_lines]. destruct (Ascii.eqb c newline) eqn:E.
  - apply Ascii.eqb_eq in E. subst c. exfalso. apply H. now left.
  - rewrite IH; [reflexivity|]. intros Hin. apply H. now right.
Qed.

Lemma split_join lines :
  lines <> [] -> Forall one_line lines -> split_lines (join_lines lines) = lines.
Proof.
  induction lines as [| line rest IH]; intros Hn Hf; [congruence|].
  inversion Hf as [| ? ? Hl Hr]; subst.
  destruct rest as [| l2 rest].
  - cbn. now apply split_one_line.
  - rewrite join_lines_cons by discriminate.
    rewrite split_one_line_then by exact Hl.
    now rewrite IH by (auto; discriminate).
Qed.

Lemma spaces_one_line n : one_line (spaces n).
Proof.
  unfold one_line. induction n as [| n IH]; cbn; [intros [] |].
  intros [H | H]; [discriminate | contradiction].
Qed.

Lemma one_line_append s t : one_line s -> one_line t -> one_line (s ++ t).
Proof.
  unfold one_line. induction s as [| c s IH]; cbn; intros Hs Ht; [exact Ht|].
  intros [H | H]; [apply Hs; now left|].
  revert H. apply IH; auto.
Qed.

Lemma spaces_add m n : (spaces m ++ spaces n)%string = spaces (m + n).
Proof. induction m as [| m IH]; cbn; [reflexivity | now rewrite IH]. Qed.

Lemma split_indent depth s :
  split_lines (indent depth s) = map (fun x => (spaces depth ++ x)%string) (split_lines s).
Proof.
  unfold indent. apply split_join.
  - pose proof (split_lines_nonempty s). destruct (split_lines s); [congruence | discriminate].
  - apply Forall_map. eapply Forall_impl; [| apply split_lines_one_line].
    intros x Hx. apply one_line_append; [apply spaces_one_line | exact Hx].
Qed.

(** X19: [indent] puts [depth] spaces in front of every line and changes
    nothing else: depth 0 gives the string back, the lines stay as many,
    and indenting twice is indenting once by the sum. *)
Theorem indent_prefixes_every_line (s : string) (m n : nat) :
  indent 0 s = s
  /\ split_lines (indent n s)
     = map (fun x => (spaces n ++ x)%string) (split_lines s)
  /\ indent m (indent n s) = indent (m + n) s.
Proof.
  split; [| split].
  - unfold indent. cbn [spaces].
    rewrite (map_ext _ (fun x => x)) by reflexivity.
    rewrite map_id. apply join_split.
  - apply split_indent.
  - unfold indent at 1. rewrite split_indent. rewrite map_map. unfold indent.
    f_equal. apply map_ext. intros x.
    now rewrite <- append_assoc, spaces_add.
Qed.

Lemma split_lines_append s t :
  split_lines (s ++ String newline t) = (split_lines s ++ split_lines t)%list.
Proof.
  induction s as [| c s IH]; cbn [append split_lines].
  - now rewrite Ascii.eqb_refl.
  - destruct (Ascii.eqb c newline); rewrite IH; [reflexivity|].
    pose proof (split_lines_nonempty s) as Hn.
    destruct (split_lines s); [congruence | reflexivity].
Qed.

Lemma split_join_lines lines :
  lines <> [] -> split_lines (join_lines lines) = flat_map split_lines lines.
Proof.
  induction lines as [| line rest IH]; intros Hn; [congruence|].
  destruct rest as [| l2 rest].
  - cbn. now rewrite app_nil_r.
  - rewrite join_lines_cons by discriminate.
    rewrite split_lines_append, IH by discriminate. reflexivity.
Qed.

(** X20: The block [indentChildren] builds for a non-empty list of rendered
    children starts and ends with a line break and holds, in between, every
    line of every child behind [indentLength] spaces, in order; for no
    children it is empty. *)
Theorem indentChildren_indents_each_line (childrenStrs : list string) (indentLength : nat) :
  childrenStrs <> [] ->
  split_lines (indentChildren childrenStrs indentLength)
  = ("" :: flat_map (fun c => map (fun x => (spaces indentLength ++ x)%string)
                                  (split_lines c)) childrenStrs
        ++ [""])%list
  /\ indentChildren [] indentLength = "".
Proof.
  intros Hn. split; [| reflexivity].
  unfold indentChildren. destruct childrenStrs as [| c cs]; [congruence|].
  cbn [split_lines]. rewrite Ascii.eqb_refl. f_equal.
  rewrite split_lines_append. cbn [split_lines]. f_equal.
  rewrite split_join_lines by discriminate.
  rewrite flat_map_concat_map, map_map, <- flat_map_concat_map.
  apply flat_map_ext. intros x. apply split_indent.
Qed.

Lemma indentChildren_indents_each_line_witness :
  [("<li>" ++ String newline "  a")%string; "<li />"] <> []
  /\ split_lines (indentChildren [("<li>" ++ String newline "  a")%string; "<li />"] 2)
     = [""; "  <li>"; "    a"; "  <li />"; ""].
Proof.
  split; [discriminate|].
  exact (proj1 (indentChildren_indents_each_line
                  [("<li>" ++ String newline "  a")%string; "<li />"] 2
                  ltac:(discriminate))).
Defined.

(** ** Rendered text *)

Lemma keyed_flat_map {A} k (F : value -> list A) fs c :
  NoDup (map fst fs) -> lookup k fs = Some c ->
  flat_map (fun kv => if fst kv =? k then F (snd kv) else []) fs = F c.
Proof.
  induction fs as [| [k' v'] fs IH]; cbn; intros Hnd H; [discriminate|].
  inversion Hnd as [| ? ? Hnotin Hnd']; subst.
  destruct (k' =? k)%string eqn:E.
  - injection H as ->. apply String.eqb_eq in E. subst k'.
    assert (R : flat_map (fun kv => if fst kv =? k then F (snd kv) else []) fs = []).
    { clear -Hnotin. induction fs as [| [k2 v2] fs IH]; cbn; [reflexivity|].
      cbn in Hnotin. destruct (k2 =? k)%string eqn:E2.
      - apply String.eqb_eq in E2. subst. exfalso. apply Hnotin. now left.
      - apply IH. intros Hin. apply Hnotin. now right. }
    rewrite R. apply app_nil_r.
  - now apply IH.
Qed.

Lemma unkeyed_flat_map {A} k (F : value -> list A) fs :
  lookup k fs = None ->
  flat_map (fun kv => if fst kv =? k then F (snd kv) else []) fs = [].
Proof.
  induction fs as [| [k' v'] fs IH]; cbn; intros H; [reflexivity|].
  destruct (k' =? k)%string; [discriminate | now apply IH].
Qed.

Lemma inert_object l fs :
  inert (VObj l fs) = true ->
  truthy (get (VObj l fs) "instance") = false
  /\ match get (VObj l fs) "children" with
     | VArr _ xs => forallb inert xs = true
                    /\ string_leaves (VObj l fs) = flat_map string_leaves xs
     | c => truthy c = false /\ string_leaves (VObj l fs) = []
     end.
Proof.
  cbn [inert get]. intros H.
  apply andb_true_iff in H as [H Hc]. apply andb_true_iff in H as [Hnd Hi].
  apply nodupb_NoDup in Hnd. apply negb_true_iff in Hi. split; [exact Hi|].
  cbn [string_leaves].
  destruct (lookup "children" fs) as [c |] eqn:E.
  - rewrite (keyed_flat_map "children"
               (fun v => match v with VArr _ xs => flat_map string_leaves xs | _ => [] end)
               fs c Hnd E).
    apply lookup_In in E. rewrite forallb_forall in Hc. specialize (Hc _ E).
    cbn in Hc. destruct c; try (apply negb_true_iff in Hc); auto.
  - split; [reflexivity|].
    now apply (unkeyed_flat_map "children"
                 (fun v => match v with VArr _ xs => flat_map string_leaves xs | _ => [] end)).
Qed.

Lemma findAllFirst_fuel_inert fuel : forall v,
  inert v = true -> height v < fuel ->
  findAllFirst_fuel fuel v = Some (Ok (map VStr (string_leaves v))).
Proof.
  induction fuel as [| fuel IH]; intros v Hv Hh; [lia|].
  destruct v as [| | b | n | s | l fs | l xs | l fs]; try discriminate; try reflexivity.
  pose proof (inert_object l fs Hv) as [Hi Hc].
  cbn [findAllFirst_fuel]. unfold shows_text. cbn [getprop bind].
  rewrite Hi. cbn [orb typeof jstype_eqb].
  destruct (get (VObj l fs) "children") as [| | b | n | s | l' fs' | l' xs | l' fs'] eqn:E;
    try (destruct Hc as [Hc ->]; try rewrite Hc; reflexivity).
  destruct Hc as [Hall ->].
  assert (Hlt : forall x, In x xs -> height x < fuel).
  { intros x Hx. pose proof (height_get_array _ _ _ _ _ E Hx). lia. }
  rewrite forallb_forall in Hall.
  assert (R : (fix each (cs : list value) : option (result (list value)) :=
                 match cs with
                 | [] => Some (Ok [])
                 | child :: cs' =>
                     match findAllFirst_fuel fuel child with
                     | Some (Ok found) =>
                         match each cs' with
                         | Some (Ok rest) => Some (Ok (found ++ rest)%list)
                         | r => r
                         end
                     | r => r
                     end
                 end) xs = Some (Ok (map VStr (flat_map string_leaves xs)))).
  { clear E. induction xs as [| x xs IHxs]; [reflexivity|].
    rewrite (IH x) by (try apply Hall; try apply Hlt; now left).
    rewrite IHxs by (intros; try apply Hall; try apply Hlt; now right).
    cbn [flat_map]. now rewrite map_app. }
  destruct xs as [| x xs]; [reflexivity | exact R].
Qed.






Section TextContent.
Variable textContent : value -> result string.

Lemma shown_text_string s : shown_text textContent (VStr s) = Ok s.
Proof. reflexivity. Qed.

(** X22: [text()] on a wrapper of one node.  When the node carries a component
    instance, the text is the DOM text of that instance and the tree below
    is not read.  When the tree below the node holds no component instance,
    the text is the concatenation of its string leaves from left to right:
    numbers and booleans among the children are left out. *)
Theorem text_is_instance_text_or_string_leaves (w : Wrapper) (inst : value) :
  instances w = [inst] ->
  (forall i, getprop inst "instance" = Ok i -> truthy i = true ->
             text textContent w = textContent i)
  /\ (inert inst = true ->
      text textContent w = Ok (String.concat "" (string_leaves inst))).
Proof.
  intros Hw. unfold text.
  rewrite single_one by (unfold wlength; now rewrite Hw).
  rewrite Hw. cbn [index nth_error]. 
  replace (index [inst] 0) with inst by reflexivity.
  split.
  - intros i Hi Ht. unfold findAllFirst. cbn [findAllFirst_fuel].
    unfold shows_text. rewrite Hi. cbn [bind]. rewrite Ht. cbn [orb bind mapM].
    unfold shown_text. rewrite Hi. cbn [bind]. rewrite Ht.
    destruct (textContent i) as [t | e]; [| reflexivity].
    reflexivity.
  - intros Hin. unfold findAllFirst.
    rewrite findAllFirst_fuel_inert by (auto; lia). cbn [bind].
    rewrite (mapM_Ok (shown_text textContent)
               (fun v => match v with VStr s => s | _ => "" end));
      [cbn [bind]; now rewrite map_map, map_id|].
    intros x Hx. apply in_map_iff in Hx as [s [<- _]]. reflexivity.
Qed.
End TextContent.

Lemma text_is_instance_text_or_string_leaves_witness :
  (instances p_wrapper = [p_instance]
   /\ inert p_instance = true
   /\ text (fun _ => Ok "dom") p_wrapper = Ok "Total:  items")
  /\ (instances top_wrapper = [top_instance]
      /\ getprop top_instance "instance" = Ok root_ref
      /\ truthy root_ref = true
      /\ text (fun _ => Ok "dom") top_wrapper = Ok "dom").
Proof.
  split.
  - split; [reflexivity|]. split; [reflexivity|].
    exact (proj2 (text_is_instance_text_or_string_leaves
                    (fun _ => Ok "dom") p_wrapper p_instance eq_refl) eq_refl).
  - split; [reflexivity|]. split; [reflexivity|]. split; [reflexivity|].
    exact (proj1 (text_is_instance_text_or_string_leaves
                    (fun _ => Ok "dom") top_wrapper top_instance eq_refl)
                 root_ref eq_refl eq_refl).
Defined.

(** ** Callbacks and single-node checks *)

Lemma array_some_every {A} (p : A -> result bool) xs :
  array_some p xs
  = (b <- array_every (fun x => b <- p x ;; Ok (negb b)) xs ;; Ok (negb b)).
Proof.
  induction xs as [| x xs IH]; [reflexivity|].
  cbn [array_some array_every]. destruct (p x) as [[|] | e]; cbn [bind negb];
    [reflexivity | exact IH | reflexivity].
Qed.

Lemma array_every_indexed {A} (f : A -> nat -> result bool) xs : forall k,
  array_every (fun ni => f (fst ni) (snd ni)) (combine xs (seq k (List.length xs)))
  = Ok true
  <-> forall j n, nth_error xs j = Some n -> f n (k + j) = Ok true.
Proof.
  induction xs as [| x xs IH]; intros k.
  - split; [intros _ [| j] n H; discriminate | reflexivity].
  - cbn [List.length seq combine array_every fst snd]. split.
    + intros H j n Hj.
      destruct (f x k) as [[|] | e] eqn:E; cbn [bind] in H; try discriminate.
      destruct j as [| j].
      * injection Hj as <-. now rewrite Nat.add_0_r.
      * replace (k + S j) with (S k + j) by lia.
        apply (proj1 (IH (S k)) H). exact Hj.
    + intros H. rewrite <- (Nat.add_0_r k) at 1.
      rewrite (H 0 x eq_refl). cbn [bind].
      apply IH. intros j n Hj.
      replace (S k + j) with (k + S j) by lia. now apply H.
Qed.

(** X23: [everyWhere] answers true exactly when the predicate accepts every
    node, each wrapped on its own and given with its index; [someWhere] is
    its dual, exceptions included: both stop at the same node. *)
Theorem everyWhere_someWhere_dual (w : Wrapper)
    (predicate : Wrapper -> nat -> result bool) :
  (everyWhere w predicate = Ok true
   <-> forall i n, nth_error (instances w) i = Some n ->
                   predicate (wrap w [n]) i = Ok true)
  /\ someWhere w predicate
     = (b <- everyWhere w (fun x i => b <- predicate x i ;; Ok (negb b)) ;;
        Ok (negb b)).
Proof.
  split.
  - unfold everyWhere, indexed.
    apply (array_every_indexed (fun n i => predicate (wrap w [n]) i) (instances w) 0).
  - unfold someWhere, everyWhere. apply array_some_every.
Qed.

Lemma everyWhere_someWhere_dual_witness :
  everyWhere pair_wrapper
    (fun x _ => Ok (strict_eq (get (index (instances x) 0) "instance") VNull)) = Ok true
  /\ Ok (strict_eq
           (get (index (instances (wrap pair_wrapper [span_instance])) 0) "instance")
           VNull)
     = Ok true.
Proof.
  split; [reflexivity|].
  exact (proj1 (proj1 (everyWhere_someWhere_dual pair_wrapper
                         (fun x _ => Ok (strict_eq (get (index (instances x) 0) "instance")
                                           VNull))))
               eq_refl 1 span_instance eq_refl).
Defined.

Lemma preorder_head tree : exists rest, preorder tree = tree :: rest.
Proof. destruct tree; cbn [preorder]; eauto. Qed.

(** X24: A single node that [matchesElement] accepts is found by
    [containsMatchingElement] as well: the search looks at the node itself
    before its descendants. *)
Theorem matchesElement_implies_containsMatchingElement {ext : Collaborators}
    (w : Wrapper) (node inst : value) :
  instances w = [inst] ->
  branching inst = true ->
  matchesElement w node = Ok true ->
  containsMatchingElement w node = Ok true.
Proof.
  intros Hw Hb H. unfold matchesElement in H.
  rewrite single_one in H by (unfold wlength; now rewrite Hw).
  rewrite Hw in H. replace (index [inst] 0) with inst in H by reflexivity.
  unfold containsMatchingElement.
  destruct (elementToInstance node) as [arg | e]; [| discriminate]. cbn [bind] in *.
  destruct (getprop arg "children") as [cs | e]; [| discriminate]. cbn [bind] in *.
  destruct (getindex cs 0) as [c0 | e]; [| discriminate]. cbn [bind] in *.
  injection H as H.
  rewrite (findWhereUnwrapped_branching (instances w) (fun other => nodeMatches c0 other leq))
    by (rewrite Hw; cbn; now rewrite Hb).
  cbn [bind]. rewrite Hw. cbn [flat_map]. rewrite app_nil_r.
  destruct (preorder_head inst) as [rest ->]. cbn [filter]. now rewrite H.
Qed.

Lemma matchesElement_implies_containsMatchingElement_witness :
  instances (mkWrapper [li_two] root_ref VUndefined sample_renderer) = [li_two]
  /\ branching li_two = true
  /\ @matchesElement sample_collaborators
       (mkWrapper [li_two] root_ref VUndefined sample_renderer)
       (element 200 "li" [("title", VStr "x")]) = Ok true
  /\ @containsMatchingElement sample_collaborators
       (mkWrapper [li_two] root_ref VUndefined sample_renderer)
       (element 200 "li" [("title", VStr "x")]) = Ok true.
Proof.
  split; [reflexivity|]. split; [reflexivity|]. split; [reflexivity|].
  exact (@matchesElement_implies_containsMatchingElement sample_collaborators
           (mkWrapper [li_two] root_ref VUndefined sample_renderer)
           (element 200 "li" [("title", VStr "x")]) li_two eq_refl eq_refl eq_refl).
Defined.

(** X25: [childAt(i)] on a wrapper of one node whose [children] is an array
    wraps the i-th child, or [undefined] when there is none; on any other
    number of nodes it throws the single-node error under its own name. *)
Theorem childAt_wraps_the_indexed_child {ext : Collaborators}
    (w : Wrapper) (i : Z) :
  (forall inst l cs, instances w = [inst] -> get inst "children" = VArr l cs ->
                     childAt w i = Ok (wrap w [index cs i]))
  /\ (wlength w <> 1 ->
      childAt w i = Throw (SingleNodeRequiredError "childAt" (wlength w))).
Proof.
  split.
  - intros inst l cs Hw Hc. unfold childAt.
    rewrite single_one by (unfold wlength; now rewrite Hw).
    unfold children. rewrite Hw.
    rewrite (flatMap_arrays _ _ (fun _ => l) (fun _ => cs)).
    + cbn [flat_map bind truthy]. rewrite app_nil_r. reflexivity.
    + intros x [E | []]. subst x.
      destruct inst; try discriminate; cbn [getprop]; now rewrite Hc.
  - intros Hn. unfold childAt, single.
    destruct (wlength w =? 1)%nat eqn:E; [| reflexivity].
    apply Nat.eqb_eq in E. contradiction.
Qed.

Lemma childAt_wraps_the_indexed_child_witness :
  (instances ul_wrapper = [ul_instance]
   /\ @childAt sample_collaborators ul_wrapper 1 = Ok (wrap ul_wrapper [li_two])
   /\ @childAt sample_collaborators ul_wrapper 5 = Ok (wrap ul_wrapper [VUndefined]))
  /\ (wlength pair_wrapper <> 1
      /\ @childAt sample_collaborators pair_wrapper 0
         = Throw (SingleNodeRequiredError "childAt" 2)).
Proof.
  split; [split; [reflexivity | split] | split; [discriminate|]].
  - exact (proj1 (@childAt_wraps_the_indexed_child sample_collaborators ul_wrapper 1)
             ul_instance _ _ eq_refl eq_refl).
  - exact (proj1 (@childAt_wraps_the_indexed_child sample_collaborators ul_wrapper 5)
             ul_instance _ _ eq_refl eq_refl).
  - exact (proj2 (@childAt_wraps_the_indexed_child sample_collaborators pair_wrapper 0)
             ltac:(discriminate)).
Defined.

(** ** Host nodes *)

Lemma array_filter_pure {A} (p : A -> result bool) (q : A -> bool) xs :
  (forall x, In x xs -> p x = Ok (q x)) -> array_filter p xs = Ok (filter q xs).
Proof.
  induction xs as [| x xs IH]; intros H; [reflexivity|].
  cbn [array_filter filter]. rewrite (H x (or_introl eq_refl)). cbn [bind].
  rewrite IH by (intros y Hy; apply H; now right). cbn [bind].
  now destruct (q x).
Qed.

(** X17: [hostNodes()] keeps, in their order, exactly the nodes whose [type]
    is a string, so it drops text leaves with the composite nodes; on an
    entry that is [null] or [undefined] it throws. *)
Theorem hostNodes_keeps_string_typed (w : Wrapper) :
  ((forall i, In i (instances w) -> is_nullish i = false) ->
   hostNodes w
   = Ok (wrap w (filter (fun i => jstype_eqb (typeof (get i "type")) TString)
                   (instances w))))
  /\ ((exists i, In i (instances w) /\ is_nullish i = true) ->
      exists e, hostNodes w = Throw e).
Proof.
  unfold hostNodes. split.
  - intros H.
    rewrite (array_filter_pure _
               (fun i => jstype_eqb (typeof (get i "type")) TString)).
    + reflexivity.
    + intros i Hi. now rewrite (getprop_not_nullish _ _ (H i Hi)).
  - intros [i [Hi Hn]].
    assert (G : exists e, array_filter
                  (fun inst => ty <- getprop inst "type" ;;
                               Ok (jstype_eqb (typeof ty) TString))
                  (instances w) = Throw e).
    { induction (instances w) as [| x xs IH]; [contradiction|].
      cbn [array_filter].
      destruct (getprop x "type") as [ty | e] eqn:E; [| cbn; eauto].
      cbn [bind]. destruct Hi as [-> | Hi].
      - destruct i; discriminate.
      - destruct (IH Hi) as [e E']. rewrite E'. cbn. eauto. }
    destruct G as [e E]. rewrite E. cbn. eauto.
Qed.

Lemma hostNodes_keeps_string_typed_witness :
  hostNodes text_wrapper = Ok (wrap text_wrapper [])
  /\ exists e, hostNodes (at_ root_wrapper 3) = Throw e.
Proof.
  destruct (hostNodes_keeps_string_typed text_wrapper) as [H _].
  destruct (hostNodes_keeps_string_typed (at_ root_wrapper 3)) as [_ H'].
  split.
  - apply H. intros i [<- | []]. reflexivity.
  - apply H'. exists VUndefined. split; [now left | reflexivity].
Defined.

(** ** Closest *)

(** X18: [closest(selector)] returns the wrapper itself when its node matches;
    otherwise it returns [first()] of the matching ancestors, a wrapper of
    exactly one entry: the nearest matching ancestor, or [undefined] when
    no ancestor matches. *)
Theorem closest_is_self_or_one_entry {ext : Collaborators}
    (w : Wrapper) (selector : value) (w' : Wrapper) :
  closest w selector = Ok w' ->
  (is_ w selector = Ok true /\ w' = w)
  \/ (is_ w selector = Ok false
      /\ wlength w' = 1
      /\ exists ancestors matching,
           parents w VUndefined = Ok ancestors
           /\ filter_ ancestors selector = Ok matching
           /\ instances w' = [hd VUndefined (instances matching)]).
Proof.
  unfold closest. intros H.
  apply bind_Ok in H as [matches [Hm H]].
  destruct matches.
  - left. injection H as <-. auto.
  - right. apply bind_Ok in H as [ps [Hps H]].
    apply bind_Ok in H as [kept [Hk H]]. injection H as <-.
    repeat split; auto. exists ps, kept. repeat split; auto.
    unfold first, at_, wrap, index. cbn [instances Z.ltb Z.compare Z.to_nat].
    now destruct (instances kept).
Qed.

Lemma closest_is_self_or_one_entry_witness :
  @closest sample_collaborators inner_wrapper (VStr "div")
  = Ok (wrap (wrap inner_wrapper [div_instance]) [div_instance])
  /\ wlength (wrap (wrap inner_wrapper [div_instance]) [div_instance]) = 1.
Proof.
  split; [reflexivity|].
  destruct (@closest_is_self_or_one_entry sample_collaborators inner_wrapper
              (VStr "div") _ eq_refl) as [[H _] | [_ [H _]]].
  - discriminate.
  - exact H.
Defined.
